(** * gml: a node tree over encoding/xml

    A shallow embedding of [gml.go].  Go pointers to [Node] are addresses
    into an explicit store, so that aliasing, the [Parent] back-reference
    and node identity are visible.  [nil] is [None].  A nil dereference is
    a panic: store-passing functions return [None] for it, fuel-indexed
    ones return [Panic].

    The package is written against [encoding/xml].  That library is not
    part of the repository; its [Decoder] and [Encoder] are modelled at
    the level of the token interface the package uses ([Token],
    [EncodeToken], [Encode], [Flush], [Indent]), with the checks these
    calls document.  The encoder is the one [xml.Marshal] and
    [xml.MarshalIndent] set up, which writes to memory.  The text of
    the markup is the sequence of tokens written, the white space of
    indentation among them as character data, and [lexed] gives the
    tokens a decoder finds in it when the names are XML names in ASCII
    without a colon and the text is made of the characters of XML, for
    which escaping and reading leave names and text as they are; the
    text of other markup is not modelled. *)

From Stdlib Require Import String Ascii NArith ZArith List Lia.
From stdpp Require Import base list gmap strings.

Set Warnings "-register-all".

Local Open Scope string_scope.
Local Open Scope list_scope.

(** ** Strings *)

Module GoStrings.

Definition code (c : ascii) : N := N_of_ascii c.

(** The ASCII part of [unicode.IsSpace]: tab, newline, vertical tab,
    form feed, carriage return (9 to 13) and space. *)
Definition asciiSpace (c : ascii) : bool :=
  ((9 <=? code c) && (code c <=? 13) || (code c =? 32))%N.

(** U+0085 and U+00A0, as the two bytes [C2 85] and [C2 A0]. *)
Definition space2 (c1 c2 : ascii) : bool :=
  ((code c1 =? 0xC2) && ((code c2 =? 0x85) || (code c2 =? 0xA0)))%N.

(** U+1680 as [E1 9A 80]; U+2000..U+200A, U+2028, U+2029 and U+202F as
    [E2 80 80..8A], [E2 80 A8], [E2 80 A9] and [E2 80 AF]; U+205F as
    [E2 81 9F]; U+3000 as [E3 80 80]. *)
Definition space3 (c1 c2 c3 : ascii) : bool :=
  ((code c1 =? 0xE1) && (code c2 =? 0x9A) && (code c3 =? 0x80)
   || (code c1 =? 0xE2) && (code c2 =? 0x80)
      && ((0x80 <=? code c3) && (code c3 <=? 0x8A)
          || (code c3 =? 0xA8) || (code c3 =? 0xA9) || (code c3 =? 0xAF))
   || (code c1 =? 0xE2) && (code c2 =? 0x81) && (code c3 =? 0x9F)
   || (code c1 =? 0xE3) && (code c2 =? 0x80) && (code c3 =? 0x80))%N.

(** [strings.TrimLeftFunc(s, unicode.IsSpace)]: runes are decoded from
    the front; a byte that starts no white-space rune stops the scan. *)
Fixpoint trimLeft (s : string) : string :=
  match s with
  | EmptyString => s
  | String c1 r1 =>
      if asciiSpace c1 then trimLeft r1
      else match r1 with
           | EmptyString => s
           | String c2 r2 =>
               if space2 c1 c2 then trimLeft r2
               else match r2 with
                    | EmptyString => s
                    | String c3 r3 =>
                        if space3 c1 c2 c3 then trimLeft r3 else s
                    end
           end
  end.

(** The same scan from the end of the string, on the reversed bytes
    ([utf8.DecodeLastRuneInString] walks back to the start byte of the
    last rune). *)
Fixpoint trimLeftRev (s : string) : string :=
  match s with
  | EmptyString => s
  | String c1 r1 =>
      if asciiSpace c1 then trimLeftRev r1
      else match r1 with
           | EmptyString => s
           | String c2 r2 =>
               if space2 c2 c1 then trimLeftRev r2
               else match r2 with
                    | EmptyString => s
                    | String c3 r3 =>
                        if space3 c3 c2 c1 then trimLeftRev r3 else s
                    end
           end
  end.

Definition trimRight (s : string) : string :=
  String.rev (trimLeftRev (String.rev s)).

(** [strings.TrimSpace]. *)
Definition TrimSpace (s : string) : string := trimRight (trimLeft s).

(** One white-space rune, as its bytes. *)
Inductive SpaceRune : string -> Prop :=
| space_rune1 c : asciiSpace c = true -> SpaceRune (String c "")
| space_rune2 c1 c2 : space2 c1 c2 = true -> SpaceRune (String c1 (String c2 ""))
| space_rune3 c1 c2 c3 :
    space3 c1 c2 c3 = true -> SpaceRune (String c1 (String c2 (String c3 ""))).

(** A string made of white-space runes only. *)
Inductive AllSpace : string -> Prop :=
| all_space_nil : AllSpace ""
| all_space_app r s : SpaceRune r -> AllSpace s -> AllSpace (r +:+ s).

(** No white-space rune at the start, or at the end. *)
Definition no_space_start (s : string) : Prop :=
  forall r t, SpaceRune r -> s <> r +:+ t.
Definition no_space_end (s : string) : Prop :=
  forall r t, SpaceRune r -> s <> t +:+ r.

End GoStrings.

Export GoStrings.

(** ** Nodes and the store *)

Abbreviation loc := nat (only parsing).

(** A [*Node]: [None] is [nil]. *)
Abbreviation ptr := (option nat) (only parsing).

Record Node := mkNode {
  Tag : string;
  Parent : ptr;
  Children : list ptr;
  InnerText : string;
  (** [None] is the nil map. *)
  Attributes : option (gmap string string)
}.

(** The zero value [Node{}]. *)
Definition zeroNode : Node := mkNode "" None [] "" None.

Definition set_Tag (v : string) (nd : Node) : Node :=
  mkNode v (Parent nd) (Children nd) (InnerText nd) (Attributes nd).
Definition set_Parent (v : ptr) (nd : Node) : Node :=
  mkNode (Tag nd) v (Children nd) (InnerText nd) (Attributes nd).
Definition set_Children (v : list ptr) (nd : Node) : Node :=
  mkNode (Tag nd) (Parent nd) v (InnerText nd) (Attributes nd).
Definition set_InnerText (v : string) (nd : Node) : Node :=
  mkNode (Tag nd) (Parent nd) (Children nd) v (Attributes nd).
Definition set_Attributes (v : option (gmap string string)) (nd : Node) : Node :=
  mkNode (Tag nd) (Parent nd) (Children nd) (InnerText nd) v.

(** The store: the node at address [l] is the [l]-th entry.  Nodes are
    never freed (the garbage collector is not modelled). *)
Abbreviation heap := (list Node) (only parsing).

(** [*p]; [None] when [p] is nil (or not an address of the store). *)
Definition deref (h : heap) (p : ptr) : option Node :=
  match p with
  | None => None
  | Some l => h !! l
  end.

(** [&Node{...}]: the new node gets the next address. *)
Definition alloc (h : heap) (nd : Node) : heap * nat := (h ++ [nd], length h).

(** [p.f = v] for a non-nil [p], through a field setter. *)
Definition store (h : heap) (l : nat) (f : Node -> Node) : option heap :=
  match h !! l with
  | None => None
  | Some nd => Some (<[l := f nd]> h)
  end.

(** Results of the functions that recurse through the store. *)
Inductive outcome (A : Type) : Type :=
| Done (a : A)
| Panic
| OutOfFuel.
Arguments Done {A} a.
Arguments Panic {A}.
Arguments OutOfFuel {A}.

(** ** Navigator and mutator operations *)

(** The loop of [FindChild] over [n.Children]. *)
Fixpoint scanChildren (find : ptr -> outcome ptr) (cs : list ptr) : outcome ptr :=
  match cs with
  | [] => Done None
  | c :: cs' =>
      match find c with
      | Done None => scanChildren find cs'
      | r => r
      end
  end.

Fixpoint FindChild (fuel : nat) (h : heap) (n : ptr) (tag : string) : outcome ptr :=
  match fuel with
  | 0 => OutOfFuel
  | S fuel' =>
      match n with
      | None => Done None
      | Some l =>
          match h !! l with
          | None => Panic
          | Some nd =>
              if String.eqb (Tag nd) tag then Done n
              else scanChildren (fun c => FindChild fuel' h c tag) (Children nd)
          end
      end
  end.

Definition AppendChild (h : heap) (n node : ptr) : option (heap * ptr) :=
  c ← node;
  h1 ← store h c (set_Parent n);
  l ← n;
  h2 ← store h1 l (fun nd => set_Children (Children nd ++ [node]) nd);
  Some (h2, node).

Fixpoint ChainAppendChildren (h : heap) (n : ptr) (nodes : list ptr) : option (heap * ptr) :=
  match nodes with
  | [] => Some (h, n)
  | node :: rest =>
      '(h1, _) ← AppendChild h n node;
      ChainAppendChildren h1 n rest
  end.

Definition ChainAppendChild (h : heap) (n node : ptr) : option (heap * ptr) :=
  '(h1, _) ← AppendChild h n node;
  Some (h1, n).

Definition SetAttribute (h : heap) (n : ptr) (name value : string) : option heap :=
  l ← n;
  store h l (fun nd =>
    set_Attributes (Some (<[name := value]> (default ∅ (Attributes nd)))) nd).

Definition GetAttribute (h : heap) (n : ptr) (name : string) : option string :=
  nd ← deref h n;
  Some (match Attributes nd with
        | None => ""
        | Some m => default "" (m !! name)
        end).

Definition HasAttribute (h : heap) (n : ptr) (name : string) : option bool :=
  nd ← deref h n;
  Some (match Attributes nd with
        | None => false
        | Some m => bool_decide (is_Some (m !! name))
        end).

Definition RemoveAttribute (h : heap) (n : ptr) (name : string) : option heap :=
  l ← n;
  store h l (fun nd =>
    match Attributes nd with
    | None => nd
    | Some m => set_Attributes (Some (delete name m)) nd
    end).

(** The loop of [RemoveChildrenWithTag]: [child.Tag] panics on a nil
    child. *)
Fixpoint keepOtherTags (h : heap) (tag : string) (cs : list ptr) : option (list ptr) :=
  match cs with
  | [] => Some []
  | c :: cs' =>
      cn ← deref h c;
      rest ← keepOtherTags h tag cs';
      Some (if String.eqb (Tag cn) tag then rest else c :: rest)
  end.

Definition RemoveChildrenWithTag (h : heap) (n : ptr) (tag : string) : option heap :=
  l ← n;
  nd ← h !! l;
  newChildren ← keepOtherTags h tag (Children nd);
  store h l (set_Children newChildren).

Fixpoint dfsCheckPath (fuel : nat) (h : heap) (n : ptr) (path : list string) : outcome bool :=
  match fuel with
  | 0 => OutOfFuel
  | S fuel' =>
      match path with
      | [] => Done true
      | tag :: rest =>
          match deref h n with
          | None => Panic
          | Some nd =>
              (fix scan (cs : list ptr) : outcome bool :=
                 match cs with
                 | [] => Done false
                 | c :: cs' =>
                     match deref h c with
                     | None => Panic
                     | Some cn =>
                         if String.eqb (Tag cn) tag then
                           match dfsCheckPath fuel' h c rest with
                           | Done false => scan cs'
                           | r => r
                           end
                         else scan cs'
                     end
                 end) (Children nd)
          end
      end
  end.

Definition CheckPath (fuel : nat) (h : heap) (n : ptr) (path : list string) : outcome bool :=
  match path with
  | [] => Done true
  | _ => dfsCheckPath fuel h n path
  end.

Fixpoint CreatePath (h : heap) (n : ptr) (path : list string) : option (heap * ptr) :=
  match path with
  | [] => Some (h, n)
  | tag :: rest =>
      let '(h0, c) := alloc h (mkNode tag None [] "" None) in
      '(h1, currentNode) ← AppendChild h0 n (Some c);
      CreatePath h1 currentNode rest
  end.

Definition CreateUniquePath (h : heap) (n : ptr) (path : list string) : option (heap * ptr) :=
  match path with
  | [] => Some (h, n)
  | tag :: _ =>
      h1 ← RemoveChildrenWithTag h n tag;
      CreatePath h1 n path
  end.

(** The inner loop of [EnsurePath]: the first child with the tag, if
    any.  The outer [None] is the panic on a nil child. *)
Fixpoint firstWithTag (h : heap) (tag : string) (cs : list ptr) : option ptr :=
  match cs with
  | [] => Some None
  | c :: cs' =>
      cn ← deref h c;
      if String.eqb (Tag cn) tag then Some c else firstWithTag h tag cs'
  end.

Fixpoint EnsurePath (h : heap) (n : ptr) (path : list string) : option (heap * ptr) :=
  match path with
  | [] => Some (h, n)
  | tag :: rest =>
      cur ← deref h n;
      found ← firstWithTag h tag (Children cur);
      match found with
      | Some child => EnsurePath h (Some child) rest
      | None => CreatePath h n path
      end
  end.

(** ** encoding/xml: tokens and errors *)

(** [xml.Token].  Names are the [Local] part of [xml.Name]; the package
    never reads or sets [Space]. *)
Inductive Token : Type :=
| StartElement (name : string) (attr : list (string * string))
| EndElement (name : string)
| CharData (data : string)
| Comment (data : string)
| ProcInst (target inst : string)
| Directive (data : string).

Inductive error : Type :=
| ErrEOF                                  (* io.EOF *)
| ErrSyntax (msg : string)                (* malformed markup met by the lexer *)
| ErrUnexpectedEOF                        (* input ends inside an element *)
| ErrUnexpectedEnd (name : string)        (* end tag with no element open *)
| ErrClosedBy (opened closed : string)    (* element <opened> closed by </closed> *)
| ErrStartNoName                          (* start tag with no name *)
| ErrEndNoName                            (* end tag with no name *)
| ErrEndWithoutStart (name : string)      (* end tag without start tag *)
| ErrEndMismatch (name top : string)      (* end tag does not match start tag *)
| ErrNotClosed (name : string)            (* MarshalXML wrote invalid XML *)
| ErrUnclosedTag (name : string)          (* Close with an element open *)
| ErrTrace (e : error).                   (* ers.Trace(err): err with a trace *)

(** ** encoding/xml: the decoder

    A [Decoder] in strict mode (what [xml.Unmarshal] and [xml.NewDecoder]
    set up) over the lexed input: the tokens of the text, or the error the
    lexer meets.  [stk] is the stack of open elements: [Token] returns
    start and end elements that are properly nested and matched, and an
    error for an unexpected end element or for the end of the input
    before all expected end elements. *)
Record Decoder := mkDecoder {
  input : list (Token + error);
  stk : list string
}.

(** [d.Token()]. *)
Definition Decoder_Token (d : Decoder) : (Token + error) * Decoder :=
  match input d with
  | [] =>
      (inr (match stk d with [] => ErrEOF | _ :: _ => ErrUnexpectedEOF end), d)
  | inr err :: rest => (inr err, mkDecoder rest (stk d))
  | inl (StartElement name attr) :: rest =>
      (inl (StartElement name attr), mkDecoder rest (name :: stk d))
  | inl (EndElement name) :: rest =>
      match stk d with
      | [] => (inr (ErrUnexpectedEnd name), mkDecoder rest [])
      | top :: below =>
          if String.eqb top name
          then (inl (EndElement name), mkDecoder rest below)
          else (inr (ErrClosedBy top name), mkDecoder rest below)
      end
  | inl t :: rest => (inl t, mkDecoder rest (stk d))
  end.

(** ** Deserialization *)

(** The map built by the loop over [start.Attr]: a later attribute of
    the same name overwrites an earlier one. *)
Definition attrMap (attr : list (string * string)) : gmap string string :=
  fold_left (fun m a => <[a.1 := a.2]> m) attr ∅.

(** [UnmarshalXML], and its token loop as [unmarshalLoop]. *)
Fixpoint UnmarshalXML (fuel : nat) (h : heap) (d : Decoder) (n : ptr)
    (name : string) (attr : list (string * string)) {struct fuel}
    : outcome (heap * Decoder * option error) :=
  match fuel with
  | 0 => OutOfFuel
  | S fuel' =>
      match n with
      | None => Panic
      | Some l =>
          match store h l (fun nd => set_Attributes (Some (attrMap attr)) (set_Tag name nd)) with
          | None => Panic
          | Some h1 => unmarshalLoop fuel' h1 d l
          end
      end
  end
with unmarshalLoop (fuel : nat) (h : heap) (d : Decoder) (l : nat) {struct fuel}
    : outcome (heap * Decoder * option error) :=
  match fuel with
  | 0 => OutOfFuel
  | S fuel' =>
      match Decoder_Token d with
      | (inr err, d1) => Done (h, d1, Some (ErrTrace err))
      | (inl (StartElement name attr), d1) =>
          let '(h1, child) := alloc h (mkNode "" (Some l) [] "" None) in
          match UnmarshalXML fuel' h1 d1 (Some child) name attr with
          | Done (h2, d2, Some err) => Done (h2, d2, Some (ErrTrace err))
          | Done (h2, d2, None) =>
              match store h2 l (fun nd => set_Children (Children nd ++ [Some child]) nd) with
              | None => Panic
              | Some h3 => unmarshalLoop fuel' h3 d2 l
              end
          | Panic => Panic
          | OutOfFuel => OutOfFuel
          end
      | (inl (CharData data), d1) =>
          match store h l (set_InnerText (TrimSpace data)) with
          | None => Panic
          | Some h1 => unmarshalLoop fuel' h1 d1 l
          end
      | (inl (EndElement name), d1) =>
          match h !! l with
          | None => Panic
          | Some nd =>
              if String.eqb name (Tag nd) then Done (h, d1, None)
              else unmarshalLoop fuel' h d1 l
          end
      | (inl _, d1) => unmarshalLoop fuel' h d1 l
      end
  end.

(** [d.Decode(v)] for a [*Node]: skip to the first start element and
    hand it to [UnmarshalXML]. *)
Fixpoint Decode (fuel : nat) (h : heap) (d : Decoder) (v : nat)
    : outcome (heap * Decoder * option error) :=
  match fuel with
  | 0 => OutOfFuel
  | S fuel' =>
      match Decoder_Token d with
      | (inr err, d1) => Done (h, d1, Some err)
      | (inl (StartElement name attr), d1) => UnmarshalXML fuel' h d1 (Some v) name attr
      | (inl _, d1) => Decode fuel' h d1 v
      end
  end.

(** [xml.Unmarshal(data, v)]: every step of the loops consumes a token,
    so twice the number of tokens bounds the depth of the calls. *)
Definition Unmarshal (data : list (Token + error)) (h : heap) (v : nat)
    : outcome (heap * option error) :=
  match Decode (2 * length data + 3) h (mkDecoder data []) v with
  | Done (h', _, err) => Done (h', err)
  | Panic => Panic
  | OutOfFuel => OutOfFuel
  end.

(** ** encoding/xml: the encoder

    An encoder whose writer is a buffer in memory: what [xml.Marshal]
    and [xml.MarshalIndent] set up, over a [bytes.Buffer], and what
    [Bytes] and [String] of the package go through.  Such a writer
    takes everything it is given, so that writing and [Flush] report
    no error; the errors of this encoder are those of the checks of
    [EncodeToken] and [Encode].  An encoder over a writer that can
    fail, whose failure shows once the buffer of the encoder is
    flushed, is not modelled, and neither is an encoder that was
    closed.

    The output is the sequence of tokens written; the white space
    written for indentation is character data.  [tags] is the stack of
    open elements against which [EncodeToken] checks end tags; the empty
    name is the mark [Encode] pushes around a call of [MarshalXML].
    [prefix], [indent], [depth], [indentedIn] and [putNewline] are the
    state of indentation, as set by [Indent] and kept by [writeIndent]. *)
Record Encoder := mkEncoder {
  out : list Token;
  tags : list string;
  prefix : string;
  indent : string;
  depth : Z;
  indentedIn : bool;
  putNewline : bool
}.

Definition set_out (v : list Token) (e : Encoder) : Encoder :=
  mkEncoder v (tags e) (prefix e) (indent e) (depth e) (indentedIn e) (putNewline e).
Definition set_tags (v : list string) (e : Encoder) : Encoder :=
  mkEncoder (out e) v (prefix e) (indent e) (depth e) (indentedIn e) (putNewline e).
Definition set_depth (v : Z) (e : Encoder) : Encoder :=
  mkEncoder (out e) (tags e) (prefix e) (indent e) v (indentedIn e) (putNewline e).
Definition set_indentedIn (v : bool) (e : Encoder) : Encoder :=
  mkEncoder (out e) (tags e) (prefix e) (indent e) (depth e) v (putNewline e).
Definition set_putNewline (v : bool) (e : Encoder) : Encoder :=
  mkEncoder (out e) (tags e) (prefix e) (indent e) (depth e) (indentedIn e) v.

(** [e.Indent(prefix, indent)]. *)
Definition Indent (e : Encoder) (prefix indent : string) : Encoder :=
  mkEncoder (out e) (tags e) prefix indent (depth e) (indentedIn e) (putNewline e).

(** A token's text goes to the buffer. *)
Definition write (e : Encoder) (t : Token) : Encoder :=
  set_out (out e ++ [t]) e.

(** White space written between tags: character data in the output,
    and nothing at all when it is empty. *)
Definition writeSpace (e : Encoder) (s : string) : Encoder :=
  if String.eqb s "" then e else write e (CharData s).

Definition newline : string := String "010"%char "".

Fixpoint copies (n : nat) (s : string) : string :=
  match n with
  | 0 => ""
  | S n' => s +:+ copies n' s
  end.

(** Whether [Indent] was called with a prefix or an indentation. *)
Definition indenting (prefix indent : string) : bool :=
  negb (String.eqb prefix "" && String.eqb indent "").

(** The white space before a tag at depth [depth]. *)
Definition indentation (prefix indent : string) (nl : bool) (depth : Z) : string :=
  (if nl then newline else "") +:+ prefix +:+ copies (Z.to_nat depth) indent.

(** [p.writeIndent(depthDelta)], called with 1 before a start tag and
    with -1 before an end tag: a new line and the indentation of the
    depth, except before the end tag that directly follows its start
    tag or the text after it. *)
Definition writeIndent (e : Encoder) (depthDelta : Z) : Encoder :=
  if negb (indenting (prefix e) (indent e)) then e
  else
    let e1 := if (depthDelta <? 0)%Z then set_depth (depth e - 1)%Z e else e in
    if (depthDelta <? 0)%Z && indentedIn e1 then set_indentedIn false e1
    else
      let e2 := if (depthDelta <? 0)%Z then set_indentedIn false e1 else e1 in
      let e3 := writeSpace e2 (indentation (prefix e2) (indent e2) (putNewline e2) (depth e2)) in
      let e4 := set_putNewline true e3 in
      if (0 <? depthDelta)%Z then set_indentedIn true (set_depth (depth e4 + 1)%Z e4) else e4.

(** [e.EncodeToken(t)]: attributes without a name are not written. *)
Definition EncodeToken (e : Encoder) (t : Token) : Encoder * option error :=
  match t with
  | StartElement name attr =>
      if String.eqb name "" then (e, Some ErrStartNoName)
      else (write (writeIndent (set_tags (name :: tags e) e) 1%Z)
                  (StartElement name (filter (fun a => a.1 ≠ "") attr)), None)
  | EndElement name =>
      if String.eqb name "" then (e, Some ErrEndNoName)
      else match tags e with
           | [] => (e, Some (ErrEndWithoutStart name))
           | top :: below =>
               if String.eqb top "" then (e, Some (ErrEndWithoutStart name))
               else if String.eqb top name
                    then (write (writeIndent (set_tags below e) (-1)%Z) t, None)
               else (e, Some (ErrEndMismatch name top))
           end
  | _ => (write e t, None)
  end.

(** [e.Flush()]: the buffer of the encoder goes to the writer, which
    takes it. *)
Definition Flush (e : Encoder) : Encoder * option error := (e, None).

(** [e.Encode(v)] for a [*Node], given the [MarshalXML] it dispatches
    to: a nil pointer writes nothing; otherwise the call is bracketed by
    the mark on [tags], and the encoder is flushed. *)
Definition Encode
    (marshal : Encoder -> ptr -> string -> list (string * string) ->
               outcome (Encoder * option error))
    (e : Encoder) (v : ptr) : outcome (Encoder * option error) :=
  match v with
  | None => Done (Flush e)
  | Some _ =>
      match marshal (set_tags ("" :: tags e) e) v "Node" [] with
      | Done (e1, Some err) => Done (e1, Some err)
      | Done (e1, None) =>
          if Nat.ltb (S (length (tags e))) (length (tags e1))
          then Done (e1, Some (ErrNotClosed (hd "" (tags e1))))
          else Done (Flush (set_tags (drop (length (tags e1) - length (tags e)) (tags e1)) e1))
      | Panic => Panic
      | OutOfFuel => OutOfFuel
      end
  end.

(** ** Serialization *)

(** The loop of [MarshalXML] over [n.Children]. *)
Fixpoint encodeChildren
    (encode : Encoder -> ptr -> outcome (Encoder * option error))
    (e : Encoder) (cs : list ptr) : outcome (Encoder * option error) :=
  match cs with
  | [] => Done (e, None)
  | c :: cs' =>
      match encode e c with
      | Done (e1, Some err) => Done (e1, Some (ErrTrace err))
      | Done (e1, None) => encodeChildren encode e1 cs'
      | Panic => Panic
      | OutOfFuel => OutOfFuel
      end
  end.

Section Marshal.

(** The order in which [range] visits the entries of a map is not
    specified by Go and may change from one loop to the next; it is a
    parameter, given per node. *)
Variable rangeOrder : nat -> gmap string string -> list (string * string).

Fixpoint MarshalXML (fuel : nat) (h : heap) (e : Encoder) (n : ptr)
    (name : string) (attr : list (string * string))
    : outcome (Encoder * option error) :=
  match fuel with
  | 0 => OutOfFuel
  | S fuel' =>
      match n with
      | None => Panic
      | Some l =>
          match h !! l with
          | None => Panic
          | Some nd =>
              let name := Tag nd in
              let attr := attr ++ match Attributes nd with
                                  | None => []
                                  | Some m => rangeOrder l m
                                  end in
              if Nat.eqb (length (Children nd)) 0 && String.eqb (InnerText nd) "" then
                match EncodeToken e (StartElement name attr) with
                | (e1, Some err) => Done (e1, Some (ErrTrace err))
                | (e1, None) => Done (EncodeToken e1 (EndElement name))
                end
              else
                match EncodeToken e (StartElement name attr) with
                | (e1, Some err) => Done (e1, Some (ErrTrace err))
                | (e1, None) =>
                    match (if String.eqb (InnerText nd) "" then (e1, None)
                           else EncodeToken e1 (CharData (InnerText nd))) with
                    | (e2, Some err) => Done (e2, Some (ErrTrace err))
                    | (e2, None) =>
                        match encodeChildren (Encode (MarshalXML fuel' h)) e2 (Children nd) with
                        | Done (e3, Some err) => Done (e3, Some err)
                        | Done (e3, None) =>
                            match EncodeToken e3 (EndElement name) with
                            | (e4, Some err) => Done (e4, Some (ErrTrace err))
                            | (e4, None) => Done (Flush e4)
                            end
                        | Panic => Panic
                        | OutOfFuel => OutOfFuel
                        end
                    end
                end
          end
      end
  end.

Definition newEncoder : Encoder :=
  mkEncoder [] [] "" "" 0%Z false false.

(** The body of [xml.Marshal] and of [xml.MarshalIndent] for a [*Node]:
    encode into the buffer of [e], then [Close] checks that no element
    is left open. *)
Definition encodeAndClose (e : Encoder) (fuel : nat) (h : heap) (v : ptr)
    : outcome (list Token + error) :=
  match Encode (MarshalXML fuel h) e v with
  | Done (e1, Some err) => Done (inr err)
  | Done (e1, None) =>
      match tags e1 with
      | [] => Done (inl (out e1))
      | t :: _ => Done (inr (ErrUnclosedTag t))
      end
  | Panic => Panic
  | OutOfFuel => OutOfFuel
  end.

(** [xml.Marshal(v)]. *)
Definition Marshal (fuel : nat) (h : heap) (v : ptr) : outcome (list Token + error) :=
  encodeAndClose newEncoder fuel h v.

(** [xml.MarshalIndent(v, prefix, indent)]. *)
Definition MarshalIndent (fuel : nat) (h : heap) (v : ptr) (prefix indent : string)
    : outcome (list Token + error) :=
  encodeAndClose (Indent newEncoder prefix indent) fuel h v.

(** [Bytes]: nil (no bytes) when marshalling fails. *)
Definition Bytes (fuel : nat) (h : heap) (n : ptr) : outcome (list Token) :=
  match MarshalIndent fuel h n "" "  " with
  | Done (inl output) => Done output
  | Done (inr _) => Done []
  | Panic => Panic
  | OutOfFuel => OutOfFuel
  end.

(** [String]: [string(n.Bytes())]. *)
Definition Node_String (fuel : nat) (h : heap) (n : ptr) : outcome (list Token) :=
  Bytes fuel h n.

End Marshal.

(** ** Trees in the store *)

(** A tree laid out in the store: every node with its address. *)
Inductive tree : Type :=
| TNode (l : nat) (tag : string) (attrs : option (gmap string string))
        (text : string) (kids : list tree).

Definition t_loc (t : tree) : nat := match t with TNode l _ _ _ _ => l end.
Definition t_tag (t : tree) : string := match t with TNode _ tag _ _ _ => tag end.
Definition t_attrs (t : tree) : option (gmap string string) :=
  match t with TNode _ _ attrs _ _ => attrs end.
Definition t_text (t : tree) : string := match t with TNode _ _ _ text _ => text end.
Definition t_kids (t : tree) : list tree := match t with TNode _ _ _ _ kids => kids end.

(** The store holds [t]: the node at the root's address has the root's
    fields and the roots of the subtrees as children, none of them nil. *)
Inductive repr (h : heap) : tree -> Prop :=
| repr_node l tag attrs text kids parent :
    h !! l = Some (mkNode tag parent (map (fun k => Some (t_loc k)) kids) text attrs) ->
    Forall (repr h) kids ->
    repr h (TNode l tag attrs text kids).

Fixpoint height (t : tree) : nat :=
  match t with
  | TNode _ _ _ _ kids => S (foldr (fun k m => Nat.max (height k) m) 0 kids)
  end.

(** Depth-first pre-order: a node, then the subtrees of its children
    from first to last. *)
Fixpoint preorder (t : tree) : list (nat * string) :=
  match t with
  | TNode l tag _ _ kids => (l, tag) :: concat (map preorder kids)
  end.

(** The first node of a listing that carries the tag. *)
Fixpoint firstTagged (tag : string) (ns : list (nat * string)) : ptr :=
  match ns with
  | [] => None
  | (l, t) :: ns' => if String.eqb t tag then Some l else firstTagged tag ns'
  end.

(** All addresses of [t] lie in [[lo, hi)]. *)
Fixpoint within (lo hi : nat) (t : tree) : Prop :=
  match t with
  | TNode l _ _ _ kids =>
      (lo <= l < hi) /\ foldr (fun k P => within lo hi k /\ P) True kids
  end.

(** ** Well-formed stores and reachability *)

(** Every pointer stored in a node is an address of the store; children
    are never nil, a parent may be. *)
Definition child_ok (h : heap) (c : ptr) : bool :=
  match c with
  | Some x => Nat.ltb x (length h)
  | None => false
  end.

Definition node_ok (h : heap) (nd : Node) : bool :=
  forallb (child_ok h) (Children nd)
  && match Parent nd with
     | Some p => Nat.ltb p (length h)
     | None => true
     end.

Definition heap_ok (h : heap) : Prop := forallb (node_ok h) h = true.

(** The tag of the node a child pointer refers to. *)
Definition tagAt (h : heap) (c : ptr) : string :=
  match deref h c with
  | Some nd => Tag nd
  | None => ""
  end.

(** [x] can be reached from [l] by following [Children] and [Parent]. *)
Inductive reachable (h : heap) : nat -> nat -> Prop :=
| reach_here l : reachable h l l
| reach_child l nd c x :
    h !! l = Some nd -> Some c ∈ Children nd -> reachable h c x -> reachable h l x
| reach_parent l nd p x :
    h !! l = Some nd -> Parent nd = Some p -> reachable h p x -> reachable h l x.

(** The nodes [CreatePath] adds below [parent] for [path], the first of
    them at address [base]. *)
Fixpoint chain (parent base : nat) (path : list string) : list Node :=
  match path with
  | [] => []
  | tag :: rest =>
      mkNode tag (Some parent)
             (match rest with [] => [] | _ :: _ => [Some (S base)] end) "" None
      :: chain base (S base) rest
  end.

(** ** Documents *)

(** Markup as a document: an element with its attributes and content;
    content is text, nested elements, and what the parser passes over. *)
Inductive xml : Type :=
| XText (data : string)
| XComment (data : string)
| XProcInst (target inst : string)
| XDirective (data : string)
| XElem (tag : string) (attr : list (string * string)) (body : list xml).

Fixpoint xml_tokens (x : xml) : list Token :=
  match x with
  | XText data => [CharData data]
  | XComment data => [Comment data]
  | XProcInst target inst => [ProcInst target inst]
  | XDirective data => [Directive data]
  | XElem tag attr body =>
      StartElement tag attr :: concat (map xml_tokens body) ++ [EndElement tag]
  end.

Definition body_tokens (body : list xml) : list Token := concat (map xml_tokens body).

Definition is_elem (x : xml) : bool :=
  match x with XElem _ _ _ => true | _ => false end.

(** The text segments directly inside an element, in document order. *)
Fixpoint texts (body : list xml) : list string :=
  match body with
  | [] => []
  | XText data :: rest => data :: texts rest
  | _ :: rest => texts rest
  end.

(** The element children, in document order. *)
Definition elems (body : list xml) : list xml := List.filter is_elem body.

(** The one text slot of a node after its content was read: the last
    text segment, stripped; [init] when there is none. *)
Definition lastText (init : string) (body : list xml) : string :=
  match last (texts body) with
  | Some data => TrimSpace data
  | None => init
  end.

(** [parsed x t]: the tree [t] is what the deserializer is specified to
    build for the element [x]. *)
Inductive parsed : xml -> tree -> Prop :=
| parsed_elem tag attr body l kids :
    Forall2 parsed (elems body) kids ->
    parsed (XElem tag attr body)
           (TNode l tag (Some (attrMap attr)) (lastText "" body) kids).

(** Where no start tag is expected before the root element: text,
    comments, processing instructions and directives. *)
Definition is_prolog (t : Token) : bool :=
  match t with
  | StartElement _ _ | EndElement _ => false
  | _ => true
  end.

(** The input begins, after a prolog, with a complete element. *)
Definition well_formed_prefix (data : list (Token + error)) : Prop :=
  exists pre tag attr body rest,
    data = map inl pre ++ map inl (xml_tokens (XElem tag attr body)) ++ rest /\
    forallb is_prolog pre = true.

(** ** The text of the markup

    The encoder writes a name as it is.  Text and attribute values it
    writes escaped: the characters of markup, the tab and the carriage
    return (and the newline in an attribute value) as character
    references, and U+FFFD in place of a byte that is no UTF-8 and of
    a character XML does not allow.  The decoder reads a name as far
    as the bytes of names go, refuses what is no XML name, and takes
    what follows a colon as the local name; it resolves the
    references, and refuses text that is no UTF-8 or holds a character
    XML does not allow.  Names and text are read as they were written
    when the names are XML names without a colon and the text is made
    of the characters of XML: the text of the markup is modelled for
    these, with names in ASCII. *)

Definition in_range (lo hi : N) (c : ascii) : bool :=
  ((lo <=? code c) && (code c <=? hi))%N.

(** A letter or [_]; these, a digit, [-] or [.]. *)
Definition name_start (c : ascii) : bool :=
  in_range 65 90 c || in_range 97 122 c || (code c =? 95)%N.
Definition name_char (c : ascii) : bool :=
  name_start c || in_range 48 57 c || (code c =? 45)%N || (code c =? 46)%N.

Fixpoint name_chars (s : string) : bool :=
  match s with
  | EmptyString => true
  | String c r => name_char c && name_chars r
  end.

(** An XML name in ASCII, without a colon. *)
Definition plain_name (s : string) : bool :=
  match s with
  | EmptyString => false
  | String c r => name_start c && name_chars r
  end.

(** The ASCII characters of XML: tab, newline, carriage return, and
    those from the space on. *)
Definition plain_char (c : ascii) : bool :=
  ((code c =? 9) || (code c =? 10) || (code c =? 13) || (32 <=? code c))%N.

(** A byte that continues a character in UTF-8. *)
Definition cont (c : ascii) : bool := in_range 0x80 0xBF c.

(** The characters of three bytes, U+0800 to U+FFFD without the
    surrogates U+D800 to U+DFFF, and those of four bytes, U+10000 to
    U+10FFFF. *)
Definition three (c1 c2 c3 : ascii) : bool :=
  cont c3
  && ((code c1 =? 0xE0)%N && in_range 0xA0 0xBF c2
      || in_range 0xE1 0xEC c1 && cont c2
      || (code c1 =? 0xED)%N && in_range 0x80 0x9F c2
      || (code c1 =? 0xEE)%N && cont c2
      || (code c1 =? 0xEF)%N && cont c2
         && negb ((code c2 =? 0xBF)%N && in_range 0xBE 0xBF c3)).
Definition four (c1 c2 c3 c4 : ascii) : bool :=
  cont c3 && cont c4
  && ((code c1 =? 0xF0)%N && in_range 0x90 0xBF c2
      || in_range 0xF1 0xF3 c1 && cont c2
      || (code c1 =? 0xF4)%N && in_range 0x80 0x8F c2).

(** Text in UTF-8 made of the characters XML allows: U+0009, U+000A,
    U+000D, U+0020 to U+D7FF, U+E000 to U+FFFD and U+10000 to
    U+10FFFF. *)
Fixpoint plain_text (s : string) : bool :=
  match s with
  | EmptyString => true
  | String c1 r1 =>
      if (code c1 <? 0x80)%N then plain_char c1 && plain_text r1
      else match r1 with
           | EmptyString => false
           | String c2 r2 =>
               if in_range 0xC2 0xDF c1 then cont c2 && plain_text r2
               else match r2 with
                    | EmptyString => false
                    | String c3 r3 =>
                        if in_range 0xE0 0xEF c1 then three c1 c2 c3 && plain_text r3
                        else match r3 with
                             | EmptyString => false
                             | String c4 r4 => four c1 c2 c3 c4 && plain_text r4
                             end
                    end
           end
  end.

Definition plain_attr (a : string * string) : bool :=
  plain_name a.1 && plain_text a.2.

(** The tokens whose text is modelled: start and end tags with plain
    names, attributes with plain names and values of plain text, and
    character data of plain text. *)
Definition readable (t : Token) : bool :=
  match t with
  | StartElement name attr => plain_name name && forallb plain_attr attr
  | EndElement name => plain_name name
  | CharData data => plain_text data
  | _ => false
  end.

(** Character data written in several pieces is one token for a
    decoder, and no token when it is empty. *)
Fixpoint coalesced (l : list Token) : list Token :=
  match l with
  | [] => []
  | CharData x :: l' =>
      match coalesced l' with
      | CharData y :: r => CharData (x +:+ y) :: r
      | r => if String.eqb x "" then r else CharData x :: r
      end
  | t :: l' => t :: coalesced l'
  end.

(** The tokens a decoder finds in the text of an output; [None] for an
    output with a token whose text is not modelled. *)
Definition lexed (l : list Token) : option (list Token) :=
  if forallb readable l then Some (coalesced l) else None.

(** ** Round trip *)

(** The document [MarshalXML] writes for a tree without indentation. *)
Fixpoint doc_of (rangeOrder : nat -> gmap string string -> list (string * string))
    (t : tree) : xml :=
  match t with
  | TNode l tag attrs text kids =>
      XElem tag
            (filter (fun a => a.1 ≠ "")
                    (match attrs with None => [] | Some m => rangeOrder l m end))
            ((if String.eqb text "" then [] else [XText text])
             ++ map (doc_of rangeOrder) kids)
  end.

Section Written.
Variable rangeOrder : nat -> gmap string string -> list (string * string).
Variables pre ind : string.

(** What [writeIndent] writes before a tag. *)
Definition space (nl : bool) (d : Z) : list Token :=
  if indenting pre ind
  then (if String.eqb (indentation pre ind nl d) "" then []
        else [CharData (indentation pre ind nl d)])
  else [].

(** What [MarshalXML] writes for a tree at depth [d], from its start
    tag on: with indentation every child is on a line of its own, and
    so is the end tag of a node that has children. *)
Fixpoint element (d : Z) (t : tree) : list Token :=
  match t with
  | TNode l tag attrs text kids =>
      StartElement tag
        (filter (fun a => a.1 ≠ "")
                (match attrs with None => [] | Some m => rangeOrder l m end))
      :: (if String.eqb text "" then [] else [CharData text])
      ++ concat (map (fun k => space true (d + 1) ++ element (d + 1) k) kids)
      ++ (match kids with [] => [] | _ :: _ => space true d end)
      ++ [EndElement tag]
  end.

Definition written (nl : bool) (d : Z) (t : tree) : list Token :=
  space nl d ++ element d t.

(** The document a decoder finds in the indented output: the white
    space before the first child follows the text of the node, and
    white space stands before every other child and before the end
    tag. *)
Fixpoint indented (d : Z) (t : tree) : xml :=
  match t with
  | TNode l tag attrs text kids =>
      XElem tag
        (filter (fun a => a.1 ≠ "")
                (match attrs with None => [] | Some m => rangeOrder l m end))
        (match kids with
         | [] => if String.eqb text "" then [] else [XText text]
         | k :: ks =>
             XText (text +:+ indentation pre ind true (d + 1))
             :: indented (d + 1) k
             :: concat (map (fun k' => [XText (indentation pre ind true (d + 1));
                                        indented (d + 1) k']) ks)
             ++ [XText (indentation pre ind true d)]
         end)
  end.

End Written.

(** [same_content t t']: [t'] is [t] up to addresses, with a nil map
    and an empty map the same set of attributes, and with the text of
    [t'] the text of [t] without the white space around it. *)
Inductive same_content : tree -> tree -> Prop :=
| same_node l1 l2 tag a1 a2 x1 x2 k1 k2 :
    default ∅ a1 = default ∅ a2 ->
    x2 = TrimSpace x1 ->
    Forall2 same_content k1 k2 ->
    same_content (TNode l1 tag a1 x1 k1) (TNode l2 tag a2 x2 k2).

(** [indented_content t t']: the same, but the text of a node that has
    children is empty in [t']. *)
Inductive indented_content : tree -> tree -> Prop :=
| indented_node l1 l2 tag a1 a2 x1 x2 k1 k2 :
    default ∅ a1 = default ∅ a2 ->
    x2 = match k1 with [] => TrimSpace x1 | _ :: _ => "" end ->
    Forall2 indented_content k1 k2 ->
    indented_content (TNode l1 tag a1 x1 k1) (TNode l2 tag a2 x2 k2).

(** No node has both children and text other than white space. *)
Fixpoint text_in_leaves (t : tree) : bool :=
  match t with
  | TNode _ _ _ text kids =>
      match kids with
      | [] => true
      | _ :: _ => String.eqb (TrimSpace text) "" && forallb text_in_leaves kids
      end
  end.

(** Non-empty tags and attribute names throughout. *)
Fixpoint names_ok (t : tree) : bool :=
  match t with
  | TNode _ tag attrs _ kids =>
      negb (String.eqb tag "")
      && bool_decide (default ∅ attrs !! "" = None)
      && forallb names_ok kids
  end.

(** Tags and attribute names that are plain names, attribute values
    and text that are plain text, throughout. *)
Fixpoint plain (t : tree) : bool :=
  match t with
  | TNode _ tag attrs text kids =>
      plain_name tag
      && forallb plain_attr (map_to_list (default ∅ attrs))
      && plain_text text
      && forallb plain kids
  end.

(** Non-empty tags throughout. *)
Fixpoint tags_ok (t : tree) : bool :=
  match t with
  | TNode _ tag _ _ kids => negb (String.eqb tag "") && forallb tags_ok kids
  end.

(** ** Auxiliary notions of the proofs *)

(** The store only grows along [EnsurePath]: tags stay, and lists of
    children are extended at the end. *)
Definition heap_le (h h1 : list Node) : Prop :=
  forall l nd, h !! l = Some nd ->
    exists nd1, h1 !! l = Some nd1 /\ Tag nd1 = Tag nd /\
      exists extra, Children nd1 = Children nd ++ extra.

(** A run of the token loop, or of [UnmarshalXML], that ends. *)
Definition loop_to (h : list Node) (d : Decoder) (l : nat)
    (r : list Node * Decoder * option error) : Prop :=
  exists fuel, unmarshalLoop fuel h d l = Done r.

Definition unmarshal_to (h : list Node) (d : Decoder) (n : option nat)
    (name : string) (attr : list (string * string))
    (r : list Node * Decoder * option error) : Prop :=
  exists fuel, UnmarshalXML fuel h d n name attr = Done r.

(** Reading the content [body] in the loop of node [l]: the loop goes
    on with the rest of the input in a store where [l] has the new
    children and the last text, the subtrees are laid out in fresh
    nodes, and no other old node changed. *)
Definition consumes (body : list xml) : Prop :=
  forall h l nd0 rest s, h !! l = Some nd0 ->
  exists h' kids,
    (forall r, loop_to h' (mkDecoder rest s) l r ->
               loop_to h (mkDecoder (map inl (body_tokens body) ++ rest) s) l r) /\
    length h <= length h' /\
    (forall y, y < length h -> y <> l -> h' !! y = h !! y) /\
    h' !! l = Some (mkNode (Tag nd0) (Parent nd0)
                      (Children nd0 ++ map (fun k => Some (t_loc k)) kids)
                      (lastText (InnerText nd0) body) (Attributes nd0)) /\
    Forall2 parsed (elems body) kids /\
    Forall (repr h') kids /\
    Forall (within (length h) (length h')) kids.

(** What a write leaves as it is. *)
Definition same_state (e e' : Encoder) : Prop :=
  tags e' = tags e /\ prefix e' = prefix e /\ indent e' = indent e /\
  depth e' = depth e /\ indentedIn e' = indentedIn e /\ putNewline e' = putNewline e.

(** The state of indentation of an encoder set up with [pre] and
    [ind]: when it indents, [nl] and [d] are its [putNewline] and
    [depth]. *)
Definition istate (pre ind : string) (e : Encoder) (nl : bool) (d : Z) : Prop :=
  prefix e = pre /\ indent e = ind /\
  (indenting pre ind = true -> putNewline e = nl /\ depth e = d).

(** [MarshalXML] on the root of [t] ends; a nil result means the whole
    markup of [t] was written, and the result is nil when no tag is
    empty. *)
Definition marshals (rangeOrder : nat -> gmap string string -> list (string * string))
    (h : heap) (fuel : nat) (t : tree) : Prop :=
  forall pre ind e name nl d, istate pre ind e nl d ->
  exists e' res,
    MarshalXML rangeOrder fuel h e (Some (t_loc t)) name [] = Done (e', res) /\
    (res = None ->
       out e' = out e ++ written rangeOrder pre ind nl d t /\
       tags e' = tags e /\ istate pre ind e' true d /\
       (indenting pre ind = true -> indentedIn e' = false) /\
       tags_ok t = true) /\
    (tags_ok t = true -> res = None).

(** An order of iteration that visits every entry of the map once. *)
Definition range_ok (rangeOrder : nat -> gmap string string -> list (string * string)) : Prop :=
  forall l m, rangeOrder l m ≡ₚ map_to_list m.

(** ** Examples *)

(** Two orders in which a [range] may visit a map. *)
Definition orderA (_ : nat) (m : gmap string string) : list (string * string) :=
  map_to_list m.
Definition orderB (_ : nat) (m : gmap string string) : list (string * string) :=
  reverse (map_to_list m).

(** [<a x="1"><b>hello</b><b>world</b></a>] in the store. *)
Definition sample_store : list Node :=
  [ mkNode "a" None [Some 1; Some 2] "" (Some {[ "x" := "1" ]});
    mkNode "b" (Some 0) [] "hello" None;
    mkNode "b" (Some 0) [] "world" None ].

Definition sample_tree : tree :=
  TNode 0 "a" (Some {[ "x" := "1" ]}) ""
    [ TNode 1 "b" None "hello" []; TNode 2 "b" None "world" [] ].

(** A [library] element with two attributes, as in the package's test. *)
Definition library_store : list Node :=
  [ mkNode "library" None [] ""
      (Some (<[ "name" := "City Library" ]> {[ "location" := "Downtown" ]})) ].

(** A match that is deeper but earlier in pre-order than a shallower one. *)
Definition deep_store : list Node :=
  [ mkNode "r" None [Some 1; Some 3] "" None;
    mkNode "x" (Some 0) [Some 2] "" None;
    mkNode "b" (Some 1) [] "deep" None;
    mkNode "b" (Some 0) [] "shallow" None ].

(** [<a>hello<b></b></a>] in the store: a node with text and a child. *)
Definition text_and_child : list Node :=
  [ mkNode "a" None [Some 1] "hello" None;
    mkNode "b" (Some 0) [] "" None ].

(** A document with text before, between and after its children. *)
Definition mixed_body : list xml :=
  [ XText "first"; XElem "b" [] [XText " inner "]; XText "  last  "; XElem "c" [] [] ].

(** ** Paths, links and further examples *)

(** [path_to h l path r]: [r] is reached from [l] by one child with the
    tag at each step of [path]. *)
Inductive path_to (h : list Node) : nat -> list string -> nat -> Prop :=
| path_here l : path_to h l [] l
| path_step l nd c cn tag rest r :
    h !! l = Some nd -> Some c ∈ Children nd -> h !! c = Some cn -> Tag cn = tag ->
    path_to h c rest r -> path_to h l (tag :: rest) r.

(** Two stores with the same nodes up to their attributes. *)
Definition same_shape (h h1 : list Node) : Prop :=
  forall y, Tag <$> h1 !! y = Tag <$> h !! y /\
            Parent <$> h1 !! y = Parent <$> h !! y /\
            Children <$> h1 !! y = Children <$> h !! y /\
            InnerText <$> h1 !! y = InnerText <$> h !! y.

(** [c] is a node at an address in [[lo, hi)] whose [Parent] is [p]. *)
Definition child_of (h : list Node) (lo hi p : nat) (c : option nat) : Prop :=
  exists z nz, c = Some z /\ lo <= z < hi /\ h !! z = Some nz /\ Parent nz = Some p.

(** The nodes at the addresses in [[lo, hi)]: every child of one of
    them is one of them and has it as [Parent], and the [Parent] of
    each is one of them or [root]. *)
Definition linked (h : list Node) (lo hi root : nat) : Prop :=
  forall y nd, lo <= y < hi -> h !! y = Some nd ->
    Forall (child_of h lo hi y) (Children nd) /\
    exists p, Parent nd = Some p /\ (p = root \/ lo <= p < hi).

(** A store with attributes, for examples. *)
Definition attr_store : list Node :=
  [ mkNode "a" None [] "" None;
    mkNode "b" None [] "" (Some {[ "k" := "v" ]}) ].

(** Two detached nodes and a parent with one child. *)
Definition family_store : list Node :=
  [ mkNode "p" None [Some 1] "" None;
    mkNode "c" (Some 0) [] "" None;
    mkNode "q" None [] "" None;
    mkNode "d" None [] "" None ].

(** A node with a nil child, and a node that is its own child. *)
Definition nil_child_store : list Node :=
  [ mkNode "a" None [None] "" None ].

Definition lone_store : list Node :=
  [ mkNode "a" None [] "" None ].

(** The loop of [dfsCheckPath] over [n.Children], as a function of its
    own: [dfs] is the call on a child with the rest of the path. *)
Fixpoint scanPath (dfs : option nat -> outcome bool) (h : list Node) (tag : string)
    (cs : list (option nat)) : outcome bool :=
  match cs with
  | [] => Done false
  | c :: cs' =>
      match deref h c with
      | None => Panic
      | Some cn =>
          if String.eqb (Tag cn) tag then
            match dfs c with
            | Done false => scanPath dfs h tag cs'
            | r => r
            end
          else scanPath dfs h tag cs'
      end
  end.

(** Two branches under one root with the same tag, the path [x/y] in
    the second only. *)
Definition branch_store : list Node :=
  [ mkNode "r" None [Some 1; Some 2] "" None;
    mkNode "x" (Some 0) [] "" None;
    mkNode "x" (Some 0) [Some 3] "" None;
    mkNode "y" (Some 2) [] "" None ].

(** A node that is its own child. *)
Definition own_child_store : list Node :=
  [ mkNode "a" None [Some 0] "" None ].

(** [first_path h l path r]: [r] is reached from [l] by the first child
    with the tag at each step of [path]. *)
Inductive first_path (h : list Node) : nat -> list string -> nat -> Prop :=
| first_here l : first_path h l [] l
| first_step l nd before c after cn tag rest r :
    h !! l = Some nd ->
    Children nd = before ++ Some c :: after ->
    Forall (fun b => exists x nb, b = Some x /\ h !! x = Some nb /\ Tag nb <> tag) before ->
    h !! c = Some cn -> Tag cn = tag ->
    first_path h c rest r -> first_path h l (tag :: rest) r.

(** The tags of the elements of a document, in the order of their
    start tags. *)
Fixpoint element_tags (x : xml) : list string :=
  match x with
  | XElem tag _ body => tag :: concat (map element_tags body)
  | _ => []
  end.

(** A node that already has a child, text and an attribute. *)
Definition used_store : list Node :=
  [ mkNode "old" None [Some 1] "kept" (Some {[ "k" := "v" ]});
    mkNode "c" (Some 0) [] "" None ].

(** Tokens the parser passes over. *)
Definition is_misc (t : Token) : bool :=
  match t with
  | Comment _ | ProcInst _ _ | Directive _ => true
  | _ => false
  end.

(** The names of the start tags of a sequence of tokens. *)
Fixpoint start_names (ts : list Token) : list string :=
  match ts with
  | [] => []
  | StartElement name _ :: ts' => name :: start_names ts'
  | _ :: ts' => start_names ts'
  end.

(** ** Induction on trees and documents

    [tree] and [xml] nest in lists: the induction principles give the
    hypothesis for every element of the list. *)

Section TreeInd.
Variable P : tree -> Prop.
Hypothesis step : forall l tag attrs text kids,
  Forall P kids -> P (TNode l tag attrs text kids).

Fixpoint tree_rect' (t : tree) : P t :=
  match t with
  | TNode l tag attrs text kids =>
      step l tag attrs text kids
        ((fix all (ks : list tree) : Forall P ks :=
            match ks with
            | [] => @List.Forall_nil tree P
            | k :: ks' => @List.Forall_cons tree P k ks' (tree_rect' k) (all ks')
            end) kids)
  end.
End TreeInd.

Section XmlInd.
Variable P : xml -> Prop.
Hypothesis text : forall data, P (XText data).
Hypothesis comment : forall data, P (XComment data).
Hypothesis procinst : forall target inst, P (XProcInst target inst).
Hypothesis directive : forall data, P (XDirective data).
Hypothesis elem : forall tag attr body, Forall P body -> P (XElem tag attr body).

Fixpoint xml_rect' (x : xml) : P x :=
  match x with
  | XText data => text data
  | XComment data => comment data
  | XProcInst target inst => procinst target inst
  | XDirective data => directive data
  | XElem tag attr body =>
      elem tag attr body
        ((fix all (b : list xml) : Forall P b :=
            match b with
            | [] => @List.Forall_nil xml P
            | y :: b' => @List.Forall_cons xml P y b' (xml_rect' y) (all b')
            end) body)
  end.
End XmlInd.

(** * Proofs *)

(** ** Examples *)

Lemma orderA_ok : range_ok orderA.
Proof. intros l m. reflexivity. Qed.

Lemma orderB_ok : range_ok orderB.
Proof. intros l m. apply reverse_Permutation. Qed.

Lemma sample_repr : repr sample_store sample_tree.
Proof. repeat (econstructor; try reflexivity). Qed.

Example FindChild_deep_first :
  FindChild 3 deep_store (Some 0) "b" = Done (Some 2).
Proof. reflexivity. Qed.

Example TrimSpace_example :
  TrimSpace (String (ascii_of_nat 10) "  hello world " +:+ String (ascii_of_nat 9) "")
  = "hello world".
Proof. reflexivity. Qed.

Example Unmarshal_mismatch :
  Unmarshal [inl (StartElement "a" []); inl (EndElement "b"); inl (EndElement "a")]
            [zeroNode] 0
  = Done ([mkNode "a" None [] "" (Some ∅)], Some (ErrTrace (ErrClosedBy "a" "b"))).
Proof. reflexivity. Qed.

Example Unmarshal_truncated :
  Unmarshal [inl (StartElement "a" []); inl (CharData "x")] [zeroNode] 0
  = Done ([mkNode "a" None [] "x" (Some ∅)], Some (ErrTrace ErrUnexpectedEOF)).
Proof. reflexivity. Qed.

Lemma mismatch_not_well_formed :
  ~ well_formed_prefix
      [inl (StartElement "a" []); inl (EndElement "b"); inl (EndElement "a")].
Proof.
  intros (pre & tag & attr & body & rest & H & Hp).
  destruct pre as [|p pre]; simpl in H.
  - injection H as <- <- H. destruct body as [|x body]; simpl in H; [done|].
    destruct x; done.
  - injection H as <- _. done.
Qed.

(** ** FindChild *)

Lemma height_kid k kids :
  k ∈ kids -> height k <= foldr (fun k m => Nat.max (height k) m) 0 kids.
Proof.
  induction kids as [|k' kids IH]; intros Hin.
  - inversion Hin.
  - apply elem_of_cons in Hin as [->|Hin]; simpl; [lia|].
    specialize (IH Hin). lia.
Qed.

Lemma firstTagged_app tag a b :
  firstTagged tag (a ++ b) =
  match firstTagged tag a with Some l => Some l | None => firstTagged tag b end.
Proof.
  induction a as [|[l t] a IH]; simpl; [done|].
  destruct (String.eqb t tag); auto.
Qed.

Lemma firstTagged_None tag ns :
  firstTagged tag ns = None <-> Forall (fun p => p.2 <> tag) ns.
Proof.
  induction ns as [|[l t] ns IH]; simpl.
  - split; auto.
  - destruct (String.eqb_spec t tag) as [->|Hne].
    + split; [done|]. intros H. inversion H; subst. simpl in *. congruence.
    + rewrite IH. split; intros H.
      * constructor; auto.
      * by inversion H.
Qed.

(** The loop over the children visits the subtrees in order and stops
    at the first that has a match. *)
Lemma scanChildren_kids fuel h tag kids :
  Forall (fun k => FindChild fuel h (Some (t_loc k)) tag
                   = Done (firstTagged tag (preorder k))) kids ->
  scanChildren (fun c => FindChild fuel h c tag) (map (fun k => Some (t_loc k)) kids)
  = Done (firstTagged tag (concat (map preorder kids))).
Proof.
  induction 1 as [|k kids Hk _ IH]; simpl; [done|].
  rewrite Hk, firstTagged_app.
  destruct (firstTagged tag (preorder k)); auto.
Qed.

Lemma FindChild_repr h t tag :
  repr h t -> forall fuel, height t < fuel ->
  FindChild fuel h (Some (t_loc t)) tag = Done (firstTagged tag (preorder t)).
Proof.
  induction t as [l tg attrs text kids IH] using tree_rect'.
  intros Hr fuel Hf. inversion Hr as [? ? ? ? ? parent Hl Hkids]; subst.
  destruct fuel as [|fuel]; [simpl in Hf; lia|].
  simpl. rewrite Hl. simpl.
  destruct (String.eqb tg tag); [done|].
  apply scanChildren_kids.
  rewrite Forall_forall in IH, Hkids. apply Forall_forall. intros k Hk.
  apply IH; auto.
  pose proof (height_kid k kids Hk). simpl in Hf. lia.
Qed.

(** C5.  [FindChild] is a depth-first search in pre-order that looks at
    the receiver first: on a tree in the store it returns the first node
    of the pre-order listing that carries the tag.  So it returns the
    receiver when the receiver carries the tag, nil when no node of the
    tree does, and the same node however often it is called. *)
Theorem FindChild_first_preorder h t tag fuel :
  repr h t -> height t < fuel ->
  FindChild fuel h (Some (t_loc t)) tag = Done (firstTagged tag (preorder t))
  /\ (t_tag t = tag -> FindChild fuel h (Some (t_loc t)) tag = Done (Some (t_loc t)))
  /\ (Forall (fun p => p.2 <> tag) (preorder t) ->
      FindChild fuel h (Some (t_loc t)) tag = Done None)
  /\ (forall fuel', height t < fuel' ->
      FindChild fuel' h (Some (t_loc t)) tag = FindChild fuel h (Some (t_loc t)) tag).
Proof.
  intros Hr Hf. pose proof (FindChild_repr h t tag Hr) as E.
  split; [auto|]. split; [|split].
  - intros Ht. rewrite E by done. destruct t; simpl in *. subst.
    by rewrite String.eqb_refl.
  - intros Hn. rewrite E by done. f_equal. by apply firstTagged_None.
  - intros fuel' Hf'. by rewrite !E.
Qed.

Lemma FindChild_first_preorder_witness :
  height sample_tree < 3 /\
  FindChild 3 sample_store (Some 0) "b" = Done (Some 1).
Proof.
  assert (H : height sample_tree < 3) by (simpl; lia).
  split; [exact H|].
  exact (proj1 (FindChild_first_preorder sample_store sample_tree "b" 3 sample_repr H)).
Defined.

(** C9.  On a nil receiver [FindChild] returns nil; it does not panic. *)
Theorem FindChild_nil fuel h tag :
  FindChild (S fuel) h None tag = Done None.
Proof. reflexivity. Qed.

(** ** The store *)

Lemma store_Some h l f h1 :
  store h l f = Some h1 <-> exists nd, h !! l = Some nd /\ h1 = <[l := f nd]> h.
Proof.
  unfold store. destruct (h !! l) as [nd|] eqn:E.
  - split; [intros [= <-]; eauto | intros (? & [= <-] & ->); done].
  - split; [done | intros (? & ? & _); done].
Qed.

Lemma lookup_insert_heap (h : list Node) l x nd :
  h !! l = Some nd ->
  forall y, <[l := x]> h !! y = if decide (l = y) then Some x else h !! y.
Proof.
  intros Hl y. destruct (decide (l = y)) as [<-|Hne].
  - apply list_lookup_insert_eq. by eapply lookup_lt_Some.
  - by apply list_lookup_insert_ne.
Qed.

Lemma heap_ok_lookup h l nd :
  heap_ok h -> h !! l = Some nd ->
  Forall (fun c => exists x, c = Some x /\ x < length h) (Children nd) /\
  (forall p, Parent nd = Some p -> p < length h).
Proof.
  unfold heap_ok. rewrite forallb_forall. intros Hok Hl.
  assert (Hn : node_ok h nd = true).
  { apply Hok. apply list_elem_of_In. by eapply list_elem_of_lookup_2. }
  apply andb_prop in Hn as [Hc Hp]. split.
  - rewrite forallb_forall in Hc. apply Forall_forall. intros c Hin.
    specialize (Hc c (proj1 (list_elem_of_In _ _) Hin)).
    destruct c as [x|]; [|done]. exists x. split; [done|]. by apply Nat.ltb_lt.
  - intros p Hpp. rewrite Hpp in Hp. by apply Nat.ltb_lt.
Qed.

(** ** RemoveChildrenWithTag *)

Lemma keepOtherTags_Some h tag cs kept :
  keepOtherTags h tag cs = Some kept ->
  kept = filter (fun c => tagAt h c <> tag) cs /\
  Forall (fun c => is_Some (deref h c)) cs.
Proof.
  revert kept. induction cs as [|c cs IH]; simpl; intros kept H.
  - by injection H as <-.
  - destruct (deref h c) as [cn|] eqn:Ec; simpl in H; [|done].
    destruct (keepOtherTags h tag cs) as [rest|]; simpl in H; [|done].
    destruct (IH rest eq_refl) as [-> Hall].
    split; [|constructor; eauto].
    injection H as <-. rewrite filter_cons.
    assert (Et : tagAt h c = Tag cn) by (unfold tagAt; by rewrite Ec).
    destruct (String.eqb_spec (Tag cn) tag) as [Heq|Hne];
      destruct (decide (tagAt h c <> tag)) as [Hd|Hd]; rewrite Et in Hd; try done.
Qed.

Lemma keepOtherTags_total h tag cs :
  Forall (fun c => is_Some (deref h c)) cs ->
  keepOtherTags h tag cs = Some (filter (fun c => tagAt h c <> tag) cs).
Proof.
  induction 1 as [|c cs [cn Hc] _ IH]; simpl; [done|].
  rewrite Hc, IH. simpl. rewrite filter_cons.
  assert (Et : tagAt h c = Tag cn) by (unfold tagAt; by rewrite Hc).
  destruct (String.eqb_spec (Tag cn) tag) as [Heq|Hne];
    destruct (decide (tagAt h c <> tag)) as [Hd|Hd]; rewrite Et in Hd; try done.
Qed.

Lemma RemoveChildrenWithTag_Some h l tag h1 :
  RemoveChildrenWithTag h (Some l) tag = Some h1 ->
  exists nd, h !! l = Some nd /\
    Forall (fun c => is_Some (deref h c)) (Children nd) /\
    h1 = <[l := set_Children (filter (fun c => tagAt h c <> tag) (Children nd)) nd]> h.
Proof.
  unfold RemoveChildrenWithTag. simpl.
  destruct (h !! l) as [nd|] eqn:El; simpl; [|done].
  destruct (keepOtherTags h tag (Children nd)) as [kept|] eqn:Ek; simpl; [|done].
  apply keepOtherTags_Some in Ek as [-> Hall].
  intros (nd' & Hl' & ->)%store_Some. exists nd. by simplify_eq.
Qed.

Lemma RemoveChildrenWithTag_total h l tag nd :
  h !! l = Some nd ->
  Forall (fun c => is_Some (deref h c)) (Children nd) ->
  RemoveChildrenWithTag h (Some l) tag =
  Some (<[l := set_Children (filter (fun c => tagAt h c <> tag) (Children nd)) nd]> h).
Proof.
  intros Hl Hall. unfold RemoveChildrenWithTag. simpl. rewrite Hl. simpl.
  rewrite (keepOtherTags_total _ _ _ Hall). simpl. unfold store. by rewrite Hl.
Qed.

(** ** CreatePath *)

Lemma AppendChild_fresh h l nd tag :
  h !! l = Some nd ->
  AppendChild (h ++ [mkNode tag None [] "" None]) (Some l) (Some (length h)) =
  Some (<[l := set_Children (Children nd ++ [Some (length h)]) nd]> h
          ++ [mkNode tag (Some l) [] "" None],
        Some (length h)).
Proof.
  intros Hl. pose proof (lookup_lt_Some _ _ _ Hl) as Hlt.
  unfold AppendChild. simpl. unfold store.
  rewrite lookup_app_r, Nat.sub_diag by lia. simpl.
  rewrite insert_app_r_alt, Nat.sub_diag by lia. simpl.
  rewrite lookup_app_l, Hl by done. simpl.
  rewrite insert_app_l by done. done.
Qed.

Lemma CreatePath_cons h n tag rest :
  CreatePath h n (tag :: rest) =
  '(h1, cur) ← AppendChild (h ++ [mkNode tag None [] "" None]) n (Some (length h));
  CreatePath h1 cur rest.
Proof. reflexivity. Qed.

Lemma CreatePath_chain path : forall h l nd tag,
  h !! l = Some nd ->
  CreatePath h (Some l) (tag :: path) =
  Some (<[l := set_Children (Children nd ++ [Some (length h)]) nd]> h
          ++ chain l (length h) (tag :: path),
        Some (length h + length path)).
Proof.
  induction path as [|t2 path IH]; intros h l nd tag Hl;
    rewrite CreatePath_cons, (AppendChild_fresh _ _ _ _ Hl); cbn [mbind option_bind].
  - simpl. by rewrite Nat.add_0_r.
  - set (h' := <[l := _]> h).
    assert (Hlen : length h' = length h) by apply length_insert.
    erewrite IH; last first.
    { rewrite lookup_app_r, Hlen, Nat.sub_diag by lia. done. }
    f_equal. f_equal.
    + rewrite length_app, Hlen. simpl. rewrite Nat.add_1_r.
      rewrite insert_app_r_alt, Hlen, Nat.sub_diag by lia. simpl.
      rewrite <- app_assoc. done.
    + rewrite length_app, Hlen. simpl. f_equal. lia.
Qed.

Lemma chain_length path : forall p b, length (chain p b path) = length path.
Proof. induction path; intros; simpl; auto. Qed.

Lemma chain_lookup path : forall p b i nd,
  chain p b path !! i = Some nd ->
  (forall c, c ∈ Children nd -> exists x, c = Some x /\ b < x) /\
  (forall q, Parent nd = Some q -> q = p \/ b <= q).
Proof.
  induction path as [|t path IH]; intros p b i nd H; [done|].
  destruct i as [|i]; simpl in H.
  - injection H as <-. simpl. split; [|intros q [= <-]; auto].
    intros c Hc. destruct path; [inversion Hc|].
    apply list_elem_of_singleton in Hc as ->. eauto.
  - destruct (IH _ _ _ _ H) as [Hc Hp]. split.
    + intros c Hin. destruct (Hc c Hin) as (x & -> & ?). exists x. split; [done|lia].
    + intros q Hq. destruct (Hp q Hq) as [->|?]; right; lia.
Qed.

(** What [CreatePath] leaves in the store: the receiver has one more
    child, the nodes of the chain follow the old store, and nothing else
    changed. *)
Lemma CreatePath_lookup h l nd tag path y :
  h !! l = Some nd ->
  (<[l := set_Children (Children nd ++ [Some (length h)]) nd]> h
     ++ chain l (length h) (tag :: path)) !! y =
  if decide (y = l) then Some (set_Children (Children nd ++ [Some (length h)]) nd)
  else if decide (y < length h) then h !! y
  else chain l (length h) (tag :: path) !! (y - length h).
Proof.
  intros Hl. pose proof (lookup_lt_Some _ _ _ Hl) as Hlt.
  destruct (decide (y = l)) as [->|Hne].
  - rewrite lookup_app_l by (rewrite length_insert; lia).
    by apply list_lookup_insert_eq.
  - destruct (decide (y < length h)).
    + rewrite lookup_app_l by (rewrite length_insert; lia).
      by apply list_lookup_insert_ne.
    + rewrite lookup_app_r by (rewrite length_insert; lia).
      by rewrite length_insert.
Qed.

(** Parent pointers are not written by a removal. *)
Lemma RemoveChildrenWithTag_Parent h l tag h1 x :
  RemoveChildrenWithTag h (Some l) tag = Some h1 ->
  Parent <$> h1 !! x = Parent <$> h !! x.
Proof.
  intros (nd & Hl & _ & ->)%RemoveChildrenWithTag_Some.
  rewrite (lookup_insert_heap _ _ _ _ Hl). case_decide; subst; [by rewrite Hl|done].
Qed.

(** C10.  Removing children leaves the children themselves alone.  A
    child [c] of the receiver (other than the receiver itself), removed
    or kept, is the same node after [RemoveChildrenWithTag] and after
    [CreateUniquePath], so a removed node still has the [Parent] it had,
    the receiver; no [Parent] field of the store is written.  The
    receiver keeps exactly the children with another tag. *)
Theorem detached_node_untouched h l nd tag c nc :
  h !! l = Some nd -> Some c ∈ Children nd -> h !! c = Some nc -> c <> l ->
  (forall h1, RemoveChildrenWithTag h (Some l) tag = Some h1 ->
     h1 !! c = Some nc /\
     (forall x, Parent <$> h1 !! x = Parent <$> h !! x) /\
     exists nd1, h1 !! l = Some nd1 /\
       Children nd1 = filter (fun x => tagAt h x <> tag) (Children nd) /\
       (Tag nc = tag -> Some c ∉ Children nd1) /\
       (Tag nc <> tag -> Some c ∈ Children nd1)) /\
  (forall path h2 r, CreateUniquePath h (Some l) (tag :: path) = Some (h2, r) ->
     h2 !! c = Some nc).
Proof.
  intros Hl Hin Hc Hne.
  assert (Ht : tagAt h (Some c) = Tag nc) by (unfold tagAt; simpl; by rewrite Hc).
  split.
  - intros h1 E. split; [|split; [intros x; by eapply RemoveChildrenWithTag_Parent|]];
      apply RemoveChildrenWithTag_Some in E as (nd' & Hl' & Hall & ->); simplify_eq;
      [by rewrite list_lookup_insert_ne|].
    eexists. split; [apply list_lookup_insert_eq; by eapply lookup_lt_Some|].
    simpl. split; [done|]. rewrite list_elem_of_filter, Ht. split; [tauto|done].
  - intros path h2 r. unfold CreateUniquePath. 
    destruct (RemoveChildrenWithTag h (Some l) tag) as [h1|] eqn:E;
      cbn [mbind option_bind]; [|done].
    apply RemoveChildrenWithTag_Some in E as (nd' & Hl' & Hall & ->). simplify_eq.
    erewrite CreatePath_chain;
      [|apply list_lookup_insert_eq; by eapply lookup_lt_Some].
    intros [= <- <-]. rewrite list_insert_insert_eq.
    pose proof (lookup_lt_Some _ _ _ Hc) as Hlt.
    rewrite lookup_app_l by (rewrite length_insert; lia).
    by rewrite list_lookup_insert_ne.
Qed.

Lemma detached_node_untouched_witness :
  exists h1,
    RemoveChildrenWithTag sample_store (Some 0) "b" = Some h1 /\
    h1 !! 1 = Some (mkNode "b" (Some 0) [] "hello" None) /\
    Children <$> h1 !! 0 = Some [].
Proof.
  destruct (detached_node_untouched sample_store 0
              (mkNode "a" None [Some 1; Some 2] "" (Some {[ "x" := "1" ]})) "b" 1
              (mkNode "b" (Some 0) [] "hello" None)
              eq_refl (list_elem_of_here _ _) eq_refl) as [H _]; [lia|].
  eexists. split; [reflexivity|].
  destruct (H _ eq_refl) as (Hc & _ & _). split; [exact Hc|reflexivity].
Defined.

(** ** EnsurePath *)

Lemma heap_le_refl h : heap_le h h.
Proof. intros l nd H. exists nd. repeat split; auto. exists []. by rewrite app_nil_r. Qed.

Lemma heap_le_CreatePath h l nd tag path :
  h !! l = Some nd ->
  heap_le h (<[l := set_Children (Children nd ++ [Some (length h)]) nd]> h
               ++ chain l (length h) (tag :: path)).
Proof.
  intros Hl y ny Hy. rewrite (CreatePath_lookup _ _ _ _ _ _ Hl).
  pose proof (lookup_lt_Some _ _ _ Hy).
  destruct (decide (y = l)) as [->|Hne].
  - simplify_eq. eexists. split; [done|]. simpl. eauto.
  - rewrite decide_True by done. exists ny. repeat split; auto.
    exists []. by rewrite app_nil_r.
Qed.

Lemma firstWithTag_le h h1 tag cs extra r :
  heap_le h h1 ->
  firstWithTag h tag cs = Some r ->
  firstWithTag h1 tag (cs ++ extra) =
  match r with Some c => Some (Some c) | None => firstWithTag h1 tag extra end.
Proof.
  intros Hle. induction cs as [|c cs IH]; simpl.
  - by intros [= <-].
  - destruct c as [c|]; simpl; [|done].
    destruct (h !! c) as [cn|] eqn:Ec; simpl; [|done].
    destruct (Hle _ _ Ec) as (cn1 & E1 & Et & _). rewrite E1. simpl. rewrite Et.
    destruct (String.eqb (Tag cn) tag); [by intros [= <-]|auto].
Qed.

Lemma EnsurePath_le path : forall h n h1 r,
  EnsurePath h n path = Some (h1, r) -> heap_le h h1.
Proof.
  induction path as [|tag path IH]; intros h n h1 r.
  - intros [= <- _]. apply heap_le_refl.
  - cbn [EnsurePath].
    destruct n as [l|]; cbn [deref mbind option_bind]; [|done].
    destruct (h !! l) as [cur|] eqn:El; cbn [mbind option_bind]; [|done].
    destruct (firstWithTag h tag (Children cur)) as [[child|]|] eqn:Ef;
      cbn [mbind option_bind]; [| |done].
    + apply IH.
    + rewrite (CreatePath_chain _ _ _ _ _ El). intros [= <- _].
      by apply heap_le_CreatePath.
Qed.

(** Walking the same path again finds the chain a [CreatePath] left. *)
Lemma EnsurePath_chain path : forall (H : list Node) p tag,
  EnsurePath (H ++ chain p (length H) (tag :: path)) (Some (length H)) path =
  Some (H ++ chain p (length H) (tag :: path), Some (length H + length path)).
Proof.
  induction path as [|t2 path IH]; intros H p tag.
  - simpl. by rewrite Nat.add_0_r.
  - specialize (IH (H ++ [mkNode tag (Some p) [Some (S (length H))] "" None]) (length H) t2).
    rewrite length_app in IH. simpl length in IH. rewrite Nat.add_1_r in IH.
    rewrite <- app_assoc in IH.
    change (H ++ chain p (length H) (tag :: t2 :: path)) with
      (H ++ [mkNode tag (Some p) [Some (S (length H))] "" None]
         ++ chain (length H) (S (length H)) (t2 :: path)).
    set (h1 := H ++ _) in *.
    assert (E0 : h1 !! length H = Some (mkNode tag (Some p) [Some (S (length H))] "" None)).
    { unfold h1. by rewrite lookup_app_r, Nat.sub_diag by lia. }
    assert (E1 : exists cs, h1 !! S (length H) = Some (mkNode t2 (Some (length H)) cs "" None)).
    { unfold h1. rewrite lookup_app_r by lia.
      replace (S (length H) - length H) with 1 by lia. simpl. eauto. }
    destruct E1 as [cs E1].
    cbn [EnsurePath deref]. rewrite E0.
    cbn [mbind option_bind Children firstWithTag deref]. rewrite E1.
    cbn [mbind option_bind Tag]. rewrite String.eqb_refl.
    cbn [mbind option_bind]. rewrite IH.
    replace (S (length H) + length path) with (length H + length (t2 :: path))
      by (simpl; lia).
    done.
Qed.

Lemma EnsurePath_again path : forall h n h1 r,
  EnsurePath h n path = Some (h1, r) -> EnsurePath h1 n path = Some (h1, r).
Proof.
  induction path as [|tag path IH]; intros h n h1 r; [by intros [= <- <-]|].
  cbn [EnsurePath].
  destruct n as [l|]; cbn [deref mbind option_bind]; [|done].
  destruct (h !! l) as [cur|] eqn:El; cbn [mbind option_bind]; [|done].
  destruct (firstWithTag h tag (Children cur)) as [[child|]|] eqn:Ef;
    cbn [mbind option_bind]; [| |done].
  - intros E. pose proof (EnsurePath_le _ _ _ _ _ E) as Hle.
    destruct (Hle _ _ El) as (cur1 & E1 & _ & extra & Ex).
    rewrite E1. cbn [mbind option_bind]. rewrite Ex.
    rewrite (firstWithTag_le _ _ _ _ _ _ Hle Ef). cbn [mbind option_bind]. eauto.
  - rewrite (CreatePath_chain _ _ _ _ _ El).
    set (h2 := _ ++ chain l (length h) (tag :: path)). intros [= <- <-].
    assert (Hl1 : h2 !! l = Some (set_Children (Children cur ++ [Some (length h)]) cur)).
    { unfold h2. rewrite (CreatePath_lookup _ _ _ _ _ _ El). by rewrite decide_True. }
    rewrite Hl1. cbn [mbind option_bind Children set_Children].
    rewrite (firstWithTag_le h h2 _ _ _ None); [|by apply heap_le_CreatePath|done].
    assert (Hc : h2 !! length h = Some (mkNode tag (Some l)
                 (match path with [] => [] | _ :: _ => [Some (S (length h))] end) "" None)).
    { unfold h2. rewrite lookup_app_r by (rewrite length_insert; lia).
      by rewrite length_insert, Nat.sub_diag. }
    cbn [firstWithTag deref]. rewrite Hc. cbn [mbind option_bind Tag].
    rewrite String.eqb_refl.
    pose proof (EnsurePath_chain path
      (<[l := set_Children (Children cur ++ [Some (length h)]) cur]> h) l tag) as E.
    rewrite length_insert in E. exact E.
Qed.

Lemma firstWithTag_total h tag cs :
  Forall (fun c => exists x, c = Some x /\ x < length h) cs ->
  exists r, firstWithTag h tag cs = Some r /\
    forall c, r = Some c -> c < length h.
Proof.
  induction 1 as [|c cs (x & -> & Hx) _ (r & IH & Hr)]; simpl.
  - exists None. split; [done|]. intros ? [=].
  - destruct (lookup_lt_is_Some_2 h x Hx) as [cn ->]. simpl.
    destruct (String.eqb (Tag cn) tag); eauto.
    exists (Some x). split; [done|]. by intros ? [= <-].
Qed.

Lemma EnsurePath_total path : forall h l,
  heap_ok h -> l < length h -> is_Some (EnsurePath h (Some l) path).
Proof.
  induction path as [|tag path IH]; intros h l Hok Hl; [by eexists|].
  cbn [EnsurePath deref].
  destruct (lookup_lt_is_Some_2 h l Hl) as [cur El]. rewrite El. cbn [mbind option_bind].
  destruct (heap_ok_lookup _ _ _ Hok El) as [Hkids _].
  destruct (firstWithTag_total h tag _ Hkids) as (r & -> & Hr). cbn [mbind option_bind].
  destruct r as [c|]; [apply IH; auto|].
  rewrite (CreatePath_chain _ _ _ _ _ El). by eexists.
Qed.

(** C7.  [EnsurePath] is idempotent: on a well-formed store it returns,
    and a second call with the same path on the store the first call
    left returns the same node and leaves that store as it is, so no
    node is created.  With the empty path it returns the receiver and
    the store unchanged. *)
Theorem EnsurePath_idempotent h l path :
  heap_ok h -> l < length h ->
  exists h1 r,
    EnsurePath h (Some l) path = Some (h1, r) /\
    EnsurePath h1 (Some l) path = Some (h1, r) /\
    (path = [] -> h1 = h /\ r = Some l).
Proof.
  intros Hok Hl. destruct (EnsurePath_total path h l Hok Hl) as [[h1 r] E].
  exists h1, r. split; [done|]. split; [by apply (EnsurePath_again path h)|].
  intros ->. simpl in E. by injection E as <- <-.
Qed.

Lemma EnsurePath_idempotent_witness :
  heap_ok sample_store /\ 0 < length sample_store /\
  exists h1 r,
    EnsurePath sample_store (Some 0) ["b"; "c"] = Some (h1, r) /\
    EnsurePath h1 (Some 0) ["b"; "c"] = Some (h1, r).
Proof.
  assert (H : 0 < length sample_store) by (simpl; lia).
  split; [reflexivity|]. split; [exact H|].
  destruct (EnsurePath_idempotent sample_store 0 ["b"; "c"] eq_refl H)
    as (h1 & r & E1 & E2 & _).
  exists h1, r. split; [exact E1|exact E2].
Defined.

(** ** CreateUniquePath *)

Lemma lookup_insert_app (h B : list Node) l x y :
  l < length h ->
  (<[l := x]> h ++ B) !! y =
  if decide (y = l) then Some x
  else if decide (y < length h) then h !! y
  else B !! (y - length h).
Proof.
  intros Hlt. destruct (decide (y = l)) as [->|Hne].
  - rewrite lookup_app_l by (rewrite length_insert; lia).
    by apply list_lookup_insert_eq.
  - destruct (decide (y < length h)).
    + rewrite lookup_app_l by (rewrite length_insert; lia).
      by apply list_lookup_insert_ne.
    + rewrite lookup_app_r by (rewrite length_insert; lia).
      by rewrite length_insert.
Qed.

Lemma heap_ok_children h l nd :
  heap_ok h -> h !! l = Some nd ->
  Forall (fun c => is_Some (deref h c)) (Children nd).
Proof.
  intros Hok Hl. destruct (heap_ok_lookup _ _ _ Hok Hl) as [Hc _].
  eapply Forall_impl; [exact Hc|]. intros c (x & -> & Hx). simpl.
  by apply lookup_lt_is_Some_2.
Qed.

(** The store after [CreateUniquePath], exactly. *)
Lemma CreateUniquePath_store h l nd tag rest :
  h !! l = Some nd ->
  Forall (fun c => is_Some (deref h c)) (Children nd) ->
  CreateUniquePath h (Some l) (tag :: rest) =
  Some (<[l := set_Children (filter (fun c => tagAt h c <> tag) (Children nd)
                              ++ [Some (length h)]) nd]> h
          ++ chain l (length h) (tag :: rest),
        Some (length h + length rest)).
Proof.
  intros Hl Hall. unfold CreateUniquePath.
  rewrite (RemoveChildrenWithTag_total _ _ _ _ Hl Hall). cbn [mbind option_bind].
  erewrite CreatePath_chain; [|apply list_lookup_insert_eq; by eapply lookup_lt_Some].
  by rewrite list_insert_insert_eq, length_insert.
Qed.

Lemma tagAt_after h l nd cs B c :
  h !! l = Some nd -> is_Some (deref h c) ->
  tagAt (<[l := set_Children cs nd]> h ++ B) c = tagAt h c.
Proof.
  intros Hl [cn Hc]. destruct c as [c|]; [|done]. simpl in Hc.
  unfold tagAt. simpl.
  rewrite lookup_insert_app by (by eapply lookup_lt_Some).
  destruct (decide (c = l)) as [->|Hne]; [by rewrite Hl|].
  rewrite decide_True by (by eapply lookup_lt_Some). done.
Qed.

Lemma reachable_closed h (S : nat -> Prop) :
  (forall y ny, h !! y = Some ny -> S y ->
     (forall c, Some c ∈ Children ny -> S c) /\
     (forall p, Parent ny = Some p -> S p)) ->
  forall a x, reachable h a x -> S a -> S x.
Proof.
  intros Hcl a x. induction 1 as [|a na c x Ha Hc _ IH|a na p x Ha Hp _ IH]; intros Sa; auto.
  - apply IH. destruct (Hcl _ _ Ha Sa) as [Hch _]. by apply Hch.
  - apply IH. destruct (Hcl _ _ Ha Sa) as [_ Hpp]. by apply Hpp.
Qed.

Lemma filter_empty {A} (P : A -> Prop) `{!forall x, Decision (P x)} (l : list A) :
  Forall (fun x => ~ P x) l -> filter P l = [].
Proof.
  induction 1 as [|x l Hx _ IH]; [done|]. by rewrite filter_cons, decide_False, IH.
Qed.

Lemma filter_all {A} (P : A -> Prop) `{!forall x, Decision (P x)} (l : list A) :
  Forall P l -> filter P l = l.
Proof.
  induction 1 as [|x l Hx _ IH]; [done|]. by rewrite filter_cons, decide_True, IH.
Qed.

(** C8.  [CreateUniquePath] with a non-empty path: the receiver keeps
    its children with another tag, in their order, followed by one new
    child, the only one with the first tag; the new chain is what was
    added to the store and no other old node changed.  After a second
    call with the same first tag, no node the first call created can be
    reached from the receiver. *)
Theorem CreateUniquePath_replaces h l tag rest :
  heap_ok h -> l < length h ->
  exists nd h1 nd1,
    h !! l = Some nd /\
    CreateUniquePath h (Some l) (tag :: rest) = Some (h1, Some (length h + length rest)) /\
    h1 !! l = Some nd1 /\
    Children nd1 = filter (fun c => tagAt h c <> tag) (Children nd) ++ [Some (length h)] /\
    filter (fun c => tagAt h1 c = tag) (Children nd1) = [Some (length h)] /\
    drop (length h) h1 = chain l (length h) (tag :: rest) /\
    (forall y, y < length h -> y <> l -> h1 !! y = h !! y) /\
    (forall rest' h2 r2,
       CreateUniquePath h1 (Some l) (tag :: rest') = Some (h2, r2) ->
       forall x, length h <= x < length h1 -> ~ reachable h2 l x).
Proof.
  intros Hok Hlt. destruct (lookup_lt_is_Some_2 h l Hlt) as [nd Hl].
  pose proof (heap_ok_children _ _ _ Hok Hl) as Hall.
  set (kept := filter (fun c => tagAt h c <> tag) (Children nd)).
  set (nd1 := set_Children (kept ++ [Some (length h)]) nd).
  set (h1 := <[l := nd1]> h ++ chain l (length h) (tag :: rest)).
  assert (Hl1 : h1 !! l = Some nd1).
  { unfold h1. rewrite lookup_insert_app by done. by rewrite decide_True. }
  assert (Hnew : h1 !! length h =
                 Some (mkNode tag (Some l)
                   (match rest with [] => [] | _ :: _ => [Some (S (length h))] end) "" None)).
  { unfold h1. rewrite lookup_insert_app by done.
    rewrite decide_False, decide_False, Nat.sub_diag by lia. done. }
  assert (Hlen1 : length h1 = length h + S (length rest)).
  { unfold h1. rewrite length_app, length_insert, chain_length. done. }
  assert (Hkept : Forall (fun c => is_Some (deref h c) /\ tagAt h c <> tag) kept).
  { unfold kept. rewrite Forall_forall in Hall. apply Forall_forall.
    intros c [Hc1 Hc2]%list_elem_of_filter. auto. }
  assert (Htag1 : forall c, is_Some (deref h c) -> tagAt h1 c = tagAt h c).
  { intros c Hc. by apply tagAt_after. }
  assert (Hone : tagAt h1 (Some (length h)) = tag).
  { unfold tagAt. simpl. by rewrite Hnew. }
  assert (Hkept1 : Forall (fun c => tagAt h1 c <> tag) kept).
  { eapply Forall_impl; [exact Hkept|]. intros c [Hc Hne]. by rewrite Htag1. }
  exists nd, h1, nd1. split; [done|]. split; [by apply CreateUniquePath_store|].
  split; [done|]. split; [done|]. split; [|split; [|split]].
  - simpl. rewrite filter_app, filter_cons, filter_nil, decide_True by done.
    rewrite filter_empty; [done|].
    eapply Forall_impl; [exact Hkept1|]. simpl. tauto.
  - unfold h1. rewrite <- (length_insert h l nd1) at 1. apply drop_app_length.
  - intros y Hy Hne. unfold h1. rewrite lookup_insert_app by done.
    by rewrite decide_False, decide_True.
  - intros rest' h2 r2 E x Hx Hreach.
    assert (Hall1 : Forall (fun c => is_Some (deref h1 c)) (Children nd1)).
    { simpl. apply Forall_app. split.
      - eapply Forall_impl; [exact Hkept|]. intros c [[cn Hc] _].
        destruct c as [c|]; [|done]. simpl in *.
        unfold h1. rewrite lookup_insert_app by done.
        destruct (decide (c = l)); [by eexists|].
        rewrite decide_True by (by eapply lookup_lt_Some). by eexists.
      - repeat constructor. simpl. by rewrite Hnew. }
    assert (Hk2 : filter (fun c => tagAt h1 c <> tag) (Children nd1) = kept).
    { simpl. rewrite filter_app, filter_cons, filter_nil, decide_False by tauto.
      rewrite app_nil_r. by apply filter_all. }
    rewrite (CreateUniquePath_store _ _ _ _ _ Hl1 Hall1), Hk2 in E.
    set (h2' := _ ++ chain l (length h1) _) in E.
    assert (h2 = h2') as -> by congruence. clear E. unfold h2' in Hreach. clear h2'.
    assert (Hl1lt : l < length h1) by lia.
    cut (x < length h \/ length h1 <= x); [lia|].
    refine (reachable_closed _ (fun y => y < length h \/ length h1 <= y) _ _ _ Hreach _);
      [|by left].
    intros y ny Hy Sy. rewrite lookup_insert_app in Hy by done.
    destruct (decide (y = l)) as [->|Hne].
    + injection Hy as <-. simpl. split.
      * intros c [Hc| [= ->]%list_elem_of_singleton]%elem_of_app; [|right; lia].
        destruct (heap_ok_lookup _ _ _ Hok Hl) as [Hch _]. rewrite Forall_forall in Hch.
        unfold kept in Hc. apply list_elem_of_filter in Hc as [_ Hc].
        destruct (Hch _ Hc) as (c' & [= <-] & ?). by left.
      * intros p Hp. left. by apply (heap_ok_lookup _ _ _ Hok Hl).
    + destruct (decide (y < length h1)) as [Hy1|Hy1].
      * assert (y < length h) by lia.
        unfold h1 in Hy. rewrite lookup_insert_app in Hy by done.
        rewrite decide_False, decide_True in Hy by done.
        destruct (heap_ok_lookup _ _ _ Hok Hy) as [Hch Hp]. rewrite Forall_forall in Hch. split.
        -- intros c Hc. destruct (Hch _ Hc) as (c' & [= <-] & ?). by left.
        -- intros p Hpp. left. eauto.
      * apply chain_lookup in Hy as [Hch Hp]. split.
        -- intros c Hc. destruct (Hch _ Hc) as (c' & [= <-] & ?). right. lia.
        -- intros p Hpp. destruct (Hp _ Hpp) as [->|?]; [by left|right; lia].
Qed.

Lemma CreateUniquePath_replaces_witness :
  heap_ok sample_store /\ 0 < length sample_store /\
  exists h1 nd1,
    CreateUniquePath sample_store (Some 0) ["b"; "c"] = Some (h1, Some 4) /\
    h1 !! 0 = Some nd1 /\ Children nd1 = [Some 3].
Proof.
  assert (H : 0 < length sample_store) by (simpl; lia).
  split; [reflexivity|]. split; [exact H|].
  destruct (CreateUniquePath_replaces sample_store 0 "b" ["c"] eq_refl H)
    as (nd & h1 & nd1 & Hl & E & Hl1 & Hc & _).
  exists h1, nd1. split; [exact E|]. split; [exact Hl1|].
  injection Hl as <-. exact Hc.
Defined.

(** ** The decoder *)

Lemma Decoder_Token_length d x d' :
  Decoder_Token d = (x, d') ->
  (input d = [] /\ d' = d /\ exists e, x = inr e) \/
  S (length (input d')) = length (input d).
Proof.
  unfold Decoder_Token. destruct d as [inp s]; simpl.
  destruct inp as [|[t|e] rest]; [intros [= <- <-]; left; eauto| |intros [= <- <-]; by right].
  destruct t; try (intros [= <- <-]; by right).
  destruct s as [|top s]; [intros [= <- <-]; by right|].
  destruct (String.eqb top name); intros [= <- <-]; by right.
Qed.

(** ** Fuel *)

Lemma unmarshal_mono fuel :
  (forall h d n name attr fuel',
     UnmarshalXML fuel h d n name attr <> OutOfFuel -> fuel <= fuel' ->
     UnmarshalXML fuel' h d n name attr = UnmarshalXML fuel h d n name attr) /\
  (forall h d l fuel',
     unmarshalLoop fuel h d l <> OutOfFuel -> fuel <= fuel' ->
     unmarshalLoop fuel' h d l = unmarshalLoop fuel h d l).
Proof.
  induction fuel as [|fuel [IHu IHl]].
  - split; intros; simpl in *; congruence.
  - split.
    + intros h d n name attr [|fuel'] Hr Hle; [lia|].
      revert Hr. simpl. destruct n as [l|]; [|done].
      destruct (store h l _); [|done]. intros Hr. apply IHl; [done|lia].
    + intros h d l [|fuel'] Hr Hle; [lia|].
      assert (Hf : fuel <= fuel') by lia.
      revert Hr. simpl. destruct (Decoder_Token d) as [[t|err] d1]; [|done].
      destruct t; try (intros Hr; apply IHl; done).
      * destruct (UnmarshalXML fuel _ d1 _ name attr) as [[[h2 d2] [e|]]| |] eqn:Eu;
          intros Hr; try congruence;
          (rewrite IHu, Eu; [|by rewrite Eu|done]); [done| |done].
        destruct (store h2 l _); [|done]. apply IHl; done.
      * destruct (h !! l); [|done]. destruct (String.eqb name (Tag n)); [done|].
        intros Hr. apply IHl; done.
      * destruct (store h l _); [|done]. intros Hr. apply IHl; done.
Qed.

Lemma Decode_mono fuel : forall h d v fuel',
  Decode fuel h d v <> OutOfFuel -> fuel <= fuel' ->
  Decode fuel' h d v = Decode fuel h d v.
Proof.
  induction fuel as [|fuel IH]; intros h d v [|fuel'] Hr Hle;
    try (simpl in *; congruence); try lia.
  assert (Hf : fuel <= fuel') by lia.
  revert Hr. simpl. destruct (Decoder_Token d) as [[t|err] d1]; [|done].
  destruct t; try (intros Hr; apply IH; done).
  intros Hr. by apply (proj1 (unmarshal_mono fuel)).
Qed.

(** With fuel for twice the tokens left, the loops end; on a node of
    the store they do not panic. *)
Lemma unmarshal_total fuel :
  (forall h d l name attr,
     l < length h -> 2 * length (input d) + 1 < fuel ->
     exists h' d' e, UnmarshalXML fuel h d (Some l) name attr = Done (h', d', e) /\
       length h <= length h' /\ length (input d') <= length (input d)) /\
  (forall h d l,
     l < length h -> 2 * length (input d) < fuel ->
     exists h' d' e, unmarshalLoop fuel h d l = Done (h', d', e) /\
       length h <= length h' /\ length (input d') <= length (input d)).
Proof.
  induction fuel as [|fuel [IHu IHl]]; [split; intros; lia|].
  split.
  - intros h d l name attr Hl Hf. simpl. unfold store.
    destruct (lookup_lt_is_Some_2 h l Hl) as [nd ->].
    destruct (IHl (<[l := set_Attributes (Some (attrMap attr)) (set_Tag name nd)]> h) d l)
      as (h' & d' & e & E & Hh & Hd); [by rewrite length_insert|lia|].
    rewrite length_insert in Hh. eauto 10.
  - intros h d l Hl Hf. simpl.
    destruct (Decoder_Token d) as [[t|err] d1] eqn:Et; [|].
    2:{ apply Decoder_Token_length in Et as [(_ & -> & _)|Et]; [eauto 10|].
        do 3 eexists. split; [done|]. split; lia. }
    apply Decoder_Token_length in Et as [(_ & _ & ? & [=])|Et].
    assert (Hskip : exists h' d' e, unmarshalLoop fuel h d1 l = Done (h', d', e) /\
              length h <= length h' /\ length (input d') <= length (input d)).
    { destruct (IHl h d1 l) as (h' & d' & e & E & Hh & Hd); [done|lia|].
      exists h', d', e. split; [done|]. split; lia. }
    destruct t; try exact Hskip.
    + destruct (IHu (h ++ [mkNode "" (Some l) [] "" None]) d1 (length h) name attr)
        as (h2 & d2 & e & -> & Hh & Hd); [rewrite length_app; simpl; lia|lia|].
      rewrite length_app in Hh. simpl in Hh.
      destruct e as [e|]; [do 3 eexists; split; [done|]; split; lia|].
      unfold store. destruct (lookup_lt_is_Some_2 h2 l) as [nd ->]; [lia|].
      destruct (IHl (<[l := set_Children (Children nd ++ [Some (length h)]) nd]> h2) d2 l)
        as (h' & d' & e & E & Hh' & Hd'); [rewrite length_insert; lia|lia|].
      rewrite length_insert in Hh'.
      exists h', d', e. split; [done|]. split; lia.
    + destruct (lookup_lt_is_Some_2 h l Hl) as [nd ->].
      destruct (String.eqb name (Tag nd)); [|exact Hskip].
      do 3 eexists. split; [done|]. split; lia.
    + unfold store. destruct (lookup_lt_is_Some_2 h l Hl) as [nd ->].
      destruct (IHl (<[l := set_InnerText (TrimSpace data) nd]> h) d1 l)
        as (h' & d' & e & E & Hh & Hd); [by rewrite length_insert|lia|].
      rewrite length_insert in Hh.
      exists h', d', e. split; [done|]. split; lia.
Qed.

Lemma Decode_total fuel : forall h d v,
  v < length h -> 2 * length (input d) + 2 < fuel ->
  exists h' d' e, Decode fuel h d v = Done (h', d', e).
Proof.
  induction fuel as [|fuel IH]; intros h d v Hv Hf; [lia|].
  simpl. destruct (Decoder_Token d) as [[t|err] d1] eqn:Et; [|eauto].
  apply Decoder_Token_length in Et as [(_ & _ & ? & [=])|Et].
  destruct t; try (apply IH; [done|lia]).
  destruct (proj1 (unmarshal_total fuel) h d1 v name attr) as (h' & d' & e & E & _);
    [done|lia|eauto].
Qed.

(** A run that ends is the run of [Unmarshal]. *)
Lemma Unmarshal_from_run data h v fuel h' d' e :
  v < length h ->
  Decode fuel h (mkDecoder data []) v = Done (h', d', e) ->
  Unmarshal data h v = Done (h', e).
Proof.
  intros Hv E. unfold Unmarshal.
  destruct (Decode_total (2 * length data + 3) h (mkDecoder data []) v)
    as (h1 & d1 & e1 & E1); [done|simpl; lia|].
  rewrite E1. destruct (Nat.le_ge_cases fuel (2 * length data + 3)) as [Hle|Hle].
  - rewrite (Decode_mono fuel), E in E1; [by simplify_eq|by rewrite E|done].
  - rewrite (Decode_mono (2 * length data + 3)), E1 in E;
      [by simplify_eq|by rewrite E1|done].
Qed.

(** ** Runs of the token loop *)

Lemma loop_to_text h d l data d1 nd r :
  Decoder_Token d = (inl (CharData data), d1) ->
  h !! l = Some nd ->
  loop_to (<[l := set_InnerText (TrimSpace data) nd]> h) d1 l r ->
  loop_to h d l r.
Proof.
  intros Et Hl [fuel E]. exists (S fuel). simpl. rewrite Et. unfold store. by rewrite Hl.
Qed.

Lemma loop_to_skip h d l t d1 r :
  Decoder_Token d = (inl t, d1) ->
  match t with Comment _ | ProcInst _ _ | Directive _ => True | _ => False end ->
  loop_to h d1 l r -> loop_to h d l r.
Proof.
  intros Et Ht [fuel E]. exists (S fuel). simpl. rewrite Et. by destruct t.
Qed.

Lemma loop_to_end h d l name d1 nd :
  Decoder_Token d = (inl (EndElement name), d1) ->
  h !! l = Some nd -> Tag nd = name ->
  loop_to h d l (h, d1, None).
Proof.
  intros Et Hl <-. exists 1. simpl. rewrite Et, Hl. by rewrite String.eqb_refl.
Qed.

Lemma loop_to_start h d l name attr d1 h2 d2 nd r :
  Decoder_Token d = (inl (StartElement name attr), d1) ->
  unmarshal_to (h ++ [mkNode "" (Some l) [] "" None]) d1 (Some (length h)) name attr
               (h2, d2, None) ->
  h2 !! l = Some nd ->
  loop_to (<[l := set_Children (Children nd ++ [Some (length h)]) nd]> h2) d2 l r ->
  loop_to h d l r.
Proof.
  intros Et [f1 E1] Hl [f2 E2]. exists (S (Nat.max f1 f2)). simpl. rewrite Et.
  rewrite (proj1 (unmarshal_mono f1)), E1; [|by rewrite E1|lia].
  unfold store. rewrite Hl.
  rewrite (proj2 (unmarshal_mono f2)), E2; [done|by rewrite E2|lia].
Qed.

Lemma unmarshal_to_loop h d l name attr nd r :
  h !! l = Some nd ->
  loop_to (<[l := set_Attributes (Some (attrMap attr)) (set_Tag name nd)]> h) d l r ->
  unmarshal_to h d (Some l) name attr r.
Proof.
  intros Hl [fuel E]. exists (S fuel). simpl. unfold store. by rewrite Hl.
Qed.

(** ** Trees and frames *)

Lemma within_mono lo hi lo' hi' t :
  lo' <= lo -> hi <= hi' -> within lo hi t -> within lo' hi' t.
Proof.
  intros Hlo Hhi. induction t as [l tag attrs text kids IH] using tree_rect'.
  simpl. intros [Hl Hk]. split; [lia|].
  induction IH as [|k kids Hk1 _ IHk]; simpl in *; [done|].
  destruct Hk as [Hk Hks]. split; auto.
Qed.

Lemma within_kids lo hi kids :
  foldr (fun k P => within lo hi k /\ P) True kids <-> Forall (within lo hi) kids.
Proof.
  induction kids as [|k kids IH]; simpl; [split; auto|].
  rewrite IH. split; [intros []; by constructor|by inversion 1].
Qed.

(** A tree stays in the store when the nodes at its addresses do. *)
Lemma repr_frame h h' lo hi t :
  (forall y, lo <= y < hi -> h' !! y = h !! y) ->
  within lo hi t -> repr h t -> repr h' t.
Proof.
  intros Hfr. induction t as [l tag attrs text kids IH] using tree_rect'.
  simpl. intros [Hl Hk] Hr. inversion Hr as [? ? ? ? ? parent Hn Hkids]; subst.
  econstructor; [by rewrite Hfr|].
  apply within_kids in Hk.
  rewrite Forall_forall in IH, Hk, Hkids. apply Forall_forall. auto.
Qed.

Lemma lastText_cons init x body :
  lastText init (x :: body) = lastText (lastText init [x]) body.
Proof.
  unfold lastText. destruct x; simpl; try done.
  destruct (texts body) as [|s ss] eqn:E; simpl; [done|].
  rewrite last_cons. by destruct (last ss).
Qed.

Lemma body_tokens_cons x body :
  body_tokens (x :: body) = xml_tokens x ++ body_tokens body.
Proof. reflexivity. Qed.

(** ** The parser on documents *)

Lemma consumes_nil : consumes [].
Proof.
  intros h l nd0 rest s Hl. exists h, []. simpl.
  split; [auto|]. split; [done|]. split; [done|].
  split; [|by repeat constructor].
  rewrite Hl, app_nil_r. by destruct nd0.
Qed.

Lemma consumes_cons x body : consumes [x] -> consumes body -> consumes (x :: body).
Proof.
  intros Hx Hb h l nd0 rest s Hl.
  destruct (Hx h l nd0 (map inl (body_tokens body) ++ rest) s Hl)
    as (h1 & k1 & Hrun1 & Hlen1 & Hfr1 & Hl1 & Hp1 & Hr1 & Hw1).
  destruct (Hb h1 l _ rest s Hl1)
    as (h2 & k2 & Hrun2 & Hlen2 & Hfr2 & Hl2 & Hp2 & Hr2 & Hw2).
  pose proof (lookup_lt_Some _ _ _ Hl) as Hlt.
  exists h2, (k1 ++ k2). split; [|split; [lia|split; [|split; [|split; [|split]]]]].
  - intros r Hr. apply Hrun2, Hrun1 in Hr.
    rewrite body_tokens_cons, map_app, <- app_assoc.
    assert (E : body_tokens [x] = xml_tokens x)
      by (unfold body_tokens; simpl; apply app_nil_r).
    by rewrite E in Hr.
  - intros y Hy Hne. rewrite Hfr2, Hfr1 by (done || lia). done.
  - rewrite Hl2. simpl. rewrite map_app, app_assoc, <- lastText_cons. done.
  - replace (elems (x :: body)) with (elems [x] ++ elems body)
      by (unfold elems; by destruct x).
    by apply Forall2_app.
  - apply Forall_app. split; [|done].
    rewrite Forall_forall in Hr1, Hw1. apply Forall_forall. intros k Hk.
    eapply (repr_frame h1 h2 (length h) (length h1)); [|by apply Hw1|by apply Hr1].
    intros y Hy. apply Hfr2; lia.
  - apply Forall_app. split.
    + eapply Forall_impl; [exact Hw1|]. intros k. apply within_mono; lia.
    + eapply Forall_impl; [exact Hw2|]. intros k. apply within_mono; lia.
Qed.

Lemma consumes_text data : consumes [XText data].
Proof.
  intros h l nd0 rest s Hl.
  exists (<[l := set_InnerText (TrimSpace data) nd0]> h), [].
  pose proof (lookup_lt_Some _ _ _ Hl) as Hlt.
  split; [|split; [by rewrite length_insert|split; [|split; [|by repeat constructor]]]].
  - intros r Hr. eapply loop_to_text; [reflexivity|done|done].
  - intros y Hy Hne. by rewrite list_lookup_insert_ne.
  - rewrite list_lookup_insert_eq by done. simpl. by rewrite app_nil_r.
Qed.

Lemma consumes_misc x :
  match x with XComment _ | XProcInst _ _ | XDirective _ => True | _ => False end ->
  consumes [x].
Proof.
  intros Hx h l nd0 rest s Hl. exists h, [].
  destruct x; try done;
    (split; [|split; [done|split; [done|split; [|by repeat constructor]]]];
     [intros r Hr; eapply loop_to_skip; [reflexivity|done|done]
     |rewrite Hl; destruct nd0; simpl; by rewrite app_nil_r]).
Qed.

Lemma token_start tag attr toks rest s :
  Decoder_Token (mkDecoder (map inl (StartElement tag attr :: toks) ++ rest) s) =
  (inl (StartElement tag attr), mkDecoder (map inl toks ++ rest) (tag :: s)).
Proof. reflexivity. Qed.

Lemma token_end tag rest s :
  Decoder_Token (mkDecoder (inl (EndElement tag) :: rest) (tag :: s)) =
  (inl (EndElement tag), mkDecoder rest s).
Proof. unfold Decoder_Token. simpl. by rewrite String.eqb_refl. Qed.

Lemma body_tokens_elem tag attr body :
  body_tokens [XElem tag attr body] =
  StartElement tag attr :: body_tokens body ++ [EndElement tag].
Proof. unfold body_tokens. simpl. by rewrite app_nil_r. Qed.

Lemma consumes_elem tag attr body : consumes body -> consumes [XElem tag attr body].
Proof.
  intros Hb h l nd0 rest s Hl.
  pose proof (lookup_lt_Some _ _ _ Hl) as Hlt.
  set (c := length h).
  set (ndc := mkNode tag (Some l) [] "" (Some (attrMap attr))).
  set (h2 := h ++ [ndc]).
  assert (Hc2 : h2 !! c = Some ndc).
  { unfold h2, c. by rewrite lookup_app_r, Nat.sub_diag by lia. }
  destruct (Hb h2 c ndc (inl (EndElement tag) :: rest) (tag :: s) Hc2)
    as (h3 & kb & Hrun & Hlen & Hfr & Hc3 & Hp & Hr & Hw).
  assert (Hlen2 : length h2 = S (length h)).
  { unfold h2. rewrite length_app. simpl. lia. }
  assert (Hl3 : h3 !! l = Some nd0).
  { rewrite Hfr by (unfold c; lia). unfold h2. by rewrite lookup_app_l. }
  set (t := TNode c tag (Some (attrMap attr)) (lastText "" body) kb).
  exists (<[l := set_Children (Children nd0 ++ [Some c]) nd0]> h3), [t].
  pose proof (lookup_lt_Some _ _ _ Hl3) as Hlt3.
  split; [|split; [rewrite length_insert; lia|split; [|split; [|split; [|split]]]]].
  - intros r Hrest. rewrite body_tokens_elem.
    eapply (loop_to_start h _ l tag attr _ h3 (mkDecoder rest s) nd0);
      [apply token_start| |done|exact Hrest].
    apply (unmarshal_to_loop _ _ _ _ _ (mkNode "" (Some l) [] "" None)).
    { by rewrite lookup_app_r, Nat.sub_diag by lia. }
    replace (<[length h := _]> (h ++ [_])) with h2.
    2:{ unfold h2. rewrite insert_app_r_alt, Nat.sub_diag by lia. done. }
    rewrite map_app, <- app_assoc.
    apply Hrun. eapply loop_to_end; [apply token_end|exact Hc3|done].
  - intros y Hy Hne. rewrite list_lookup_insert_ne by done.
    rewrite Hfr by (unfold c; lia). unfold h2. by rewrite lookup_app_l.
  - rewrite list_lookup_insert_eq by done. done.
  - constructor; [|constructor]. by constructor.
  - apply Forall_singleton. unfold t. econstructor.
    + rewrite list_lookup_insert_ne by (unfold c; lia). exact Hc3.
    + rewrite Forall_forall in Hr, Hw. apply Forall_forall. intros k Hk.
      eapply (repr_frame h3 _ (length h2) (length h3)); [|by apply Hw|by apply Hr].
      intros y Hy. rewrite list_lookup_insert_ne by lia. done.
  - apply Forall_singleton. simpl. rewrite length_insert. split; [unfold c; lia|].
    apply within_kids. eapply Forall_impl; [exact Hw|].
    intros k. apply within_mono; lia.
Qed.

Lemma consumes_all body : consumes body.
Proof.
  assert (Hone : forall x, consumes [x]).
  { induction x as [| | | |tag attr b IH] using xml_rect';
      [apply consumes_text|by apply consumes_misc..|].
    apply consumes_elem. induction IH; [apply consumes_nil|by apply consumes_cons]. }
  induction body; [apply consumes_nil|by apply consumes_cons].
Qed.

Lemma Decode_prolog pre : forall h s rest v r,
  forallb is_prolog pre = true ->
  (exists fuel, Decode fuel h (mkDecoder rest s) v = Done r) ->
  exists fuel, Decode fuel h (mkDecoder (map inl pre ++ rest) s) v = Done r.
Proof.
  induction pre as [|t pre IH]; intros h s rest v r Hp Hrun; [done|].
  simpl in Hp. apply andb_prop in Hp as [Ht Hp].
  destruct (IH h s rest v r Hp Hrun) as [fuel E].
  exists (S fuel). destruct t; try done; simpl; exact E.
Qed.

(** Deserializing a document: the receiver becomes its root. *)
Lemma Unmarshal_document pre tag attr body rest h v nd0 :
  forallb is_prolog pre = true -> h !! v = Some nd0 ->
  exists h' kids,
    Unmarshal (map inl pre ++ map inl (xml_tokens (XElem tag attr body)) ++ rest) h v
      = Done (h', None) /\
    h' !! v = Some (mkNode tag (Parent nd0)
                      (Children nd0 ++ map (fun k => Some (t_loc k)) kids)
                      (lastText (InnerText nd0) body) (Some (attrMap attr))) /\
    Forall2 parsed (elems body) kids /\
    Forall (repr h') kids /\
    Forall (within (length h) (length h')) kids /\
    (forall y, y < length h -> y <> v -> h' !! y = h !! y).
Proof.
  intros Hp Hv. pose proof (lookup_lt_Some _ _ _ Hv) as Hlt.
  set (nd1 := set_Attributes (Some (attrMap attr)) (set_Tag tag nd0)).
  set (h1 := <[v := nd1]> h).
  assert (Hv1 : h1 !! v = Some nd1) by (by apply list_lookup_insert_eq).
  destruct (consumes_all body h1 v nd1 (inl (EndElement tag) :: rest) [tag] Hv1)
    as (h' & kids & Hrun & Hlen & Hfr & Hv' & Hpar & Hrep & Hwi).
  unfold h1 in Hlen, Hfr, Hwi. rewrite length_insert in Hlen, Hfr, Hwi.
  exists h', kids. split; [|split; [exact Hv'|split; [done|split; [done|split; [done|]]]]].
  - destruct (Decode_prolog pre h [] (map inl (xml_tokens (XElem tag attr body)) ++ rest)
                v (h', mkDecoder rest [], None) Hp) as [fuel E].
    + destruct (Hrun (h', mkDecoder rest [], None)) as [fuel E].
      { eapply loop_to_end; [apply token_end|exact Hv'|done]. }
      exists (S (S fuel)).
      change (xml_tokens (XElem tag attr body))
        with (StartElement tag attr :: body_tokens body ++ [EndElement tag]).
      cbn [Decode]. rewrite token_start. cbn [UnmarshalXML]. unfold store.
      rewrite Hv. fold nd1 h1. rewrite map_app, <- app_assoc. exact E.
    + by apply (Unmarshal_from_run _ _ _ fuel _ (mkDecoder rest [])).
  - intros y Hy Hne. rewrite Hfr by done. unfold h1. by rewrite list_lookup_insert_ne.
Qed.

(** ** White space *)

Ltac byte_facts :=
  unfold asciiSpace, space2, space3 in *;
  repeat match goal with
    | H : (_ && _)%bool = true |- _ => apply andb_prop in H as [? ?]
    | H : (_ || _)%bool = true |- _ => apply orb_prop in H as [?|?]
    | H : (_ =? _)%N = true |- _ => apply N.eqb_eq in H
    | H : (_ <=? _)%N = true |- _ => apply N.leb_le in H
    end.

Ltac byte_false :=
  apply not_true_is_false; intros ?; byte_facts; lia.

Lemma space2_first c1 c2 : space2 c1 c2 = true -> asciiSpace c1 = false.
Proof. intros H. byte_facts; byte_false. Qed.

Lemma space2_last c1 c2 : space2 c1 c2 = true -> asciiSpace c2 = false.
Proof. intros H. byte_facts; byte_false. Qed.

Lemma space3_first c1 c2 c3 :
  space3 c1 c2 c3 = true -> asciiSpace c1 = false /\ space2 c1 c2 = false.
Proof. intros H. byte_facts; split; byte_false. Qed.

Lemma space3_last c1 c2 c3 :
  space3 c1 c2 c3 = true -> asciiSpace c3 = false /\ space2 c2 c3 = false.
Proof. intros H. byte_facts; split; byte_false. Qed.

Lemma trimLeft_space_rune r s : SpaceRune r -> trimLeft (r +:+ s) = trimLeft s.
Proof.
  destruct 1 as [c Hc|c1 c2 H2|c1 c2 c3 H3]; simpl.
  - by rewrite Hc.
  - by rewrite (space2_first _ _ H2), H2.
  - destruct (space3_first _ _ _ H3) as [-> ->]. by rewrite H3.
Qed.

Lemma TrimSpace_all_space s : AllSpace s -> TrimSpace s = "".
Proof.
  intros Hs. unfold TrimSpace.
  assert (E : trimLeft s = "").
  { induction Hs as [|r s Hr _ IH]; [done|]. by rewrite trimLeft_space_rune. }
  by rewrite E.
Qed.

(** Strings: append and reverse. *)

Lemma append_cons c a b : String c a +:+ b = String c (a +:+ b).
Proof. reflexivity. Qed.

Lemma append_nil_r s : s +:+ "" = s.
Proof. induction s as [|c s IH]; [done|]. by rewrite append_cons, IH. Qed.

Lemma append_assoc a b c : (a +:+ b) +:+ c = a +:+ (b +:+ c).
Proof. induction a as [|x a IH]; [done|]. by rewrite !append_cons, IH. Qed.

Lemma rev_app_spec a b : String.rev_app a b = String.rev a +:+ b.
Proof.
  unfold String.rev. revert b. induction a as [|c a IH]; intros b; [done|].
  cbn [String.rev_app].
  rewrite (IH (String c b)), (IH (String c "")), append_assoc. done.
Qed.

Lemma rev_cons c a : String.rev (String c a) = String.rev a +:+ String c "".
Proof. unfold String.rev at 1. cbn [String.rev_app]. apply rev_app_spec. Qed.

Lemma rev_append a b : String.rev (a +:+ b) = String.rev b +:+ String.rev a.
Proof.
  induction a as [|c a IH].
  - by rewrite append_nil_r.
  - by rewrite append_cons, !rev_cons, IH, append_assoc.
Qed.

Lemma rev_involutive s : String.rev (String.rev s) = s.
Proof.
  induction s as [|c s IH]; [done|]. by rewrite rev_cons, rev_append, IH.
Qed.

Lemma string_length_ind (P : string -> Prop) :
  (forall s, (forall t, String.length t < String.length s -> P t) -> P s) ->
  forall s, P s.
Proof.
  intros step s. remember (String.length s) as n eqn:E.
  revert s E. induction n as [n IH] using lt_wf_ind. intros s ->.
  apply step. intros t Ht. by apply (IH (String.length t)).
Qed.

Lemma AllSpace_snoc a r : AllSpace a -> SpaceRune r -> AllSpace (a +:+ r).
Proof.
  induction 1 as [|r' a Hr' _ IH]; intros Hr.
  - change (AllSpace r). rewrite <- (append_nil_r r). constructor; [done|constructor].
  - rewrite append_assoc. constructor; auto.
Qed.

(** [trimLeft] removes a run of white-space runes, and all of it. *)
Lemma trimLeft_split s : exists a, AllSpace a /\ s = a +:+ trimLeft s.
Proof.
  induction s as [s IH] using string_length_ind.
  assert (Hstop : exists a, AllSpace a /\ s = a +:+ s) by (exists ""; split; [constructor|done]).
  destruct s as [|c1 r1]; [exact Hstop|]. simpl.
  destruct (asciiSpace c1) eqn:H1.
  { destruct (IH r1) as (a & Ha & E); [simpl; lia|].
    exists (String c1 "" +:+ a). split; [constructor; [by constructor|done]|].
    rewrite append_assoc. change (String c1 r1 = String c1 (a +:+ trimLeft r1)).
    by rewrite <- E. }
  destruct r1 as [|c2 r2]; [exact Hstop|].
  destruct (space2 c1 c2) eqn:H2.
  { destruct (IH r2) as (a & Ha & E); [simpl; lia|].
    exists (String c1 (String c2 "") +:+ a). split; [constructor; [by constructor|done]|].
    rewrite append_assoc.
    change (String c1 (String c2 r2) = String c1 (String c2 (a +:+ trimLeft r2))).
    by rewrite <- E. }
  destruct r2 as [|c3 r3]; [exact Hstop|].
  destruct (space3 c1 c2 c3) eqn:H3; [|exact Hstop].
  destruct (IH r3) as (a & Ha & E); [simpl; lia|].
  exists (String c1 (String c2 (String c3 "")) +:+ a).
  split; [constructor; [by constructor|done]|].
  rewrite append_assoc.
  change (String c1 (String c2 (String c3 r3))
          = String c1 (String c2 (String c3 (a +:+ trimLeft r3)))).
  by rewrite <- E.
Qed.

Lemma trimLeft_stops s : no_space_start (trimLeft s).
Proof.
  induction s as [s IH] using string_length_ind.
  destruct s as [|c1 r1]; simpl.
  { intros r t Hr. by destruct Hr. }
  destruct (asciiSpace c1) eqn:H1; [apply IH; simpl; lia|].
  destruct r1 as [|c2 r2].
  { intros r t Hr E. destruct Hr; cbv [String.append] in E; simplify_eq; congruence. }
  destruct (space2 c1 c2) eqn:H2; [apply IH; simpl; lia|].
  destruct r2 as [|c3 r3].
  { intros r t Hr E. destruct Hr; cbv [String.append] in E; simplify_eq; congruence. }
  destruct (space3 c1 c2 c3) eqn:H3; [apply IH; simpl; lia|].
  intros r t Hr E. destruct Hr; cbv [String.append] in E; simplify_eq; congruence.
Qed.

(** The same for the scan from the end, on reversed runes. *)
Lemma trimLeftRev_split s :
  exists a, AllSpace (String.rev a) /\ s = a +:+ trimLeftRev s.
Proof.
  induction s as [s IH] using string_length_ind.
  assert (Hstop : exists a, AllSpace (String.rev a) /\ s = a +:+ s)
    by (exists ""; split; [constructor|done]).
  destruct s as [|c1 r1]; [exact Hstop|]. simpl.
  destruct (asciiSpace c1) eqn:H1.
  { destruct (IH r1) as (a & Ha & E); [simpl; lia|].
    exists (String c1 a). split; [|by rewrite append_cons, <- E].
    rewrite rev_cons. apply AllSpace_snoc; [done|by constructor]. }
  destruct r1 as [|c2 r2]; [exact Hstop|].
  destruct (space2 c2 c1) eqn:H2.
  { destruct (IH r2) as (a & Ha & E); [simpl; lia|].
    exists (String c1 (String c2 a)). split; [|by rewrite !append_cons, <- E].
    rewrite !rev_cons, append_assoc. apply AllSpace_snoc; [done|by constructor]. }
  destruct r2 as [|c3 r3]; [exact Hstop|].
  destruct (space3 c3 c2 c1) eqn:H3; [|exact Hstop].
  destruct (IH r3) as (a & Ha & E); [simpl; lia|].
  exists (String c1 (String c2 (String c3 a))). split; [|by rewrite !append_cons, <- E].
  rewrite !rev_cons, !append_assoc. apply AllSpace_snoc; [done|by constructor].
Qed.

Lemma trimLeftRev_stops s r t :
  SpaceRune r -> trimLeftRev s <> String.rev r +:+ t.
Proof.
  revert r t. induction s as [s IH] using string_length_ind. intros r t Hr.
  destruct s as [|c1 r1]; simpl.
  { by destruct Hr. }
  destruct (asciiSpace c1) eqn:H1; [apply IH; [simpl; lia|done]|].
  assert (Hfirst : forall r' t', SpaceRune r' ->
            String c1 r1 = String.rev r' +:+ t' ->
            exists c2 r2, r1 = String c2 r2 /\
              (space2 c2 c1 = true \/
               exists c3 r3, r2 = String c3 r3 /\ space2 c2 c1 = false /\
                             space3 c3 c2 c1 = true)).
  { intros r' t' Hr' E. destruct Hr' as [c Hc|a b Hab|a b c Habc]; cbv [String.append String.rev String.rev_app] in E.
    - simplify_eq. congruence.
    - simplify_eq. eauto.
    - simplify_eq. destruct (space3_last _ _ _ Habc) as [_ ?]. eauto 10. }
  destruct r1 as [|c2 r2].
  { intros E. by destruct (Hfirst _ _ Hr E) as (? & ? & ? & _). }
  destruct (space2 c2 c1) eqn:H2; [apply IH; [simpl; lia|done]|].
  destruct r2 as [|c3 r3].
  { intros E. destruct (Hfirst _ _ Hr E) as (? & ? & ? & [?|(? & ? & ? & _)]);
      simplify_eq; congruence. }
  destruct (space3 c3 c2 c1) eqn:H3; [apply IH; [simpl; lia|done]|].
  intros E. destruct (Hfirst _ _ Hr E) as (? & ? & ? & [?|(? & ? & ? & _ & ?)]);
    simplify_eq; congruence.
Qed.

(** [TrimSpace s] is [s] without a run of white-space runes at the start
    and one at the end, and has no white-space rune at either end. *)
Lemma TrimSpace_spec s :
  exists a b, AllSpace a /\ AllSpace b /\ s = a +:+ TrimSpace s +:+ b /\
    no_space_start (TrimSpace s) /\ no_space_end (TrimSpace s).
Proof.
  destruct (trimLeft_split s) as (a & Ha & Ea).
  destruct (trimLeftRev_split (String.rev (trimLeft s))) as (b & Hb & Eb).
  assert (Ex : trimLeft s = TrimSpace s +:+ String.rev b).
  { unfold TrimSpace, trimRight.
    rewrite <- rev_append, <- Eb. by rewrite rev_involutive. }
  exists a, (String.rev b). split; [done|]. split; [done|]. split; [by rewrite <- Ex|].
  split.
  - intros r t Hr E. apply (trimLeft_stops s r (t +:+ String.rev b) Hr).
    by rewrite Ex, E, append_assoc.
  - intros r t Hr E.
    apply (trimLeftRev_stops (String.rev (trimLeft s)) r (String.rev t) Hr).
    apply (f_equal String.rev) in E. unfold TrimSpace, trimRight in E.
    by rewrite rev_involutive, rev_append in E.
Qed.

Lemma lastText_last init b1 data b2 :
  texts b2 = [] -> lastText init (b1 ++ XText data :: b2) = TrimSpace data.
Proof.
  intros Hb2. unfold lastText.
  assert (E : texts (b1 ++ XText data :: b2) = texts b1 ++ [data]).
  { induction b1 as [|x b1 IH]; simpl; [by rewrite Hb2|]. destruct x; simpl; by rewrite ?IH. }
  by rewrite E, last_snoc.
Qed.

(** C6.  Deserializing an element gives every node the text of the last
    character-data token directly inside its element, stripped by
    [TrimSpace]: a later segment overwrites an earlier one, whatever
    elements lie between them, and nothing is concatenated.  Text made
    of white space only becomes the empty string, and in general
    [TrimSpace] takes a run of white-space runes off each end and
    leaves none at either end. *)
Theorem text_last_segment_wins pre tag attr body rest h v :
  forallb is_prolog pre = true -> h !! v = Some zeroNode ->
  (exists h' t,
     Unmarshal (map inl pre ++ map inl (xml_tokens (XElem tag attr body)) ++ rest) h v
       = Done (h', None) /\
     repr h' t /\ t_loc t = v /\ parsed (XElem tag attr body) t) /\
  (forall init b1 data b2,
     texts b2 = [] -> lastText init (b1 ++ XText data :: b2) = TrimSpace data) /\
  (forall init b, texts b = [] -> lastText init b = init) /\
  (forall data, AllSpace data -> TrimSpace data = "") /\
  (forall data, exists a b,
     AllSpace a /\ AllSpace b /\ data = a +:+ TrimSpace data +:+ b /\
     no_space_start (TrimSpace data) /\ no_space_end (TrimSpace data)).
Proof.
  intros Hp Hv.
  split; [|split; [apply lastText_last|split;
                   [|split; [apply TrimSpace_all_space|apply TrimSpace_spec]]]].
  - destruct (Unmarshal_document pre tag attr body rest h v zeroNode Hp Hv)
      as (h' & kids & E & Hv' & Hpar & Hrep & _).
    exists h', (TNode v tag (Some (attrMap attr)) (lastText "" body) kids).
    split; [done|]. split; [by econstructor|]. split; [done|by constructor].
  - intros init b Hb. unfold lastText. by rewrite Hb.
Qed.

Lemma text_last_segment_wins_witness :
  exists h' t,
    Unmarshal (map inl (xml_tokens (XElem "a" [] mixed_body))) [zeroNode] 0
      = Done (h', None) /\
    repr h' t /\ t_loc t = 0 /\ t_text t = "last".
Proof.
  destruct (text_last_segment_wins [] "a" [] mixed_body [] [zeroNode] 0 eq_refl eq_refl)
    as ((h' & t & E & Hr & Hl & Hp) & _).
  exists h', t. simpl in E. split; [exact E|]. split; [exact Hr|]. split; [exact Hl|].
  inversion Hp. reflexivity.
Defined.

(** ** What the parser accepts *)

Lemma Decoder_Token_inl d t d1 :
  Decoder_Token d = (inl t, d1) ->
  input d = inl t :: input d1 /\
  match t with
  | StartElement name _ => stk d1 = name :: stk d
  | EndElement name => stk d = name :: stk d1
  | _ => stk d1 = stk d
  end.
Proof.
  unfold Decoder_Token. destruct d as [inp s]; simpl.
  destruct inp as [|[t'|e] rest]; [by destruct s| |done].
  destruct t'; try (by intros [= <- <-]).
  destruct s as [|top s]; [done|].
  destruct (String.eqb_spec top name) as [->|]; [by intros [= <- <-]|done].
Qed.

(** A successful call has read the content of the open element up to
    its end tag, and has left the other old nodes alone. *)
Lemma unmarshal_sound fuel :
  (forall h d c name attr h' d' s,
     UnmarshalXML fuel h d (Some c) name attr = Done (h', d', None) ->
     stk d = name :: s ->
     exists body,
       input d = map inl (body_tokens body ++ [EndElement name]) ++ input d' /\
       stk d' = s /\ length h <= length h' /\
       (forall y, y < length h -> y <> c -> h' !! y = h !! y)) /\
  (forall h d l h' d' nd s,
     unmarshalLoop fuel h d l = Done (h', d', None) ->
     h !! l = Some nd -> stk d = Tag nd :: s ->
     exists body,
       input d = map inl (body_tokens body ++ [EndElement (Tag nd)]) ++ input d' /\
       stk d' = s /\ length h <= length h' /\
       (forall y, y < length h -> y <> l -> h' !! y = h !! y)).
Proof.
  induction fuel as [|fuel [IHu IHl]]; [split; intros; simpl in *; congruence|].
  split.
  - intros h d c name attr h' d' s. simpl. unfold store.
    destruct (h !! c) as [nd|] eqn:Hc; [|done]. intros E Hs.
    pose proof (lookup_lt_Some _ _ _ Hc) as Hlt.
    destruct (IHl _ _ _ _ _ (set_Attributes (Some (attrMap attr)) (set_Tag name nd)) s E)
      as (body & Hin & Hs' & Hlen & Hfr); [by apply list_lookup_insert_eq|done|].
    rewrite length_insert in Hlen, Hfr.
    exists body. split; [done|]. split; [done|]. split; [done|].
    intros y Hy Hne. rewrite Hfr by done. by rewrite list_lookup_insert_ne.
  - intros h d l h' d' nd s. simpl.
    destruct (Decoder_Token d) as [[t|err] d1] eqn:Et; [|done].
    apply Decoder_Token_inl in Et as [Hin Hst].
    intros E Hl Hs. pose proof (lookup_lt_Some _ _ _ Hl) as Hlt.
    destruct t.
    + (* a child element *)
      destruct (UnmarshalXML fuel _ d1 _ name attr) as [[[h2 d2] [e|]]| |] eqn:Eu;
        try done.
      destruct (IHu _ _ _ _ _ _ _ (stk d) Eu Hst) as (bc & Hin1 & Hs2 & Hlen2 & Hfr2).
      rewrite length_app in Hlen2, Hfr2. simpl in Hlen2, Hfr2.
      assert (Hl2 : h2 !! l = Some nd).
      { rewrite Hfr2 by lia. by rewrite lookup_app_l. }
      unfold store in E. rewrite Hl2 in E.
      destruct (IHl _ _ _ _ _ (set_Children (Children nd ++ [Some (length h)]) nd) s E)
        as (body & Hin2 & Hs' & Hlen & Hfr);
        [apply list_lookup_insert_eq; lia|by rewrite Hs2|].
      rewrite length_insert in Hlen, Hfr.
      exists (XElem name attr bc :: body).
      split; [|split; [done|split; [lia|]]].
      * rewrite Hin, Hin1, Hin2. rewrite body_tokens_cons. simpl.
        rewrite !map_app, <- !app_assoc. done.
      * intros y Hy Hne. rewrite Hfr, list_lookup_insert_ne, Hfr2 by (done || lia).
        by rewrite lookup_app_l.
    + (* the end tag *)
      rewrite Hl in E. rewrite Hs in Hst. injection Hst as <- ->.
      rewrite String.eqb_refl in E. injection E as <- <-.
      exists []. by rewrite Hin.
    + (* text *)
      unfold store in E. rewrite Hl in E.
      destruct (IHl _ _ _ _ _ (set_InnerText (TrimSpace data) nd) s E)
        as (body & Hin2 & Hs' & Hlen & Hfr);
        [by apply list_lookup_insert_eq|by rewrite Hst|].
      rewrite length_insert in Hlen, Hfr.
      exists (XText data :: body). split; [by rewrite Hin, Hin2|].
      split; [done|]. split; [done|].
      intros y Hy Hne. rewrite Hfr by done. by rewrite list_lookup_insert_ne.
    + destruct (IHl _ _ _ _ _ nd s E) as (body & Hin2 & Hs' & Hlen & Hfr);
        [done|by rewrite Hst|].
      exists (XComment data :: body). by rewrite Hin, Hin2.
    + destruct (IHl _ _ _ _ _ nd s E) as (body & Hin2 & Hs' & Hlen & Hfr);
        [done|by rewrite Hst|].
      exists (XProcInst target inst :: body). by rewrite Hin, Hin2.
    + destruct (IHl _ _ _ _ _ nd s E) as (body & Hin2 & Hs' & Hlen & Hfr);
        [done|by rewrite Hst|].
      exists (XDirective data :: body). by rewrite Hin, Hin2.
Qed.

Lemma Decode_sound fuel : forall h d v h' d',
  Decode fuel h d v = Done (h', d', None) -> stk d = [] ->
  exists pre tag attr body,
    input d = map inl pre ++ map inl (xml_tokens (XElem tag attr body)) ++ input d' /\
    forallb is_prolog pre = true.
Proof.
  induction fuel as [|fuel IH]; intros h d v h' d'; [done|]. simpl.
  destruct (Decoder_Token d) as [[t|err] d1] eqn:Et; [|done].
  apply Decoder_Token_inl in Et as [Hin Hst]. intros E Hs.
  destruct t.
  - rewrite Hs in Hst.
    destruct (proj1 (unmarshal_sound fuel) _ _ _ _ _ _ _ [] E Hst) as (body & Hin1 & _).
    exists [], name, attr, body. split; [|done].
    rewrite Hin, Hin1. reflexivity.
  - by rewrite Hs in Hst.
  - destruct (IH _ _ _ _ _ E) as (pre & tag & attr & body & Hin1 & Hp); [congruence|].
    exists (CharData data :: pre), tag, attr, body. by rewrite Hin, Hin1.
  - destruct (IH _ _ _ _ _ E) as (pre & tag & attr & body & Hin1 & Hp); [congruence|].
    exists (Comment data :: pre), tag, attr, body. by rewrite Hin, Hin1.
  - destruct (IH _ _ _ _ _ E) as (pre & tag & attr & body & Hin1 & Hp); [congruence|].
    exists (ProcInst target inst :: pre), tag, attr, body. by rewrite Hin, Hin1.
  - destruct (IH _ _ _ _ _ E) as (pre & tag & attr & body & Hin1 & Hp); [congruence|].
    exists (Directive data :: pre), tag, attr, body. by rewrite Hin, Hin1.
Qed.

(** C4 as the specification states it does not hold for all input that
    is not well-formed: [Unmarshal] stops at the end tag of the root
    element and does not read the unmatched end tag that follows. *)
Lemma trailing_markup_not_read :
  Unmarshal [inl (StartElement "a" []); inl (EndElement "a"); inl (EndElement "b")]
            [zeroNode] 0
  = Done ([mkNode "a" None [] "" (Some ∅)], None).
Proof. reflexivity. Qed.

(** C4, amended.  [Unmarshal] succeeds when the input begins, after
    text, comments, processing instructions and directives, with a
    complete and properly nested element, and fails on every other
    input: a mismatched end tag, the end of the input inside an element
    and an error of the lexer before the root element is closed are
    returned to the caller as an error. *)
Theorem malformed_input_fails data h v :
  v < length h ->
  (well_formed_prefix data -> exists h', Unmarshal data h v = Done (h', None)) /\
  (~ well_formed_prefix data -> exists h' err, Unmarshal data h v = Done (h', Some err)).
Proof.
  intros Hv. split.
  - intros (pre & tag & attr & body & rest & -> & Hp).
    destruct (lookup_lt_is_Some_2 h v Hv) as [nd0 Hnd].
    destruct (Unmarshal_document pre tag attr body rest h v nd0 Hp Hnd) as (h' & _ & E & _).
    eauto.
  - intros Hnwf. unfold Unmarshal.
    destruct (Decode_total (2 * length data + 3) h (mkDecoder data []) v)
      as (h' & d' & e & E); [done|simpl; lia|].
    rewrite E. destruct e as [err|]; [eauto|].
    destruct Hnwf. apply Decode_sound in E as (pre & tag & attr & body & Hin & Hp); [|done].
    simpl in Hin. by exists pre, tag, attr, body, (input d').
Qed.

Lemma malformed_input_fails_witness :
  0 < length [zeroNode] /\
  exists h' err,
    Unmarshal [inl (StartElement "a" []); inl (EndElement "b"); inl (EndElement "a")]
              [zeroNode] 0 = Done (h', Some err).
Proof.
  assert (H : 0 < length [zeroNode]) by (simpl; lia).
  split; [exact H|].
  exact (proj2 (malformed_input_fails _ [zeroNode] 0 H) mismatch_not_well_formed).
Defined.

(** ** The encoder *)

Lemma istate_same pre ind e e' nl d :
  same_state e e' -> istate pre ind e nl d -> istate pre ind e' nl d.
Proof.
  unfold istate. intros (_ & -> & -> & -> & _ & ->). done.
Qed.

Lemma writeSpace_spec e s :
  out (writeSpace e s) = out e ++ (if String.eqb s "" then [] else [CharData s]) /\
  same_state e (writeSpace e s).
Proof.
  unfold writeSpace. destruct (String.eqb s ""); [|done].
  rewrite app_nil_r. done.
Qed.

(** [writeIndent] before a start tag, and before an end tag; [b] tells
    whether the end tag directly follows the start tag or its text. *)
Lemma writeIndent_start pre ind e nl d :
  istate pre ind e nl d ->
  out (writeIndent e 1) = out e ++ space pre ind nl d /\
  tags (writeIndent e 1) = tags e /\
  istate pre ind (writeIndent e 1) true (d + 1) /\
  (indenting pre ind = true -> indentedIn (writeIndent e 1) = true).
Proof.
  intros (Hp & Hi & Hst). unfold writeIndent, space, istate. rewrite Hp, Hi.
  destruct (indenting pre ind) eqn:Hind; cbn [negb].
  - destruct (Hst eq_refl) as [Hnl Hd].
    change (1 <? 0)%Z with false. change (0 <? 1)%Z with true. cbn [andb].
    rewrite Hnl, Hd.
    destruct (writeSpace_spec e (indentation pre ind nl d))
      as (A1 & At & Ap & Ai & Ad & _ & _).
    cbn. rewrite ?Hp, ?Hi, Ap, Ai, Ad, Hp, Hi, Hd. done.
  - rewrite app_nil_r. repeat split; try done.
Qed.

Lemma writeIndent_end pre ind e (b : bool) d :
  istate pre ind e true (d + 1) ->
  (indenting pre ind = true -> indentedIn e = b) ->
  out (writeIndent e (-1)) = out e ++ (if b then [] else space pre ind true d) /\
  tags (writeIndent e (-1)) = tags e /\
  istate pre ind (writeIndent e (-1)) true d /\
  (indenting pre ind = true -> indentedIn (writeIndent e (-1)) = false).
Proof.
  intros (Hp & Hi & Hst) Hb. unfold writeIndent, space, istate. rewrite Hp, Hi.
  destruct (indenting pre ind) eqn:Hind; cbn [negb].
  - destruct (Hst eq_refl) as [Hnl Hd]. specialize (Hb eq_refl).
    change (-1 <? 0)%Z with true. change (0 <? -1)%Z with false. cbn [andb].
    cbn [indentedIn set_depth depth putNewline prefix indent set_indentedIn].
    rewrite Hb, Hnl, Hd, Hp, Hi. replace (d + 1 - 1)%Z with d by lia.
    destruct b.
    + cbn. rewrite app_nil_r. done.
    + destruct (writeSpace_spec (set_indentedIn false (set_depth d e))
                  (indentation pre ind true d))
        as (A1 & At & Ap & Ai & Ad & Ain & _).
      cbn in *. rewrite Ap, Ai, Ad, Ain. done.
  - destruct b; rewrite app_nil_r; repeat split; try done.
Qed.

(** A start tag is refused when it has no name, and written otherwise. *)
Lemma EncodeToken_start pre ind e name attr nl d e' res :
  istate pre ind e nl d ->
  EncodeToken e (StartElement name attr) = (e', res) ->
  (res = None -> name <> "" /\
     out e' = out e ++ space pre ind nl d
                    ++ [StartElement name (filter (fun a => a.1 ≠ "") attr)] /\
     tags e' = name :: tags e /\
     istate pre ind e' true (d + 1) /\
     (indenting pre ind = true -> indentedIn e' = true)) /\
  (name <> "" -> res = None).
Proof.
  intros Hst. cbn [EncodeToken].
  destruct (String.eqb_spec name "") as [->|Hne].
  { intros [= <- <-]. done. }
  destruct (writeIndent_start pre ind (set_tags (name :: tags e) e) nl d Hst)
    as (I1 & I3 & I4 & I5).
  intros [= <- <-]. split; [|done]. intros _. split; [done|].
  unfold write. cbn [out tags set_out]. rewrite I1, <- app_assoc.
  split; [done|]. split; [by rewrite I3|]. split; [exact I4|exact I5].
Qed.

(** The end tag of the element that is open is written. *)
Lemma EncodeToken_end pre ind e name below (b : bool) d e' res :
  tags e = name :: below -> name <> "" ->
  istate pre ind e true (d + 1) ->
  (indenting pre ind = true -> indentedIn e = b) ->
  EncodeToken e (EndElement name) = (e', res) ->
  res = None /\
  out e' = out e ++ (if b then [] else space pre ind true d) ++ [EndElement name] /\
  tags e' = below /\ istate pre ind e' true d /\
  (indenting pre ind = true -> indentedIn e' = false).
Proof.
  intros Ht Hne Hst Hb. cbn [EncodeToken]. rewrite Ht.
  destruct (String.eqb_spec name "") as [->|_]; [done|].
  rewrite String.eqb_refl.
  destruct (writeIndent_end pre ind (set_tags below e) b d Hst Hb)
    as (I1 & I3 & I4 & I5).
  intros [= <- <-]. split; [done|].
  unfold write. cbn [out tags set_out]. rewrite I1, <- app_assoc.
  split; [done|]. split; [by rewrite I3|]. split; [exact I4|exact I5].
Qed.

Lemma EncodeToken_text e data e' res :
  EncodeToken e (CharData data) = (e', res) ->
  res = None /\ out e' = out e ++ [CharData data] /\ same_state e e'.
Proof. intros [= <- <-]. done. Qed.

(** ** MarshalXML on a tree *)

Section MarshalTree.
Variable rangeOrder : nat -> gmap string string -> list (string * string).
Variable h : list Node.

Lemma istate_set_tags pre ind e ts nl d :
  istate pre ind e nl d -> istate pre ind (set_tags ts e) nl d.
Proof. done. Qed.

Lemma Encode_kid fuel k :
  marshals rangeOrder h fuel k ->
  forall pre ind e nl d, istate pre ind e nl d ->
  exists e' res,
    Encode (MarshalXML rangeOrder fuel h) e (Some (t_loc k)) = Done (e', res) /\
    (res = None ->
       out e' = out e ++ written rangeOrder pre ind nl d k /\
       tags e' = tags e /\ istate pre ind e' true d /\
       (indenting pre ind = true -> indentedIn e' = false) /\
       tags_ok k = true) /\
    (tags_ok k = true -> res = None).
Proof.
  intros Hk pre ind e nl d Hst. unfold Encode.
  destruct (Hk pre ind (set_tags ("" :: tags e) e) "Node" nl d
              (istate_set_tags _ _ _ _ _ _ Hst)) as (e1 & res & -> & H1 & H2).
  destruct res as [err|].
  - exists e1, (Some err). split; [done|]. split; [done|exact H2].
  - destruct (H1 eq_refl) as (Hout & Htags & Hst1 & Hin & Hok).
    simpl in Htags, Hout.
    rewrite Htags. simpl length. rewrite Nat.ltb_irrefl.
    replace (S (length (tags e)) - length (tags e)) with 1 by lia. simpl drop.
    unfold Flush.
    eexists _, None. split; [done|]. split; [done|]. done.
Qed.

Lemma encodeChildren_kids fuel kids :
  Forall (marshals rangeOrder h fuel) kids ->
  forall pre ind e d, istate pre ind e true d ->
  exists e' res,
    encodeChildren (Encode (MarshalXML rangeOrder fuel h)) e
                   (map (fun k => Some (t_loc k)) kids) = Done (e', res) /\
    (res = None ->
       out e' = out e ++ concat (map (written rangeOrder pre ind true d) kids) /\
       tags e' = tags e /\
       istate pre ind e' true d /\
       (indenting pre ind = true ->
          indentedIn e' = match kids with [] => indentedIn e | _ :: _ => false end) /\
       forallb tags_ok kids = true) /\
    (forallb tags_ok kids = true -> res = None).
Proof.
  induction 1 as [|k kids Hk _ IH]; intros pre ind e d Hst.
  - exists e, None. simpl. rewrite app_nil_r. split; [done|]. split; [|done].
    intros _. split; [done|]. split; [done|]. split; [exact Hst|done].
  - cbn [encodeChildren map].
    destruct (Encode_kid fuel k Hk pre ind e true d Hst) as (e1 & res1 & -> & H1 & H2).
    destruct res1 as [err|].
    + eexists _, _. split; [done|]. split; [done|].
      intros [Hok _]%andb_prop. by specialize (H2 Hok).
    + destruct (H1 eq_refl) as (Hout1 & Htags1 & Hst1 & Hin1 & Hok1).
      destruct (IH pre ind e1 d Hst1) as (e' & res & -> & H3 & H4).
      exists e', res. split; [done|]. split.
      * intros Hr. destruct (H3 Hr) as (Hout & Htags & Hst' & Hin & Hok).
        cbn [map concat forallb].
        rewrite Hout, Hout1, Htags, Htags1, Hok1, Hok, <- app_assoc.
        split; [done|]. split; [done|]. split; [done|].
        split; [|done]. intros Hind. rewrite (Hin Hind).
        destruct kids; auto.
      * intros [Hok Hoks]%andb_prop. auto.
Qed.

Lemma MarshalXML_repr t :
  repr h t -> forall fuel, height t < fuel -> marshals rangeOrder h fuel t.
Proof.
  induction t as [l tag attrs text kids IH] using tree_rect'.
  intros Hr [|fuel] Hf; [lia|]. inversion Hr as [? ? ? ? ? parent Hl Hkids]; subst.
  assert (Hks : Forall (marshals rangeOrder h fuel) kids).
  { rewrite Forall_forall in IH, Hkids. apply Forall_forall. intros k Hk.
    apply IH; auto. pose proof (height_kid k kids Hk). simpl in Hf. lia. }
  clear IH Hr Hf.
  intros pre ind e name nl d Hst.
  cbn [MarshalXML t_loc]. rewrite Hl. cbn [Tag Attributes Children InnerText].
  rewrite length_map. cbn [app].
  set (A := match attrs with None => [] | Some m => rangeOrder l m end).
  unfold written. cbn [element tags_ok]. fold A.
  set (start := StartElement tag A).
  destruct (EncodeToken e start) as [e1 r1] eqn:E1.
  apply (EncodeToken_start pre ind _ _ _ nl d) in E1 as [S1 S2]; [|done].
  destruct r1 as [err|].
  { (* the start tag is refused *)
    exists e1, (Some (ErrTrace err)).
    split; [by destruct (Nat.eqb (length kids) 0 && String.eqb text "")|].
    split; [done|]. intros [Hn _]%andb_prop.
    assert (Hne : tag <> "") by (by destruct (String.eqb_spec tag "")).
    by specialize (S2 Hne). }
  destruct (S1 eq_refl) as (Hne & Hout1 & Htags1 & Hst1 & Hin1).
  assert (Hneb : negb (String.eqb tag "") = true)
    by (by destruct (String.eqb_spec tag "")).
  rewrite Hneb. cbn [andb].
  destruct (Nat.eqb (length kids) 0 && String.eqb text "") eqn:Hempty.
  - (* no children and no text *)
    apply andb_prop in Hempty as [Hk Ht].
    destruct kids; [|done]. rewrite Ht.
    destruct (EncodeToken e1 (EndElement tag)) as [e2 r2] eqn:E2.
    apply (EncodeToken_end pre ind _ _ _ true d _ _ Htags1 Hne Hst1 Hin1) in E2
      as (-> & Hout2 & Htags2 & Hst2 & Hin2).
    exists e2, None. split; [done|]. split; [|done].
    intros _. rewrite Hout2, Hout1. cbn [map concat app]. rewrite <- !app_assoc. auto 10.
  - (* text, children, end tag, flush *)
    destruct (if String.eqb text "" then (e1, None)
              else EncodeToken e1 (CharData text)) as [e2 r2] eqn:E2.
    assert (X : r2 = None /\
                out e2 = out e1 ++ (if String.eqb text "" then [] else [CharData text]) /\
                same_state e1 e2).
    { destruct (String.eqb text "").
      - injection E2 as <- <-. rewrite app_nil_r. done.
      - by apply EncodeToken_text in E2. }
    clear E2. destruct X as (-> & Hout2 & X3).
    pose proof (istate_same _ _ _ _ _ _ X3 Hst1) as Hst2.
    destruct X3 as (Htags2 & _ & _ & _ & Hin2 & _).
    destruct (encodeChildren_kids fuel kids Hks pre ind e2 (d + 1)%Z Hst2)
      as (e3 & r3 & -> & K1 & K2).
    destruct r3 as [err|].
    { exists e3, (Some err). split; [done|]. split; [done|].
      intros Hok. by specialize (K2 Hok). }
    destruct (K1 eq_refl) as (Hout3 & Htags3 & Hst3 & Hin3 & Hok3).
    destruct (EncodeToken e3 (EndElement tag)) as [e4 r4] eqn:E4.
    apply (EncodeToken_end pre ind _ _ (tags e)
             (match kids with [] => true | _ :: _ => false end) d) in E4
      as (-> & Hout4 & Htags4 & Hst4 & Hin4);
      [|by rewrite Htags3, Htags2|done|done|].
    2:{ intros Hind. rewrite (Hin3 Hind), Hin2. destruct kids; auto. }
    unfold Flush.
    exists e4, None. split; [done|]. split; [|done].
    intros _. split; [|auto 10].
    rewrite Hout4, Hout3, Hout2, Hout1. rewrite <- !app_assoc. cbn [app].
    do 4 f_equal. by destruct kids.
Qed.
End MarshalTree.

Section MarshalTop.
Variable rangeOrder : nat -> gmap string string -> list (string * string).
Variable h : list Node.

Lemma element_compact t : forall d,
  element rangeOrder "" "" d t = xml_tokens (doc_of rangeOrder t).
Proof.
  induction t as [l tag attrs text kids IH] using tree_rect'. intros d.
  cbn [element doc_of xml_tokens]. f_equal.
  rewrite map_app, concat_app, map_map, <- app_assoc. f_equal.
  { by destruct (String.eqb text ""). }
  replace (match kids with [] => [] | _ :: _ => space "" "" true d end)
    with (@nil Token) by (by destruct kids).
  cbn [app]. do 2 f_equal.
  induction IH as [|k kids Hk _ IHk]; [done|]. cbn [map]. by rewrite Hk, IHk.
Qed.

Lemma encodeAndClose_repr pre ind t fuel :
  repr h t -> height t < fuel ->
  if tags_ok t
  then encodeAndClose rangeOrder (Indent newEncoder pre ind) fuel h (Some (t_loc t))
       = Done (inl (written rangeOrder pre ind false 0 t))
  else exists err,
         encodeAndClose rangeOrder (Indent newEncoder pre ind) fuel h (Some (t_loc t))
         = Done (inr err).
Proof.
  intros Hr Hf. unfold encodeAndClose.
  assert (Hst : istate pre ind (Indent newEncoder pre ind) false 0) by done.
  destruct (Encode_kid rangeOrder h fuel t (MarshalXML_repr rangeOrder h t Hr fuel Hf)
              pre ind _ false 0%Z Hst) as (e' & res & -> & H1 & H2).
  destruct (tags_ok t) eqn:Hok.
  - pose proof (H2 eq_refl) as ->.
    destruct (H1 eq_refl) as (-> & -> & _). done.
  - destruct res as [err|]; [eauto|]. by destruct (H1 eq_refl) as (_ & _ & _ & _ & ?).
Qed.

Lemma Marshal_repr t fuel :
  repr h t -> height t < fuel ->
  if tags_ok t
  then Marshal rangeOrder fuel h (Some (t_loc t))
       = Done (inl (xml_tokens (doc_of rangeOrder t)))
  else exists err, Marshal rangeOrder fuel h (Some (t_loc t)) = Done (inr err).
Proof.
  intros Hr Hf. pose proof (encodeAndClose_repr "" "" t fuel Hr Hf) as E.
  unfold written in E. rewrite element_compact in E. exact E.
Qed.

Lemma MarshalIndent_repr pre ind t fuel :
  repr h t -> height t < fuel ->
  if tags_ok t
  then MarshalIndent rangeOrder fuel h (Some (t_loc t)) pre ind
       = Done (inl (written rangeOrder pre ind false 0 t))
  else exists err,
         MarshalIndent rangeOrder fuel h (Some (t_loc t)) pre ind = Done (inr err).
Proof. apply encodeAndClose_repr. Qed.

Lemma Bytes_repr t fuel :
  repr h t -> height t < fuel ->
  Bytes rangeOrder fuel h (Some (t_loc t))
  = Done (if tags_ok t then element rangeOrder "" "  " 0 t else []).
Proof.
  intros Hr Hf. pose proof (MarshalIndent_repr "" "  " t fuel Hr Hf) as E.
  unfold Bytes. destruct (tags_ok t).
  - by rewrite E.
  - destruct E as [err ->]. done.
Qed.
End MarshalTop.

(** ** Round trip *)

Lemma attrMap_fold (l : list (string * string)) : forall m0 : gmap string string,
  NoDup l.*1 ->
  fold_left (fun m a => <[a.1 := a.2]> m) l m0 = list_to_map l ∪ m0.
Proof.
  induction l as [|[k v] l IH]; intros m0 Hnd.
  - simpl. by rewrite (left_id_L ∅ (∪)).
  - rewrite fmap_cons in Hnd. apply NoDup_cons in Hnd as [Hk Hnd].
    cbn [fold_left list_to_map foldr fst snd]. rewrite IH by done.
    rewrite <- insert_union_l. symmetry. apply insert_union_r.
    by apply not_elem_of_list_to_map_1.
Qed.

Lemma attrMap_range rangeOrder l (m : gmap string string) :
  range_ok rangeOrder -> attrMap (rangeOrder l m) = m.
Proof.
  intros Hok. unfold attrMap. rewrite attrMap_fold.
  - rewrite (right_id_L ∅ (∪)). symmetry. apply list_to_map_flip. by symmetry.
  - rewrite (Hok l m). apply NoDup_fst_map_to_list.
Qed.

Lemma filter_range rangeOrder l (m : gmap string string) :
  range_ok rangeOrder -> m !! "" = None ->
  filter (fun a : string * string => a.1 ≠ "") (rangeOrder l m) = rangeOrder l m.
Proof.
  intros Hok Hm. apply filter_all. apply Forall_forall. intros [k v] Hin.
  rewrite (Hok l m) in Hin. apply elem_of_map_to_list in Hin. simpl.
  intros ->. congruence.
Qed.

Lemma elems_doc rangeOrder (pre : list xml) kids :
  elems pre = [] ->
  elems (pre ++ map (doc_of rangeOrder) kids) = map (doc_of rangeOrder) kids.
Proof.
  intros Hpre. unfold elems in *. rewrite List.filter_app, Hpre. simpl.
  induction kids as [|[] kids IH]; simpl; [done|]. by rewrite IH.
Qed.

Lemma texts_doc rangeOrder kids : texts (map (doc_of rangeOrder) kids) = [].
Proof. induction kids as [|[] kids IH]; simpl; done. Qed.

Lemma names_ok_tags_ok t : names_ok t = true -> tags_ok t = true.
Proof.
  induction t as [l tag attrs text kids IH] using tree_rect'. simpl.
  intros [[Ht _]%andb_prop Hk]%andb_prop. rewrite Ht. simpl.
  rewrite forallb_forall in Hk. apply forallb_forall. intros k Hin.
  rewrite Forall_forall in IH. apply IH; [by apply list_elem_of_In|auto].
Qed.

Lemma parsed_same rangeOrder t :
  range_ok rangeOrder -> names_ok t = true ->
  forall t', parsed (doc_of rangeOrder t) t' -> same_content t t'.
Proof.
  intros Hok. induction t as [l tag attrs text kids IH] using tree_rect'.
  simpl. intros [[Ht Ha]%andb_prop Hk]%andb_prop t' Hp.
  apply bool_decide_eq_true in Ha.
  inversion Hp as [? ? ? l' kids' Hkids]; subst. constructor.
  - destruct attrs as [m|]; simpl in *; [|done].
    rewrite filter_range by done. by rewrite attrMap_range.
  - unfold lastText.
    assert (E : texts ((if String.eqb text "" then [] else [XText text])
                       ++ map (doc_of rangeOrder) kids)
                = if String.eqb text "" then [] else [text]).
    { destruct (String.eqb text ""); simpl; by rewrite texts_doc. }
    rewrite E. destruct (String.eqb_spec text "") as [->|]; done.
  - rewrite elems_doc in Hkids by (by destruct (String.eqb text "")).
    clear Hp. revert kids' Hkids. rewrite forallb_forall in Hk.
    induction IH as [|k kids Hk1 _ IHk]; intros kids' Hkids.
    + inversion Hkids. constructor.
    + inversion Hkids as [|? ? ? ks' Hp1 Hps]; subst. constructor.
      * apply Hk1; [apply Hk; by left|done].
      * apply IHk; [|done]. intros x Hx. apply Hk. by right.
Qed.

(** ** Reading the output back *)

Lemma coalesced_text_tag x l :
  is_prolog <$> head (coalesced l) = Some false -> String.eqb x "" = false ->
  coalesced (CharData x :: l) = CharData x :: coalesced l.
Proof.
  cbn [coalesced]. destruct (coalesced l) as [|[] r]; simpl; intros Ht Hx; try done;
    by rewrite Hx.
Qed.

Lemma coalesced_text_text x l y r :
  coalesced l = CharData y :: r -> coalesced (CharData x :: l) = CharData (x +:+ y) :: r.
Proof. intros E. cbn [coalesced]. by rewrite E. Qed.

(** Without indentation the output is read back token by token. *)
Lemma coalesced_doc_of rangeOrder t : forall rest,
  coalesced (xml_tokens (doc_of rangeOrder t) ++ rest)
  = xml_tokens (doc_of rangeOrder t) ++ coalesced rest.
Proof.
  induction t as [l tag attrs text kids IH] using tree_rect'. intros rest.
  cbn [doc_of xml_tokens app coalesced]. f_equal.
  rewrite map_app, concat_app, <- ?app_assoc.
  assert (K : forall rest',
            coalesced (concat (map xml_tokens (map (doc_of rangeOrder) kids))
                   ++ EndElement tag :: rest')
            = concat (map xml_tokens (map (doc_of rangeOrder) kids))
              ++ EndElement tag :: coalesced rest').
  { intros rest'. induction IH as [|k kids Hk _ IHk]; [done|].
    cbn [map concat]. by rewrite <- ?app_assoc, Hk, IHk. }
  cbn [app]. destruct (String.eqb text "") eqn:Hx; cbn [map concat app xml_tokens].
  - apply K.
  - rewrite coalesced_text_tag; [by rewrite K| |done].
    rewrite K. by destruct kids as [|[] ?].
Qed.

Section Indented.
Variable rangeOrder : nat -> gmap string string -> list (string * string).
Variables pre ind : string.
Hypothesis Hind : indenting pre ind = true.

Lemma indentation_newline d :
  String.eqb (indentation pre ind true d) "" = false.
Proof. done. Qed.

Lemma space_indenting d :
  space pre ind true d = [CharData (indentation pre ind true d)].
Proof. unfold space. by rewrite Hind, indentation_newline. Qed.

(** With indentation the output is read back as the indented
    document. *)
Lemma coalesced_element t : forall d rest,
  coalesced (element rangeOrder pre ind d t ++ rest)
  = xml_tokens (indented rangeOrder pre ind d t) ++ coalesced rest.
Proof.
  induction t as [l tag attrs text kids IH] using tree_rect'. intros d rest.
  cbn [element indented xml_tokens app coalesced]. f_equal.
  rewrite <- ?app_assoc.
  destruct kids as [|k ks].
  { cbn [map concat app]. destruct (String.eqb text "") eqn:Hx; simpl; [done|].
    by rewrite Hx. }
  rewrite !space_indenting.
  set (w1 := indentation pre ind true (d + 1)).
  set (w0 := indentation pre ind true d).
  set (kid := fun k' => [CharData w1] ++ element rangeOrder pre ind (d + 1) k').
  set (ikid := fun k' => [XText w1; indented rangeOrder pre ind (d + 1) k']).
  assert (K : forall ks', Forall (fun k' => forall d rest,
                 coalesced (element rangeOrder pre ind d k' ++ rest)
                 = xml_tokens (indented rangeOrder pre ind d k') ++ coalesced rest) ks' ->
            coalesced (concat (map kid ks') ++ CharData w0 :: EndElement tag :: rest)
            = concat (map xml_tokens (concat (map ikid ks')))
              ++ CharData w0 :: EndElement tag :: coalesced rest).
  { induction 1 as [|k' ks' Hk' _ IHks].
    - cbn [map concat app]. by rewrite coalesced_text_tag.
    - cbn [map concat]. unfold kid at 1, ikid at 1.
      cbn [map concat xml_tokens app]. rewrite <- ?app_assoc.
      rewrite coalesced_text_tag; [|rewrite Hk'; by destruct k'|done].
      by rewrite Hk', IHks. }
  cbn [map concat]. unfold kid at 1. fold ikid.
  rewrite map_app, concat_app. cbn [map concat xml_tokens app].
  rewrite <- ?app_assoc. cbn [app].
  assert (E : coalesced (CharData w1 :: element rangeOrder pre ind (d + 1) k
                     ++ concat (map kid ks)
                     ++ CharData w0 :: EndElement tag :: rest)
              = CharData w1
                :: xml_tokens (indented rangeOrder pre ind (d + 1) k)
                ++ concat (map xml_tokens (concat (map ikid ks)))
                ++ CharData w0 :: EndElement tag :: coalesced rest).
  { apply Forall_cons in IH as [Hk Hks].
    rewrite coalesced_text_tag; [|rewrite Hk; by destruct k|done].
    by rewrite Hk, K. }
  destruct (String.eqb_spec text "") as [->|Hx]; cbn [app].
  - exact E.
  - by apply coalesced_text_text.
Qed.

Lemma elems_indented d k ks :
  elems (XText (indentation pre ind true (d + 1))
         :: indented rangeOrder pre ind (d + 1) k
         :: concat (map (fun k' => [XText (indentation pre ind true (d + 1));
                                    indented rangeOrder pre ind (d + 1) k']) ks)
         ++ [XText (indentation pre ind true d)])
  = map (indented rangeOrder pre ind (d + 1)) (k :: ks).
Proof.
  unfold elems. cbn [List.filter is_elem map].
  destruct k as [? ? ? ? ?]. cbn [indented is_elem]. f_equal.
  induction ks as [|[? ? ? ? ?] ks IH]; [done|].
  cbn [map concat app List.filter is_elem indented]. by rewrite IH.
Qed.

Lemma texts_indented x d k ks :
  last (texts (XText x
         :: indented rangeOrder pre ind (d + 1) k
         :: concat (map (fun k' => [XText (indentation pre ind true (d + 1));
                                    indented rangeOrder pre ind (d + 1) k']) ks)
         ++ [XText (indentation pre ind true d)]))
  = Some (indentation pre ind true d).
Proof.
  assert (T : forall a b, texts (a ++ b) = texts a ++ texts b).
  { induction a as [|[] a IH]; intros b; simpl; by rewrite ?IH. }
  change (XText x :: indented rangeOrder pre ind (d + 1) k :: ?r)
    with ([XText x; indented rangeOrder pre ind (d + 1) k] ++ r).
  rewrite !T, !app_assoc. cbn [texts]. by rewrite last_snoc.
Qed.

End Indented.

Lemma AllSpace_app a b : AllSpace a -> AllSpace b -> AllSpace (a +:+ b).
Proof.
  induction 1 as [|r a Hr _ IH]; intros Hb; [done|].
  rewrite append_assoc. constructor; auto.
Qed.

Lemma AllSpace_copies n s : AllSpace s -> AllSpace (copies n s).
Proof.
  intros Hs. induction n as [|n IH]; simpl; [constructor|by apply AllSpace_app].
Qed.

Lemma AllSpace_indentation pre ind d :
  AllSpace pre -> AllSpace ind -> AllSpace (indentation pre ind true d).
Proof.
  intros Hp Hi. unfold indentation. apply AllSpace_app.
  - change newline with (newline +:+ ""). by repeat constructor.
  - apply AllSpace_app; [done|by apply AllSpace_copies].
Qed.

Lemma AllSpace_two_spaces : AllSpace "  ".
Proof.
  change "  " with (" " +:+ " " +:+ ""). by repeat constructor.
Qed.

(** What is parsed from the indented document of a tree: a node that
    has children gets the white space before its end tag as its text. *)
Lemma parsed_indented rangeOrder pre ind t :
  range_ok rangeOrder -> AllSpace pre -> AllSpace ind -> names_ok t = true ->
  forall d t', parsed (indented rangeOrder pre ind d t) t' -> indented_content t t'.
Proof.
  intros Hok Hpre Hi. induction t as [l tag attrs text kids IH] using tree_rect'.
  simpl. intros [[Ht Ha]%andb_prop Hk]%andb_prop d t' Hp.
  apply bool_decide_eq_true in Ha.
  inversion Hp as [? ? ? l' kids' Hkids]; subst. constructor.
  - destruct attrs as [m|]; simpl in *; [|done].
    rewrite filter_range by done. by rewrite attrMap_range.
  - unfold lastText. destruct kids as [|k ks].
    + destruct (String.eqb_spec text "") as [->|]; done.
    + rewrite texts_indented. apply TrimSpace_all_space.
      by apply AllSpace_indentation.
  - clear Hp. rewrite forallb_forall in Hk. destruct kids as [|k ks].
    { assert (E : elems (if String.eqb text "" then [] else [XText text]) = [])
        by (by destruct (String.eqb text "")).
      rewrite E in Hkids. inversion Hkids. constructor. }
    change (XText (text +:+ ?w) :: ?r) with ([XText (text +:+ w)] ++ r) in Hkids.
    unfold elems in Hkids. rewrite List.filter_app in Hkids. cbn [List.filter is_elem app] in Hkids.
    pose proof (elems_indented rangeOrder pre ind d k ks) as E. unfold elems in E.
    cbn [List.filter is_elem] in E. rewrite E in Hkids. clear E.
    revert kids' Hkids. generalize (k :: ks) IH Hk. clear. intros kids IH.
    induction IH as [|k kids Hk1 _ IHk]; intros Hk kids' Hkids.
    + inversion Hkids. constructor.
    + inversion Hkids as [|? ? ? ks' Hp1 Hps]; subst. constructor.
      * eapply Hk1; [apply Hk; by left|done].
      * apply IHk; [|done]. intros x Hx. apply Hk. by right.
Qed.

Lemma indented_same t t' :
  text_in_leaves t = true -> indented_content t t' -> same_content t t'.
Proof.
  revert t'. induction t as [l tag attrs text kids IH] using tree_rect'.
  intros t' Hleaf Hc. inversion Hc as [? l2 ? ? a2 ? x2 ? k2 Ha Hx Hkids]; subst.
  constructor; [done| |].
  - destruct kids as [|k ks]; [done|]. cbn [text_in_leaves] in Hleaf.
    apply andb_prop in Hleaf as [Hx _]. by apply String.eqb_eq in Hx.
  - assert (Hl : forallb text_in_leaves kids = true).
    { destruct kids as [|k ks]; [done|]. cbn [text_in_leaves] in Hleaf.
      by apply andb_prop in Hleaf as [_ ?]. }
    clear Hc Hleaf. rewrite forallb_forall in Hl. revert k2 Hkids.
    induction IH as [|k kids Hk1 _ IHk]; intros k2 Hkids.
    + inversion Hkids. constructor.
    + inversion Hkids as [|? ? ? ks' Hp1 Hps]; subst. constructor.
      * apply Hk1; [apply Hl; by left|done].
      * apply IHk; [|done]. intros x Hx. apply Hl. by right.
Qed.

(** ** The text of the output of a plain tree *)

Lemma plain_name_ne s : plain_name s = true -> s <> "".
Proof. by destruct s. Qed.

Lemma plain_names_ok t : plain t = true -> names_ok t = true.
Proof.
  induction t as [l tag attrs text kids IH] using tree_rect'. cbn [plain names_ok].
  intros [[[Ht Ha]%andb_prop _]%andb_prop Hk]%andb_prop.
  apply andb_true_intro. split; [apply andb_true_intro; split|].
  - apply plain_name_ne in Ht. by destruct (String.eqb_spec tag "").
  - apply bool_decide_eq_true. destruct (default ∅ attrs !! "") as [v|] eqn:E; [|done].
    apply elem_of_map_to_list in E. rewrite forallb_forall in Ha.
    apply list_elem_of_In, Ha in E. done.
  - rewrite forallb_forall in Hk. apply forallb_forall. intros k Hin.
    rewrite Forall_forall in IH. apply IH; [by apply list_elem_of_In|auto].
Qed.

Lemma copies_empty n : copies n "" = "".
Proof. induction n as [|n IH]; [done|]. cbn [copies]. by rewrite IH. Qed.

Lemma plain_text_spaces n : plain_text (copies n "  ") = true.
Proof.
  induction n as [|n IH]; [done|]. cbn [copies].
  change ("  " +:+ copies n "  ") with (String " " (String " " (copies n "  "))).
  cbn [plain_text]. exact IH.
Qed.

(** The white space of indentation, without a prefix and with no
    indentation or that of [Bytes], is plain text. *)
Lemma plain_text_indentation ind nl d :
  ind = "" \/ ind = "  " -> plain_text (indentation "" ind nl d) = true.
Proof.
  intros Hi. unfold indentation.
  assert (E : plain_text (copies (Z.to_nat d) ind) = true).
  { destruct Hi as [-> | ->]; [by rewrite copies_empty|apply plain_text_spaces]. }
  destruct nl; [|exact E].
  change (newline +:+ "" +:+ copies (Z.to_nat d) ind)
    with (String "010" (copies (Z.to_nat d) ind)).
  cbn [plain_text]. exact E.
Qed.

Lemma readable_space ind nl d :
  ind = "" \/ ind = "  " -> forallb readable (space "" ind nl d) = true.
Proof.
  intros Hi. unfold space. destruct (indenting "" ind); [|done].
  destruct (String.eqb _ ""); [done|]. cbn [forallb readable].
  by rewrite plain_text_indentation.
Qed.

Lemma plain_attr_range rangeOrder l (m : gmap string string) :
  range_ok rangeOrder -> forallb plain_attr (map_to_list m) = true ->
  forallb plain_attr (filter (fun a : string * string => a.1 ≠ "") (rangeOrder l m)) = true.
Proof.
  intros Hok Hm. rewrite forallb_forall in Hm. apply forallb_forall.
  intros a [_ Hin]%list_elem_of_In%list_elem_of_filter.
  apply Hm, list_elem_of_In. by rewrite <- (Hok l m).
Qed.

(** Every token [MarshalXML] writes for a plain tree is readable. *)
Lemma readable_element rangeOrder ind t :
  range_ok rangeOrder -> ind = "" \/ ind = "  " -> plain t = true ->
  forall d, forallb readable (element rangeOrder "" ind d t) = true.
Proof.
  intros Hok Hi. induction t as [l tag attrs text kids IH] using tree_rect'.
  cbn [plain]. intros [[[Ht Ha]%andb_prop Hx]%andb_prop Hk]%andb_prop d.
  cbn [element forallb readable]. rewrite Ht. cbn [andb].
  apply andb_true_intro. split.
  { destruct attrs as [m|]; [|done]. by apply plain_attr_range. }
  rewrite !forallb_app.
  apply andb_true_intro. split; [|apply andb_true_intro; split;
                                   [|apply andb_true_intro; split]].
  - destruct (String.eqb text ""); [done|]. cbn [forallb readable]. by rewrite Hx.
  - rewrite forallb_forall in Hk. clear Ha Hx.
    induction IH as [|k kids Hk1 _ IHk]; [done|].
    cbn [map concat]. rewrite !forallb_app.
    apply andb_true_intro. split; [apply andb_true_intro; split|].
    + by apply readable_space.
    + apply Hk1. apply Hk. by left.
    + apply IHk. intros x Hx. apply Hk. by right.
  - destruct kids; [done|]. by apply readable_space.
  - cbn [forallb readable]. by rewrite Ht.
Qed.

Lemma lexed_readable l :
  forallb readable l = true -> lexed l = Some (coalesced l).
Proof. unfold lexed. by intros ->. Qed.

(** The package's [Bytes] on a node with text and a child, and the
    indented text read back: the text of the node is gone. *)
Lemma indentation_loses_text :
  Bytes orderA 2 text_and_child (Some 0)
  = Done [StartElement "a" []; CharData "hello"; CharData (newline +:+ "  ");
          StartElement "b" []; EndElement "b"; CharData newline; EndElement "a"] /\
  lexed [StartElement "a" []; CharData "hello"; CharData (newline +:+ "  ");
         StartElement "b" []; EndElement "b"; CharData newline; EndElement "a"]
  = Some [StartElement "a" []; CharData ("hello" +:+ newline +:+ "  ");
          StartElement "b" []; EndElement "b"; CharData newline; EndElement "a"] /\
  Unmarshal (map inl [StartElement "a" []; CharData ("hello" +:+ newline +:+ "  ");
                      StartElement "b" []; EndElement "b"; CharData newline;
                      EndElement "a"]) [zeroNode] 0
  = Done ([mkNode "a" None [Some 1] "" (Some ∅); mkNode "b" (Some 0) [] "" (Some ∅)], None) /\
  InnerText <$> text_and_child !! 0 = Some "hello".
Proof. repeat split; vm_compute; reflexivity. Qed.

(** C1, amended.  Round trip: for a tree in the store whose tags and
    attribute names are XML names in ASCII without a colon, and whose
    text and attribute values are made of the characters of XML, and
    for any order of iteration over the attributes, [xml.Marshal]
    succeeds, and [xml.Unmarshal] of the markup builds a tree with the
    same tags, the same attributes, the same children in the same
    order, and the same text up to the white space around it.  The
    indented markup of [Bytes] is read back as the same tree except
    that a node with children has no text: the same tree when no node
    has both children and text. *)
Theorem round_trip rangeOrder h t fuel :
  range_ok rangeOrder -> repr h t -> plain t = true -> height t < fuel ->
  (exists markup tokens h' t',
     Marshal rangeOrder fuel h (Some (t_loc t)) = Done (inl markup) /\
     lexed markup = Some tokens /\
     Unmarshal (map inl tokens) [zeroNode] 0 = Done (h', None) /\
     repr h' t' /\ t_loc t' = 0 /\ same_content t t') /\
  (exists markup tokens h' t',
     MarshalIndent rangeOrder fuel h (Some (t_loc t)) "" "  " = Done (inl markup) /\
     Bytes rangeOrder fuel h (Some (t_loc t)) = Done markup /\
     lexed markup = Some tokens /\
     Unmarshal (map inl tokens) [zeroNode] 0 = Done (h', None) /\
     repr h' t' /\ t_loc t' = 0 /\ indented_content t t' /\
     (text_in_leaves t = true -> same_content t t')).
Proof.
  intros Hok Hr Hpl Hf. pose proof (plain_names_ok t Hpl) as Hn. split.
  - pose proof (Marshal_repr rangeOrder h t fuel Hr Hf) as E.
    rewrite (names_ok_tags_ok t Hn) in E.
    pose proof (coalesced_doc_of rangeOrder t []) as L. rewrite !app_nil_r in L.
    pose proof (readable_element rangeOrder "" t Hok (or_introl eq_refl) Hpl 0) as R.
    rewrite element_compact in R. apply lexed_readable in R. rewrite L in R.
    destruct t as [l tag attrs text kids]. cbn [doc_of] in E, R.
    set (A := filter _ _) in E, R. set (body := _ ++ map _ kids) in E, R.
    destruct (Unmarshal_document [] tag A body [] [zeroNode] 0 zeroNode eq_refl eq_refl)
      as (h' & kids' & Eu & Hroot & Hpar & Hrep & _).
    simpl in Eu. rewrite app_nil_r in Eu.
    set (t' := TNode 0 tag (Some (attrMap A)) (lastText "" body) kids').
    exists (xml_tokens (XElem tag A body)), (xml_tokens (XElem tag A body)), h', t'.
    split; [exact E|]. split; [exact R|]. split; [exact Eu|].
    split; [by econstructor|]. split; [done|].
    apply (parsed_same rangeOrder (TNode l tag attrs text kids) Hok Hn).
    by constructor.
  - pose proof (MarshalIndent_repr rangeOrder h "" "  " t fuel Hr Hf) as E.
    pose proof (Bytes_repr rangeOrder h t fuel Hr Hf) as B.
    rewrite (names_ok_tags_ok t Hn) in E, B.
    pose proof (coalesced_element rangeOrder "" "  " eq_refl t 0 []) as L.
    rewrite !app_nil_r in L.
    pose proof (readable_element rangeOrder "  " t Hok (or_intror eq_refl) Hpl 0) as R.
    apply lexed_readable in R. rewrite L in R.
    assert (P : forall t', parsed (indented rangeOrder "" "  " 0 t) t' ->
                           indented_content t t').
    { apply parsed_indented; [done|constructor|apply AllSpace_two_spaces|done]. }
    destruct t as [l tag attrs text kids]. cbn [indented] in R, P.
    set (A := filter _ _) in R, P. set (body := match kids with [] => _ | _ => _ end) in R, P.
    destruct (Unmarshal_document [] tag A body [] [zeroNode] 0 zeroNode eq_refl eq_refl)
      as (h' & kids' & Eu & Hroot & Hpar & Hrep & _).
    simpl in Eu. rewrite app_nil_r in Eu.
    set (t' := TNode 0 tag (Some (attrMap A)) (lastText "" body) kids').
    exists (element rangeOrder "" "  " 0 (TNode l tag attrs text kids)),
           (xml_tokens (XElem tag A body)), h', t'.
    split; [exact E|]. split; [exact B|]. split; [exact R|]. split; [exact Eu|].
    split; [by econstructor|]. split; [done|].
    assert (C : indented_content (TNode l tag attrs text kids) t')
      by (apply P; by constructor).
    split; [exact C|]. intros Hl. by apply indented_same.
Qed.

Lemma round_trip_witness :
  plain sample_tree = true /\ height sample_tree < 3 /\
  exists markup tokens h' t',
    Bytes orderA 3 sample_store (Some 0) = Done markup /\
    lexed markup = Some tokens /\
    Unmarshal (map inl tokens) [zeroNode] 0 = Done (h', None) /\
    repr h' t' /\ t_loc t' = 0 /\ same_content sample_tree t'.
Proof.
  assert (Hp : plain sample_tree = true) by (vm_compute; reflexivity).
  split; [exact Hp|]. split; [simpl; lia|].
  destruct (round_trip orderA sample_store sample_tree 3 orderA_ok sample_repr Hp)
    as [_ (markup & tokens & h' & t' & _ & B & X & U & R & L & _ & S)]; [simpl; lia|].
  exists markup, tokens, h', t'. split; [exact B|]. split; [exact X|]. split; [exact U|].
  split; [exact R|]. split; [exact L|]. apply S. reflexivity.
Defined.

(** ** Errors of the serializer *)

(** C2.  The order of the attributes in the output is the order in
    which [range] visits the map: two admissible orders give two
    different outputs for the same node. *)
Theorem attribute_order_follows_range :
  range_ok orderA /\ range_ok orderB /\
  Marshal orderA 2 library_store (Some 0)
  = Done (inl [StartElement "library" [("name", "City Library"); ("location", "Downtown")];
               EndElement "library"]) /\
  Marshal orderB 2 library_store (Some 0)
  = Done (inl [StartElement "library" [("location", "Downtown"); ("name", "City Library")];
               EndElement "library"]).
Proof.
  split; [apply orderA_ok|]. split; [apply orderB_ok|]. split; vm_compute; reflexivity.
Qed.

(** C3 as the specification states it does not hold: for a node with an
    empty tag marshalling fails, and [Bytes] and [String] return no
    bytes and no error. *)
Lemma Bytes_discards_error :
  MarshalIndent orderA 2 [zeroNode] (Some 0) "" "  "
  = Done (inr (ErrTrace ErrStartNoName)) /\
  Bytes orderA 2 [zeroNode] (Some 0) = Done [] /\
  Node_String orderA 2 [zeroNode] (Some 0) = Done [].
Proof. repeat split. Qed.

(** C3, amended.  [MarshalXML] into an encoder that writes to memory
    returns on a tree, and its result tells whether a tag is empty: it
    is an error when some node of the subtree has an empty tag, and it
    is nil when none has, after the markup of the whole subtree went
    to the encoder, with the indentation of the encoder.
    [xml.MarshalIndent] returns that error to [Bytes].  [Bytes] and
    [String] yield the indented markup when marshalling succeeds; when
    it fails they yield no bytes and drop the error. *)
Theorem serialization_errors rangeOrder h t fuel :
  repr h t -> height t < fuel ->
  (forall e name, exists e' res,
     MarshalXML rangeOrder fuel h e (Some (t_loc t)) name [] = Done (e', res) /\
     (res = None ->
        tags_ok t = true /\
        out e' = out e ++ written rangeOrder (prefix e) (indent e) (putNewline e) (depth e) t) /\
     (tags_ok t = true -> res = None)) /\
  (tags_ok t = true ->
     MarshalIndent rangeOrder fuel h (Some (t_loc t)) "" "  "
     = Done (inl (element rangeOrder "" "  " 0 t)) /\
     Bytes rangeOrder fuel h (Some (t_loc t)) = Done (element rangeOrder "" "  " 0 t) /\
     Node_String rangeOrder fuel h (Some (t_loc t))
     = Done (element rangeOrder "" "  " 0 t)) /\
  (tags_ok t = false ->
     (exists err, MarshalIndent rangeOrder fuel h (Some (t_loc t)) "" "  "
                  = Done (inr err)) /\
     Bytes rangeOrder fuel h (Some (t_loc t)) = Done [] /\
     Node_String rangeOrder fuel h (Some (t_loc t)) = Done []).
Proof.
  intros Hr Hf. split; [|split].
  - intros e name.
    assert (Hst : istate (prefix e) (indent e) e (putNewline e) (depth e)) by done.
    destruct (MarshalXML_repr rangeOrder h t Hr fuel Hf _ _ e name _ _ Hst)
      as (e1 & res & E1 & H1 & H2).
    exists e1, res. split; [exact E1|]. split; [|exact H2].
    intros Hres. destruct (H1 Hres) as (? & _ & _ & _ & ?). done.
  - intros Hok. pose proof (MarshalIndent_repr rangeOrder h "" "  " t fuel Hr Hf) as E.
    pose proof (Bytes_repr rangeOrder h t fuel Hr Hf) as B.
    rewrite Hok in E, B. unfold Node_String. by rewrite B.
  - intros Hok. pose proof (MarshalIndent_repr rangeOrder h "" "  " t fuel Hr Hf) as E.
    pose proof (Bytes_repr rangeOrder h t fuel Hr Hf) as B.
    rewrite Hok in E, B. destruct E as [err E].
    unfold Node_String. rewrite B. eauto.
Qed.

Lemma serialization_errors_witness :
  height sample_tree < 3 /\
  Bytes orderA 3 sample_store (Some 0)
  = Done [StartElement "a" [("x", "1")];
          CharData (newline +:+ "  "); StartElement "b" []; CharData "hello"; EndElement "b";
          CharData (newline +:+ "  "); StartElement "b" []; CharData "world"; EndElement "b";
          CharData newline; EndElement "a"].
Proof.
  assert (H : height sample_tree < 3) by (simpl; lia).
  split; [exact H|].
  destruct (serialization_errors orderA sample_store sample_tree 3 sample_repr H)
    as (_ & Hb & _).
  exact (proj1 (proj2 (Hb eq_refl))).
Defined.

(** * Further properties of the package *)


(** ** Attributes *)

Lemma same_shape_attrs h l nd a :
  h !! l = Some nd -> same_shape h (<[l := set_Attributes a nd]> h).
Proof.
  intros Hl y. rewrite (lookup_insert_heap h l _ nd Hl y).
  case_decide as E; [subst y; by rewrite Hl|done].
Qed.

(** X1.  [SetAttribute] on a node, then [GetAttribute] and
    [HasAttribute]: the attribute is there with the value, also when the
    map was nil and when the value is empty; the other attributes of the
    node, and the tags, parents, children and text of all nodes, are as
    before. *)
Theorem SetAttribute_then_get h l nd name value :
  h !! l = Some nd ->
  exists h1,
    SetAttribute h (Some l) name value = Some h1 /\
    GetAttribute h1 (Some l) name = Some value /\
    HasAttribute h1 (Some l) name = Some true /\
    (forall other, other <> name ->
       GetAttribute h1 (Some l) other = GetAttribute h (Some l) other /\
       HasAttribute h1 (Some l) other = HasAttribute h (Some l) other) /\
    same_shape h h1.
Proof.
  intros Hl. unfold SetAttribute, GetAttribute, HasAttribute, store. simpl.
  rewrite Hl. simpl. eexists. split; [done|].
  rewrite (lookup_insert_heap h l _ nd Hl l). rewrite decide_True by done. simpl.
  rewrite lookup_insert_eq. simpl. split; [done|]. split; [done|].
  split; [|by apply same_shape_attrs].
  intros other Hne. rewrite lookup_insert_ne by done.
  destruct (Attributes nd) as [m|]; simpl; [done|]. by rewrite lookup_empty.
Qed.

Lemma SetAttribute_then_get_witness :
  exists h1,
    SetAttribute attr_store (Some 0) "k" "" = Some h1 /\
    GetAttribute h1 (Some 0) "k" = Some "" /\
    HasAttribute h1 (Some 0) "k" = Some true.
Proof.
  destruct (SetAttribute_then_get attr_store 0 _ "k" "" eq_refl)
    as (h1 & E & G & H & _).
  exists h1. split; [exact E|]. split; [exact G|exact H].
Defined.

(** X2.  [RemoveAttribute] on a node: afterwards [HasAttribute] is
    false and [GetAttribute] empty for the name, the other attributes
    are as before, and a nil map stays nil: the store does not
    change. *)
Theorem RemoveAttribute_then_get h l nd name :
  h !! l = Some nd ->
  exists h1,
    RemoveAttribute h (Some l) name = Some h1 /\
    GetAttribute h1 (Some l) name = Some "" /\
    HasAttribute h1 (Some l) name = Some false /\
    (forall other, other <> name ->
       GetAttribute h1 (Some l) other = GetAttribute h (Some l) other /\
       HasAttribute h1 (Some l) other = HasAttribute h (Some l) other) /\
    same_shape h h1 /\
    (Attributes nd = None -> h1 = h).
Proof.
  intros Hl. unfold RemoveAttribute, GetAttribute, HasAttribute, store. simpl.
  rewrite Hl. simpl. eexists. split; [done|].
  rewrite (lookup_insert_heap h l _ nd Hl l). rewrite decide_True by done. simpl.
  destruct (Attributes nd) as [m|] eqn:Ha; simpl.
  - rewrite lookup_delete_eq. simpl. split; [done|]. split.
    { first [done | rewrite bool_decide_eq_false_2; [done|]; by intros [? ?]]. }
    split; [|split; [by apply same_shape_attrs|done]].
    intros other Hne. by rewrite lookup_delete_ne.
  - rewrite Ha. split; [done|]. split; [done|]. split; [done|].
    split; [|intros _; by apply list_insert_id].
    intros y. by rewrite list_insert_id.
Qed.

Lemma RemoveAttribute_then_get_witness :
  exists h1,
    RemoveAttribute attr_store (Some 1) "k" = Some h1 /\
    GetAttribute attr_store (Some 1) "k" = Some "v" /\
    GetAttribute h1 (Some 1) "k" = Some "" /\
    HasAttribute h1 (Some 1) "k" = Some false.
Proof.
  destruct (RemoveAttribute_then_get attr_store 1 _ "k" eq_refl)
    as (h1 & E & G & H & _).
  exists h1. split; [exact E|]. split; [reflexivity|]. split; [exact G|exact H].
Defined.

(** X3.  Calls of [SetAttribute] on one node compose as updates of a
    map: of two values set for one name the later stays, as if set
    alone; calls for different names can be swapped; and a call
    repeated changes nothing. *)
Theorem SetAttribute_compose h l nd a b x y :
  h !! l = Some nd ->
  exists hx hy hxy hyx hxx,
    SetAttribute h (Some l) a x = Some hx /\
    SetAttribute h (Some l) b y = Some hy /\
    SetAttribute hx (Some l) b y = Some hxy /\
    SetAttribute hy (Some l) a x = Some hyx /\
    SetAttribute hx (Some l) a x = Some hxx /\
    hxx = hx /\
    (a = b -> hxy = hy) /\
    (a <> b -> hxy = hyx).
Proof.
  intros Hl. unfold SetAttribute, store. simpl. rewrite Hl. simpl.
  assert (L : forall x0 : Node, <[l := x0]> h !! l = Some x0).
  { intros x0. rewrite (lookup_insert_heap h l x0 nd Hl l). by rewrite decide_True. }
  do 5 eexists. do 2 (split; [reflexivity|]). rewrite !L. simpl.
  do 3 (split; [reflexivity|]).
  rewrite !list_insert_insert_eq. unfold set_Attributes. simpl.
  split; [by rewrite insert_insert_eq|]. split.
  - intros ->. by rewrite insert_insert_eq.
  - intros Hne. by rewrite insert_insert_ne.
Qed.

Lemma SetAttribute_compose_witness :
  exists hx hy hxy hyx,
    SetAttribute attr_store (Some 1) "k" "1" = Some hx /\
    SetAttribute attr_store (Some 1) "j" "2" = Some hy /\
    SetAttribute hx (Some 1) "j" "2" = Some hxy /\
    SetAttribute hy (Some 1) "k" "1" = Some hyx /\
    hxy = hyx.
Proof.
  destruct (SetAttribute_compose attr_store 1 _ "k" "j" "1" "2" eq_refl)
    as (hx & hy & hxy & hyx & hxx & E1 & E2 & E3 & E4 & _ & _ & _ & C).
  exists hx, hy, hxy, hyx. repeat (split; [assumption|]). by apply C.
Defined.

(** ** AppendChild *)

(** The store after [AppendChild]; [n] and [node] may be the same
    node. *)
Lemma AppendChild_store h l c nd nc :
  h !! l = Some nd -> h !! c = Some nc ->
  AppendChild h (Some l) (Some c)
  = Some (<[l := set_Children
                   (Children (if decide (l = c) then set_Parent (Some l) nc else nd)
                    ++ [Some c])
                   (if decide (l = c) then set_Parent (Some l) nc else nd)]>
            (<[c := set_Parent (Some l) nc]> h),
          Some c).
Proof.
  intros Hl Hc. unfold AppendChild, store. simpl. rewrite Hc. simpl.
  rewrite (lookup_insert_heap h c _ nc Hc l).
  destruct (decide (l = c)) as [->|Hne].
  - rewrite decide_True by done. done.
  - rewrite decide_False by done. rewrite Hl. done.
Qed.

(** X4.  [AppendChild] on two nodes of the store returns the child, sets
    its [Parent] to the receiver and puts it last in the receiver's
    [Children].  Nothing else changes: no node is added, and the node
    the child was a child of before still has it among its children. *)
Theorem AppendChild_links h l c nd nc :
  h !! l = Some nd -> h !! c = Some nc ->
  exists h1,
    AppendChild h (Some l) (Some c) = Some (h1, Some c) /\
    length h1 = length h /\
    (forall y, Parent <$> h1 !! y
               = if decide (y = c) then Some (Some l) else Parent <$> h !! y) /\
    (forall y, Children <$> h1 !! y
               = if decide (y = l) then Some (Children nd ++ [Some c])
                 else Children <$> h !! y) /\
    (forall y, Tag <$> h1 !! y = Tag <$> h !! y /\
               InnerText <$> h1 !! y = InnerText <$> h !! y /\
               Attributes <$> h1 !! y = Attributes <$> h !! y).
Proof.
  intros Hl Hc. rewrite (AppendChild_store h l c nd nc Hl Hc).
  eexists. split; [done|]. split; [by rewrite !length_insert|].
  assert (Hl' : exists x, <[c := set_Parent (Some l) nc]> h !! l = Some x).
  { rewrite (lookup_insert_heap h c _ nc Hc l). case_decide; eauto. }
  destruct Hl' as [x Hx].
  split; [|split]; intros y.
  - rewrite (lookup_insert_heap _ l _ x Hx y), (lookup_insert_heap h c _ nc Hc y).
    destruct (decide (l = y)) as [<-|Hly]; destruct (decide (l = c)) as [<-|Hlc];
      repeat (case_decide; try congruence); simplify_eq; try done.
    by rewrite Hl.
  - rewrite (lookup_insert_heap _ l _ x Hx y), (lookup_insert_heap h c _ nc Hc y).
    destruct (decide (l = y)) as [<-|Hly]; destruct (decide (l = c)) as [<-|Hlc];
      repeat (case_decide; try congruence); simplify_eq; try done.
    by rewrite Hc.
  - rewrite (lookup_insert_heap _ l _ x Hx y), (lookup_insert_heap h c _ nc Hc y).
    destruct (decide (l = y)) as [<-|Hly]; destruct (decide (l = c)) as [<-|Hlc];
      repeat (case_decide; try congruence); simplify_eq; rewrite ?Hl, ?Hc; done.
Qed.

Lemma AppendChild_links_witness :
  exists h1,
    AppendChild family_store (Some 2) (Some 1) = Some (h1, Some 1) /\
    Parent <$> h1 !! 1 = Some (Some 2) /\
    Children <$> h1 !! 2 = Some [Some 1] /\
    Children <$> h1 !! 0 = Some [Some 1].
Proof.
  destruct (AppendChild_links family_store 2 1 _ _ eq_refl eq_refl)
    as (h1 & E & _ & P & C & _).
  exists h1. split; [exact E|]. split; [exact (P 1)|].
  split; [exact (C 2)|exact (C 0)].
Defined.

Lemma ChainAppendChildren_spec nodes : forall h l nd,
  h !! l = Some nd ->
  Forall (fun c => exists x, c = Some x /\ x < length h) nodes ->
  exists h1,
    ChainAppendChildren h (Some l) nodes = Some (h1, Some l) /\
    length h1 = length h /\
    Children <$> h1 !! l = Some (Children nd ++ nodes) /\
    (forall y, y <> l -> Children <$> h1 !! y = Children <$> h !! y) /\
    (forall y, Parent <$> h1 !! y
               = if decide (Some y ∈ nodes) then Some (Some l) else Parent <$> h !! y) /\
    (forall y, Tag <$> h1 !! y = Tag <$> h !! y /\
               InnerText <$> h1 !! y = InnerText <$> h !! y /\
               Attributes <$> h1 !! y = Attributes <$> h !! y).
Proof.
  induction nodes as [|c rest IH]; intros h l nd Hl Hnodes.
  - exists h. cbn [ChainAppendChildren]. rewrite app_nil_r, Hl.
    split; [done|]. split; [done|]. split; [done|]. split; [done|]. split; [|done].
    intros y. rewrite decide_False; [done|]. by intros ?%elem_of_nil.
  - apply Forall_cons in Hnodes as [(x & -> & Hx) Hrest].
    destruct (lookup_lt_is_Some_2 h x Hx) as [nc Hc].
    destruct (AppendChild_links h l x nd nc Hl Hc) as (h1 & E & Hlen & P & C & T).
    cbn [ChainAppendChildren]. rewrite E. cbn.
    pose proof (C l) as Cl. rewrite decide_True in Cl by done.
    destruct (h1 !! l) as [nd1|] eqn:Hl1; [|done]. injection Cl as Cl.
    destruct (IH h1 l nd1 Hl1) as (h2 & E2 & Hlen2 & C2 & C2' & P2 & T2).
    { rewrite Hlen. exact Hrest. }
    exists h2. split; [exact E2|]. split; [congruence|].
    split; [by rewrite C2, Cl, <- app_assoc|]. split; [|split].
    + intros y Hy. rewrite (C2' y Hy), (C y). by rewrite decide_False.
    + intros y. rewrite (P2 y), (P y).
      destruct (decide (y = x)) as [->|Hyx].
      * rewrite (decide_True (P := Some x ∈ Some x :: rest)) by (by left).
        by case_decide.
      * destruct (decide (Some y ∈ rest)) as [Hin|Hin].
        -- rewrite decide_True; [done|by right].
        -- rewrite decide_False; [done|]. intros [?|?]%elem_of_cons; congruence.
    + intros y. destruct (T2 y) as (-> & -> & ->). apply T.
Qed.

(** X5.  [ChainAppendChildren] with nodes of the store returns the
    receiver; the nodes are appended to its [Children] in the order
    given, after the children it had, and each has the receiver as
    [Parent].  Nothing else changes, and no node is added.
    [ChainAppendChild] is the case of one node. *)
Theorem ChainAppendChildren_appends h l nd nodes :
  h !! l = Some nd ->
  Forall (fun c => exists x, c = Some x /\ x < length h) nodes ->
  (exists h1,
    ChainAppendChildren h (Some l) nodes = Some (h1, Some l) /\
    length h1 = length h /\
    Children <$> h1 !! l = Some (Children nd ++ nodes) /\
    (forall y, y <> l -> Children <$> h1 !! y = Children <$> h !! y) /\
    (forall y, Parent <$> h1 !! y
               = if decide (Some y ∈ nodes) then Some (Some l) else Parent <$> h !! y) /\
    (forall y, Tag <$> h1 !! y = Tag <$> h !! y /\
               InnerText <$> h1 !! y = InnerText <$> h !! y /\
               Attributes <$> h1 !! y = Attributes <$> h !! y)) /\
  (forall node, ChainAppendChild h (Some l) node = ChainAppendChildren h (Some l) [node]).
Proof.
  intros Hl Hnodes. split; [by apply ChainAppendChildren_spec|].
  intros node. unfold ChainAppendChild. cbn [ChainAppendChildren].
  by destruct (AppendChild h (Some l) node) as [[? ?]|].
Qed.

Lemma ChainAppendChildren_appends_witness :
  exists h1,
    ChainAppendChildren family_store (Some 0) [Some 2; Some 3] = Some (h1, Some 0) /\
    Children <$> h1 !! 0 = Some [Some 1; Some 2; Some 3] /\
    Parent <$> h1 !! 3 = Some (Some 0).
Proof.
  destruct (ChainAppendChildren_appends family_store 0 _ [Some 2; Some 3] eq_refl)
    as [(h1 & E & _ & C & _ & P & _) _].
  { repeat constructor; eexists; (split; [reflexivity|simpl; lia]). }
  exists h1. split; [exact E|]. split; [exact C|]. rewrite (P 3). reflexivity.
Defined.

(** ** Nil children and cycles *)

Lemma keepOtherTags_nil h tag cs : None ∈ cs -> keepOtherTags h tag cs = None.
Proof.
  induction cs as [|c cs IH]; [by intros ?%elem_of_nil|].
  intros [<-|Hin]%elem_of_cons; [done|].
  cbn [keepOtherTags]. rewrite (IH Hin). by destruct (deref h c).
Qed.

(** X6.  A nil pointer among the children of a node: [FindChild] passes
    over it, while [RemoveChildrenWithTag], and with it
    [CreateUniquePath], panics whatever the tag, and so do [EnsurePath]
    and [CheckPath] when they come to it (here: when it is the first
    child). *)
Theorem nil_child_panics h l nd :
  h !! l = Some nd -> None ∈ Children nd ->
  (forall tag, RemoveChildrenWithTag h (Some l) tag = None) /\
  (forall tag rest, CreateUniquePath h (Some l) (tag :: rest) = None) /\
  (head (Children nd) = Some None ->
     forall tag rest fuel,
       EnsurePath h (Some l) (tag :: rest) = None /\
       CheckPath (S fuel) h (Some l) (tag :: rest) = Panic) /\
  (Forall (fun c => c = None) (Children nd) ->
     forall tag fuel, Tag nd <> tag ->
       FindChild (S (S fuel)) h (Some l) tag = Done None).
Proof.
  intros Hl Hnil.
  assert (R : forall tag, RemoveChildrenWithTag h (Some l) tag = None).
  { intros tag. unfold RemoveChildrenWithTag. simpl. rewrite Hl. simpl.
    by rewrite keepOtherTags_nil. }
  split; [exact R|]. split; [|split].
  - intros tag rest. unfold CreateUniquePath. by rewrite R.
  - intros Hhd tag rest fuel. destruct (Children nd) as [|c cs] eqn:Hc; [done|].
    injection Hhd as ->. split.
    + cbn [EnsurePath deref]. rewrite Hl. simpl. by rewrite Hc.
    + cbn [CheckPath dfsCheckPath deref]. rewrite Hl. by rewrite Hc.
  - intros Hall tag fuel Hne. cbn [FindChild]. rewrite Hl.
    destruct (String.eqb_spec (Tag nd) tag) as [|_]; [done|].
    clear Hnil. induction Hall as [|c cs -> _ IH]; [done|]. exact IH.
Qed.

Lemma nil_child_panics_witness :
  RemoveChildrenWithTag nil_child_store (Some 0) "b" = None /\
  CheckPath 2 nil_child_store (Some 0) ["b"] = Panic /\
  FindChild 2 nil_child_store (Some 0) "b" = Done None.
Proof.
  destruct (nil_child_panics nil_child_store 0 _ eq_refl) as (R & _ & P & F).
  { by left. }
  split; [exact (R "b")|]. split; [exact (proj2 (P eq_refl "b" [] 1))|].
  apply F; [by repeat constructor|done].
Defined.

(** X7.  A node that is its own first child: [FindChild] for a tag the
    node does not have never returns (it calls itself on the same node
    without end), whatever the number of calls allowed.
    [n.AppendChild(n)] on a node without children makes such a node. *)
Theorem FindChild_own_child h l nd tag :
  h !! l = Some nd -> Tag nd <> tag ->
  (head (Children nd) = Some (Some l) ->
     forall fuel, FindChild fuel h (Some l) tag = OutOfFuel) /\
  (Children nd = [] ->
     exists h1, AppendChild h (Some l) (Some l) = Some (h1, Some l) /\
       forall fuel, FindChild fuel h1 (Some l) tag = OutOfFuel).
Proof.
  intros Hl Hne.
  assert (D : forall h0 nd0, h0 !! l = Some nd0 -> Tag nd0 <> tag ->
            head (Children nd0) = Some (Some l) ->
            forall fuel, FindChild fuel h0 (Some l) tag = OutOfFuel).
  { intros h0 nd0 Hl0 Hne0 Hhd fuel. induction fuel as [|fuel IH]; [done|].
    cbn [FindChild]. rewrite Hl0.
    destruct (String.eqb_spec (Tag nd0) tag) as [|_]; [done|].
    destruct (Children nd0) as [|c cs]; [done|]. injection Hhd as ->.
    cbn [scanChildren]. by rewrite IH. }
  split; [by apply D|].
  intros Hcs. destruct (AppendChild_links h l l nd nd Hl Hl) as (h1 & E & _ & _ & C & T).
  exists h1. split; [exact E|].
  pose proof (C l) as Cl. rewrite decide_True in Cl by done.
  destruct (T l) as (Tl & _). rewrite Hl in Tl.
  destruct (h1 !! l) as [nd1|] eqn:Hl1; [|done].
  injection Cl as Cl. injection Tl as Tl.
  apply (D h1 nd1 Hl1); [congruence|]. by rewrite Cl, Hcs.
Qed.

Lemma FindChild_own_child_witness :
  exists h1, AppendChild lone_store (Some 0) (Some 0) = Some (h1, Some 0) /\
    FindChild 100 h1 (Some 0) "b" = OutOfFuel.
Proof.
  destruct (FindChild_own_child lone_store 0 _ "b" eq_refl) as [_ A]; [done|].
  destruct (A eq_refl) as (h1 & E & F). exists h1. split; [exact E|apply F].
Defined.

(** ** CheckPath *)

Lemma dfsCheckPath_cons fuel h n tag rest :
  dfsCheckPath (S fuel) h n (tag :: rest)
  = match deref h n with
    | None => Panic
    | Some nd => scanPath (fun c => dfsCheckPath fuel h c rest) h tag (Children nd)
    end.
Proof.
  cbn [dfsCheckPath]. destruct (deref h n) as [nd|]; [|done].
  induction (Children nd) as [|c cs IH]; [done|].
  cbn [scanPath]. rewrite <- IH. done.
Qed.

Lemma heap_ok_intro (h : list Node) :
  (forall y nd, h !! y = Some nd ->
     Forall (fun c => exists x, c = Some x /\ x < length h) (Children nd) /\
     (forall p, Parent nd = Some p -> p < length h)) ->
  heap_ok h.
Proof.
  intros H. unfold heap_ok. apply forallb_forall. intros nd Hin.
  apply list_elem_of_In, list_elem_of_lookup in Hin as [y Hy].
  destruct (H y nd Hy) as [Hc Hp]. unfold node_ok. apply andb_true_intro. split.
  - apply forallb_forall. intros c Hc'. apply list_elem_of_In in Hc'.
    rewrite Forall_forall in Hc. destruct (Hc c Hc') as (x & -> & Hx).
    simpl. by apply Nat.ltb_lt.
  - destruct (Parent nd) as [p|]; [|done]. apply Nat.ltb_lt. by apply Hp.
Qed.

(** [dfsCheckPath] on a store without nil children: one call for each
    tag of the path is enough, and the result tells whether the path
    exists. *)
Lemma dfsCheckPath_spec path : forall fuel h l,
  heap_ok h -> l < length h -> length path < fuel ->
  exists b, dfsCheckPath fuel h (Some l) path = Done b /\
            (b = true <-> exists r, path_to h l path r).
Proof.
  induction path as [|tag rest IH]; intros [|fuel] h l Hok Hl Hf; try (simpl in Hf; lia).
  { exists true. split; [done|]. split; [|done]. intros _. exists l. constructor. }
  rewrite dfsCheckPath_cons. cbn [deref].
  destruct (lookup_lt_is_Some_2 h l Hl) as [nd Hnd]. rewrite Hnd.
  destruct (heap_ok_lookup h l nd Hok Hnd) as [Hcs _].
  assert (S : forall cs, Forall (fun c => exists x, c = Some x /\ x < length h) cs ->
            exists b, scanPath (fun c => dfsCheckPath fuel h c rest) h tag cs = Done b /\
              (b = true <-> exists c cn r, Some c ∈ cs /\ h !! c = Some cn /\
                                          Tag cn = tag /\ path_to h c rest r)).
  { clear Hcs. induction 1 as [|c cs (x & -> & Hx) _ IHcs].
    - exists false. split; [done|]. split; [done|].
      intros (c & ? & ? & []%elem_of_nil & _).
    - cbn [scanPath deref]. destruct (lookup_lt_is_Some_2 h x Hx) as [cn Hcn].
      rewrite Hcn. destruct IHcs as (b' & Eb' & Hb').
      assert (Skip : (exists c cn0 r, Some c ∈ cs /\ h !! c = Some cn0 /\
                        Tag cn0 = tag /\ path_to h c rest r) ->
                     exists c cn0 r, Some c ∈ Some x :: cs /\ h !! c = Some cn0 /\
                        Tag cn0 = tag /\ path_to h c rest r).
      { intros (c & cn0 & r & Hin & ?). exists c, cn0, r. split; [by right|done]. }
      destruct (String.eqb_spec (Tag cn) tag) as [Ht|Ht].
      + destruct (IH fuel h x Hok Hx) as (b & Eb & Hb); [simpl in Hf; lia|].
        rewrite Eb. destruct b.
        * exists true. split; [done|]. split; [|done]. intros _.
          destruct (proj1 Hb eq_refl) as [r Hr]. exists x, cn, r.
          split; [by left|done].
        * exists b'. split; [done|]. rewrite Hb'. split; [exact Skip|].
          intros (c & cn0 & r & [Hc|Hin]%elem_of_cons & Hc0 & Ht0 & Hr).
          -- injection Hc as ->. assert (false = true); [|done]. apply Hb. eauto.
          -- eauto 10.
      + exists b'. split; [done|]. rewrite Hb'. split; [exact Skip|].
        intros (c & cn0 & r & [Hc|Hin]%elem_of_cons & Hc0 & Ht0 & Hr).
        * injection Hc as ->. congruence.
        * eauto 10. }
  destruct (S (Children nd) Hcs) as (b & Eb & Hb). exists b. split; [done|].
  rewrite Hb. split.
  - intros (c & cn & r & Hin & Hc & Ht & Hr). exists r. by econstructor.
  - intros (r & Hr). inversion Hr as [|? nd' c cn ? ? ? Hl' Hin Hc Ht Hr']; subst.
    rewrite Hnd in Hl'. injection Hl' as <-. eauto 10.
Qed.

(** X8.  [CheckPath] on a node of a store without nil children returns,
    within one nested call for each tag of the path, whether the path
    exists from the node: whether some chain of nodes, each a child of
    the one before, carries the tags in order.  All children with the
    tag are tried, not the first only; the empty path always exists. *)
Theorem CheckPath_exists h l path fuel :
  heap_ok h -> l < length h -> length path < fuel ->
  exists b, CheckPath fuel h (Some l) path = Done b /\
            (b = true <-> exists r, path_to h l path r).
Proof.
  intros Hok Hl Hf. destruct path as [|tag rest].
  - exists true. split; [done|]. split; [|done]. intros _. exists l. constructor.
  - by apply dfsCheckPath_spec.
Qed.

Lemma CheckPath_exists_witness :
  heap_ok branch_store /\
  exists b, CheckPath 3 branch_store (Some 0) ["x"; "y"] = Done b /\
            (b = true <-> exists r, path_to branch_store 0 ["x"; "y"] r).
Proof.
  split; [reflexivity|].
  apply (CheckPath_exists branch_store 0 ["x"; "y"] 3); [reflexivity|simpl; lia|simpl; lia].
Defined.

Lemma scanPath_bounded dfs h tag cs :
  (forall c, dfs c <> OutOfFuel) -> scanPath dfs h tag cs <> OutOfFuel.
Proof.
  intros Hd. induction cs as [|c cs IH]; [done|]. cbn [scanPath].
  destruct (deref h c) as [cn|]; [|done].
  destruct (String.eqb (Tag cn) tag); [|done].
  specialize (Hd c). by destruct (dfs c) as [[]| |].
Qed.

Lemma dfsCheckPath_bounded path : forall fuel h n,
  length path < fuel -> dfsCheckPath fuel h n path <> OutOfFuel.
Proof.
  induction path as [|tag rest IH]; intros [|fuel] h n Hf; try (simpl in Hf; lia); [done|].
  rewrite dfsCheckPath_cons. destruct (deref h n) as [nd|]; [|done].
  apply scanPath_bounded. intros c. apply IH. simpl in Hf. lia.
Qed.

(** X9.  [CheckPath] needs no more nested calls than the path has tags,
    plus one, on any store: it returns or panics also where the nodes
    form a cycle, since every call goes on with a shorter path. *)
Theorem CheckPath_bounded h n path fuel :
  length path < fuel ->
  CheckPath fuel h n path = Panic \/ exists b, CheckPath fuel h n path = Done b.
Proof.
  intros Hf.
  assert (H : CheckPath fuel h n path <> OutOfFuel).
  { destruct path as [|tag rest]; [done|]. by apply dfsCheckPath_bounded. }
  destruct (CheckPath fuel h n path) as [b| |]; [right; by exists b|by left|done].
Qed.

Lemma CheckPath_bounded_witness :
  CheckPath 3 own_child_store (Some 0) ["a"; "b"] = Panic \/
  exists b, CheckPath 3 own_child_store (Some 0) ["a"; "b"] = Done b.
Proof. apply CheckPath_bounded. simpl. lia. Defined.

(** ** Paths made by CreatePath, EnsurePath and CreateUniquePath *)

Lemma chain_head (H : list Node) p tag path :
  (H ++ chain p (length H) (tag :: path)) !! length H
  = Some (mkNode tag (Some p)
            (match path with [] => [] | _ :: _ => [Some (S (length H))] end) "" None).
Proof. rewrite lookup_app_r, Nat.sub_diag by lia. done. Qed.

Lemma path_to_chain path : forall (H : list Node) p tag,
  path_to (H ++ chain p (length H) (tag :: path)) (length H) path (length H + length path).
Proof.
  induction path as [|t2 path IH]; intros H p tag.
  - rewrite Nat.add_0_r. constructor.
  - specialize (IH (H ++ [mkNode tag (Some p) [Some (S (length H))] "" None]) (length H) t2).
    pose proof (chain_head (H ++ [mkNode tag (Some p) [Some (S (length H))] "" None])
                  (length H) t2 path) as E1.
    rewrite length_app in IH, E1. simpl length in IH, E1. rewrite Nat.add_1_r in IH, E1.
    rewrite <- app_assoc in IH, E1.
    change (H ++ chain p (length H) (tag :: t2 :: path)) with
      (H ++ [mkNode tag (Some p) [Some (S (length H))] "" None]
         ++ chain (length H) (S (length H)) (t2 :: path)).
    replace (length H + length (t2 :: path)) with (S (length H) + length path)
      by (simpl; lia).
    eapply path_step; [| |exact E1|done|exact IH].
    + by rewrite lookup_app_r, Nat.sub_diag by lia.
    + simpl. by left.
Qed.

Lemma path_to_new_chain (h : list Node) l nd' tag rest :
  l < length h -> Some (length h) ∈ Children nd' ->
  path_to (<[l := nd']> h ++ chain l (length h) (tag :: rest)) l (tag :: rest)
          (length h + length rest).
Proof.
  intros Hl Hin.
  pose proof (path_to_chain rest (<[l := nd']> h) l tag) as P.
  pose proof (chain_head (<[l := nd']> h) l tag rest) as E.
  rewrite length_insert in P, E.
  eapply path_step; [|exact Hin|exact E|done|exact P].
  rewrite lookup_app_l by (by rewrite length_insert).
  by apply list_lookup_insert_eq.
Qed.

Lemma chain_bounds path : forall p b i nd,
  chain p b path !! i = Some nd ->
  (forall c, c ∈ Children nd -> exists x, c = Some x /\ x < b + length path) /\
  (forall q, Parent nd = Some q -> q = p \/ q < b + length path).
Proof.
  induction path as [|t path IH]; intros p b i nd H; [done|].
  destruct i as [|i]; simpl in H.
  - injection H as <-. simpl. split; [|intros q [= <-]; auto].
    intros c Hc. destruct path; [inversion Hc|].
    apply list_elem_of_singleton in Hc as ->. exists (S b). split; [done|simpl; lia].
  - destruct (IH _ _ _ _ H) as [Hc Hp]. split.
    + intros c Hin. destruct (Hc c Hin) as (x & -> & ?). exists x. split; [done|simpl; lia].
    + intros q Hq. destruct (Hp q Hq) as [->|?]; right; simpl; lia.
Qed.

(** A store without nil children stays one when a node gets a new list
    of children and a chain is added. *)
Lemma heap_ok_grow (h : list Node) l nd nd' tag path :
  heap_ok h -> h !! l = Some nd ->
  Forall (fun c => exists x, c = Some x /\ x <= length h) (Children nd') ->
  Parent nd' = Parent nd ->
  heap_ok (<[l := nd']> h ++ chain l (length h) (tag :: path)).
Proof.
  intros Hok Hl Hcs Hp. assert (Hlt : l < length h) by (by eapply lookup_lt_Some).
  apply heap_ok_intro. intros y ndy.
  rewrite length_app, length_insert, chain_length.
  rewrite (lookup_insert_app h _ l nd' y Hlt).
  destruct (decide (y = l)) as [->|Hy].
  - intros [= <-]. split.
    + eapply Forall_impl; [exact Hcs|]. intros c (x & -> & ?). exists x. split; [done|simpl; lia].
    + intros p Hpp. rewrite Hp in Hpp.
      destruct (heap_ok_lookup h l nd Hok Hl) as [_ Hpar]. specialize (Hpar p Hpp). lia.
  - destruct (decide (y < length h)) as [Hylt|Hyge].
    + intros Hy'. destruct (heap_ok_lookup h y ndy Hok Hy') as [Hc Hpar]. split.
      * eapply Forall_impl; [exact Hc|]. intros c (x & -> & ?). exists x. split; [done|lia].
      * intros p Hpp. specialize (Hpar p Hpp). lia.
    + intros Hy'. destruct (chain_bounds _ _ _ _ _ Hy') as [Hc Hpar]. split.
      * apply Forall_forall. intros c Hin. destruct (Hc c Hin) as (x & -> & ?). eauto.
      * intros p Hpp. destruct (Hpar p Hpp) as [->|?]; simpl in *; lia.
Qed.

Lemma heap_ok_set_children (h : list Node) l nd cs :
  heap_ok h -> h !! l = Some nd ->
  Forall (fun c => exists x, c = Some x /\ x < length h) cs ->
  heap_ok (<[l := set_Children cs nd]> h).
Proof.
  intros Hok Hl Hcs. apply heap_ok_intro. intros y ndy.
  rewrite length_insert, (lookup_insert_heap h l _ nd Hl y).
  case_decide as E.
  - intros [= <-]. split; [done|]. by apply (heap_ok_lookup h l nd).
  - by apply heap_ok_lookup.
Qed.

Lemma CheckPath_true h l path r :
  heap_ok h -> l < length h -> path_to h l path r ->
  CheckPath (S (length path)) h (Some l) path = Done true.
Proof.
  intros Hok Hl Hp. destruct path as [|tag rest]; [done|].
  destruct (dfsCheckPath_spec (tag :: rest) (S (length (tag :: rest))) h l Hok Hl)
    as (b & E & Hb); [lia|].
  cbn [CheckPath]. rewrite E. f_equal. apply Hb. eauto.
Qed.

(** X10.  [CreatePath] on a node of a store without nil children adds
    one new node for every tag, whatever children the nodes on the way
    have: the first is appended to the children of the receiver, each
    next one is the only child of the one before, and the last is
    returned.  No other node changes, and [CheckPath] with the path is
    true afterwards.  With no tags the receiver is returned and nothing
    changes. *)
Theorem CreatePath_creates h l path :
  heap_ok h -> l < length h ->
  exists nd h1 r,
    h !! l = Some nd /\
    CreatePath h (Some l) path = Some (h1, Some r) /\
    length h1 = length h + length path /\
    path_to h1 l path r /\
    (path <> [] ->
       r = length h + length path - 1 /\
       Children <$> h1 !! l = Some (Children nd ++ [Some (length h)]) /\
       drop (length h) h1 = chain l (length h) path) /\
    (path = [] -> h1 = h /\ r = l) /\
    (forall y, y < length h -> y <> l -> h1 !! y = h !! y) /\
    heap_ok h1 /\
    CheckPath (S (length path)) h1 (Some l) path = Done true.
Proof.
  intros Hok Hl. destruct (lookup_lt_is_Some_2 h l Hl) as [nd Hnd].
  destruct path as [|tag rest].
  { exists nd, h, l. cbn [CreatePath length]. rewrite Nat.add_0_r.
    repeat split; try done. constructor. }
  rewrite (CreatePath_chain rest h l nd tag Hnd).
  set (nd' := set_Children (Children nd ++ [Some (length h)]) nd).
  set (h1 := <[l := nd']> h ++ chain l (length h) (tag :: rest)).
  assert (Hlen : length h1 = length h + length (tag :: rest)).
  { unfold h1. by rewrite length_app, length_insert, chain_length. }
  assert (Hpath : path_to h1 l (tag :: rest) (length h + length rest)).
  { apply path_to_new_chain; [done|]. simpl. apply elem_of_app. right. by left. }
  assert (Hok1 : heap_ok h1).
  { apply (heap_ok_grow h l nd nd'); [done|done| |done].
    simpl. apply Forall_app. split.
    - destruct (heap_ok_lookup h l nd Hok Hnd) as [Hc _].
      eapply Forall_impl; [exact Hc|]. intros c (x & -> & ?). exists x. split; [done|lia].
    - apply Forall_singleton. eauto. }
  exists nd, h1, (length h + length rest).
  split; [done|]. split; [done|]. split; [done|]. split; [done|]. split; [|split; [done|]].
  - intros _. split; [simpl; lia|]. split.
    + unfold h1. rewrite lookup_app_l by (by rewrite length_insert).
      by rewrite list_lookup_insert_eq.
    + unfold h1. rewrite drop_app_length'; [done|by rewrite length_insert].
  - split; [|split; [done|]].
    + intros y Hy Hne. unfold h1. rewrite lookup_app_l by (by rewrite length_insert).
      by apply list_lookup_insert_ne.
    + apply (CheckPath_true h1 l (tag :: rest) (length h + length rest) Hok1); [lia|done].
Qed.

Lemma CreatePath_creates_witness :
  heap_ok branch_store /\
  exists h1 r,
    CreatePath branch_store (Some 0) ["x"; "y"] = Some (h1, Some r) /\
    length h1 = 6 /\ r = 5 /\
    Children <$> h1 !! 0 = Some [Some 1; Some 2; Some 4] /\
    CheckPath 3 h1 (Some 0) ["x"; "y"] = Done true.
Proof.
  split; [reflexivity|].
  destruct (CreatePath_creates branch_store 0 ["x"; "y"] eq_refl)
    as (nd & h1 & r & Hnd & E & L & _ & A & _ & _ & _ & C); [simpl; lia|].
  injection Hnd as <-. destruct A as (R & Ch & _); [done|].
  exists h1, r. split; [exact E|]. split; [exact L|]. split; [exact R|].
  split; [exact Ch|exact C].
Defined.

Lemma firstWithTag_Some h tag cs c :
  firstWithTag h tag cs = Some (Some c) ->
  Some c ∈ cs /\ exists cn, h !! c = Some cn /\ Tag cn = tag.
Proof.
  induction cs as [|c0 cs IH]; [done|]. cbn [firstWithTag].
  destruct (deref h c0) as [cn|] eqn:E0; cbn [mbind option_bind]; [|done].
  destruct (String.eqb_spec (Tag cn) tag) as [Ht|_].
  - intros [= ->]. split; [by left|]. eauto.
  - intros [Hin Hc]%IH. split; [by right|done].
Qed.

(** What [EnsurePath] returns on a store without nil children. *)
Lemma EnsurePath_path path : forall h l,
  heap_ok h -> l < length h ->
  exists h1 r,
    EnsurePath h (Some l) path = Some (h1, Some r) /\
    path_to h1 l path r /\ heap_ok h1 /\ heap_le h h1 /\
    length h <= length h1 <= length h + length path.
Proof.
  induction path as [|tag rest IH]; intros h l Hok Hl.
  { exists h, l. split; [done|]. split; [constructor|]. split; [done|].
    split; [apply heap_le_refl|]. simpl; lia. }
  destruct (lookup_lt_is_Some_2 h l Hl) as [nd Hnd].
  destruct (heap_ok_lookup h l nd Hok Hnd) as [Hcs _].
  destruct (firstWithTag_total h tag (Children nd) Hcs) as (found & Ef & Hfound).
  cbn [EnsurePath deref]. rewrite Hnd. cbn [mbind option_bind]. rewrite Ef.
  cbn [mbind option_bind]. destruct found as [child|].
  - destruct (firstWithTag_Some h tag _ child Ef) as (Hin & cn & Hc & Ht).
    destruct (IH h child Hok (Hfound child eq_refl))
      as (h1 & r & E & Hp & Hok1 & Hle & Hlen).
    exists h1, r. split; [exact E|].
    destruct (Hle l nd Hnd) as (nd1 & Hl1 & _ & extra & Hcs1).
    destruct (Hle child cn Hc) as (cn1 & Hc1 & Ht1 & _).
    split; [|split; [done|split; [done|simpl; lia]]].
    eapply path_step; [exact Hl1| |exact Hc1|congruence|exact Hp].
    rewrite Hcs1. apply elem_of_app. by left.
  - rewrite (CreatePath_chain rest h l nd tag Hnd).
    set (nd' := set_Children (Children nd ++ [Some (length h)]) nd).
    set (h1 := <[l := nd']> h ++ chain l (length h) (tag :: rest)).
    exists h1, (length h + length rest). split; [done|].
    split; [|split; [|split; [by apply heap_le_CreatePath|]]].
    + apply path_to_new_chain; [done|]. simpl. apply elem_of_app. right. by left.
    + apply (heap_ok_grow h l nd nd'); [done|done| |done].
      simpl. apply Forall_app. split.
      * eapply Forall_impl; [exact Hcs|]. intros c (x & -> & ?). exists x. split; [done|lia].
      * apply Forall_singleton. eauto.
    + unfold h1. rewrite length_app, length_insert, chain_length. simpl. lia.
Qed.

(** X11.  [EnsurePath] on a node of a store without nil children returns
    a node that is reached from the receiver along the path, so that
    [CheckPath] with the path is true afterwards.  It adds at most one
    node for each tag and removes nothing: every old node keeps its tag
    and its children, in their order, new children coming after them. *)
Theorem EnsurePath_reaches h l path :
  heap_ok h -> l < length h ->
  exists h1 r,
    EnsurePath h (Some l) path = Some (h1, Some r) /\
    path_to h1 l path r /\
    CheckPath (S (length path)) h1 (Some l) path = Done true /\
    heap_ok h1 /\
    length h <= length h1 <= length h + length path /\
    (forall y nd, h !! y = Some nd ->
       exists nd1 extra, h1 !! y = Some nd1 /\ Tag nd1 = Tag nd /\
         Children nd1 = Children nd ++ extra).
Proof.
  intros Hok Hl.
  destruct (EnsurePath_path path h l Hok Hl) as (h1 & r & E & Hp & Hok1 & Hle & Hlen).
  exists h1, r. split; [done|]. split; [done|]. split.
  { apply (CheckPath_true h1 l path r Hok1); [lia|done]. }
  split; [done|]. split; [done|].
  intros y nd Hy. destruct (Hle y nd Hy) as (nd1 & ? & ? & extra & ?). eauto.
Qed.

Lemma EnsurePath_reaches_witness :
  heap_ok branch_store /\
  exists h1 r,
    EnsurePath branch_store (Some 0) ["x"; "y"] = Some (h1, Some r) /\
    path_to h1 0 ["x"; "y"] r /\
    CheckPath 3 h1 (Some 0) ["x"; "y"] = Done true /\
    length branch_store <= length h1 <= length branch_store + 2.
Proof.
  split; [reflexivity|].
  destruct (EnsurePath_reaches branch_store 0 ["x"; "y"] eq_refl)
    as (h1 & r & E & P & C & _ & L & _); [simpl; lia|].
  exists h1, r. split; [exact E|]. split; [exact P|]. split; [exact C|exact L].
Defined.

Lemma firstWithTag_first h tag cs c :
  firstWithTag h tag cs = Some (Some c) <->
  exists before after cn,
    cs = before ++ Some c :: after /\
    Forall (fun b => exists x nb, b = Some x /\ h !! x = Some nb /\ Tag nb <> tag) before /\
    h !! c = Some cn /\ Tag cn = tag.
Proof.
  split.
  - induction cs as [|c0 cs IH]; [done|]. cbn [firstWithTag].
    destruct c0 as [x|]; cbn [deref mbind option_bind]; [|done].
    destruct (h !! x) as [cn|] eqn:Ex; cbn [mbind option_bind]; [|done].
    destruct (String.eqb_spec (Tag cn) tag) as [Ht|Ht].
    + intros [= ->]. exists [], cs, cn. done.
    + intros (before & after & cn' & -> & Hb & Hc & Ht')%IH.
      exists (Some x :: before), after, cn'. split; [done|]. split; [|done].
      constructor; [|done]. eauto.
  - intros (before & after & cn & -> & Hb & Hc & Ht).
    induction Hb as [|b before (x & nb & -> & Hx & Hne) _ IH]; cbn [app firstWithTag deref].
    + rewrite Hc. cbn [mbind option_bind]. by rewrite Ht, String.eqb_refl.
    + rewrite Hx. cbn [mbind option_bind].
      by destruct (String.eqb_spec (Tag nb) tag).
Qed.

(** X12.  [EnsurePath] follows the first child with the tag at each
    step.  When the whole path exists along first children, it returns
    the node at its end and changes nothing; and only then does it add
    no node. *)
Theorem EnsurePath_first_children h l path :
  (forall r, first_path h l path r -> EnsurePath h (Some l) path = Some (h, Some r)) /\
  (forall h1 r, EnsurePath h (Some l) path = Some (h1, r) -> length h1 = length h ->
     h1 = h /\ exists x, r = Some x /\ first_path h l path x).
Proof.
  split.
  - induction 1 as [|l nd before c after cn tag rest r Hl Hcs Hb Hc Ht _ IH]; [done|].
    cbn [EnsurePath deref]. rewrite Hl. cbn [mbind option_bind].
    rewrite (proj2 (firstWithTag_first h tag (Children nd) c)) by eauto 10.
    exact IH.
  - revert l. induction path as [|tag rest IH]; intros l h1 r.
    { intros [= <- <-] _. split; [done|]. exists l. split; [done|constructor]. }
    cbn [EnsurePath deref].
    destruct (h !! l) as [nd|] eqn:Hl; cbn [mbind option_bind]; [|done].
    destruct (firstWithTag h tag (Children nd)) as [[child|]|] eqn:Ef;
      cbn [mbind option_bind]; [| |done].
    + intros E Hlen. destruct (IH child h1 r E Hlen) as (-> & x & -> & Hp).
      split; [done|]. exists x. split; [done|].
      apply firstWithTag_first in Ef as (before & after & cn & Hcs & Hb & Hc & Ht).
      by eapply first_step.
    + rewrite (CreatePath_chain rest h l nd tag Hl). intros [= <- _] Hlen.
      rewrite length_app, length_insert in Hlen. simpl in Hlen. lia.
Qed.

(** ** RemoveChildrenWithTag and CreateUniquePath *)

Lemma tagAt_set_children (h : list Node) l nd cs c :
  h !! l = Some nd -> tagAt (<[l := set_Children cs nd]> h) c = tagAt h c.
Proof.
  intros Hl. unfold tagAt. destruct c as [x|]; [|done]. cbn [deref].
  rewrite (lookup_insert_heap h l _ nd Hl x). case_decide as E; [|done].
  subst x. by rewrite Hl.
Qed.

(** X13.  [RemoveChildrenWithTag] on a node of a store without nil
    children: afterwards [CheckPath] is false for every path that
    begins with the tag, a second call changes nothing, and a call
    changes nothing when no child has the tag.  Only the [Children] of
    the receiver change. *)
Theorem RemoveChildrenWithTag_gone h l tag :
  heap_ok h -> l < length h ->
  exists nd h1,
    h !! l = Some nd /\
    RemoveChildrenWithTag h (Some l) tag = Some h1 /\
    RemoveChildrenWithTag h1 (Some l) tag = Some h1 /\
    (forall rest, CheckPath (S (S (length rest))) h1 (Some l) (tag :: rest) = Done false) /\
    (Forall (fun c => tagAt h c <> tag) (Children nd) -> h1 = h) /\
    heap_ok h1 /\ length h1 = length h /\
    (forall y, y <> l -> h1 !! y = h !! y) /\
    (exists nd1, h1 !! l = Some nd1 /\ Tag nd1 = Tag nd /\ Parent nd1 = Parent nd /\
       InnerText nd1 = InnerText nd /\ Attributes nd1 = Attributes nd).
Proof.
  intros Hok Hl. destruct (lookup_lt_is_Some_2 h l Hl) as [nd Hnd].
  pose proof (heap_ok_children h l nd Hok Hnd) as Hcs.
  destruct (heap_ok_lookup h l nd Hok Hnd) as [Hval _].
  set (kept := filter (fun c => tagAt h c <> tag) (Children nd)).
  set (h1 := <[l := set_Children kept nd]> h).
  assert (Hl1 : h1 !! l = Some (set_Children kept nd)) by (by apply list_lookup_insert_eq).
  assert (Hkept : Forall (fun c => exists x, c = Some x /\ x < length h) kept).
  { apply Forall_forall. intros c [_ Hin]%list_elem_of_filter.
    rewrite Forall_forall in Hval. by apply Hval. }
  assert (Hok1 : heap_ok h1) by (by apply heap_ok_set_children).
  exists nd, h1. split; [done|].
  split; [by apply RemoveChildrenWithTag_total|]. split; [|split; [|split; [|split; [done|]]]].
  - rewrite (RemoveChildrenWithTag_total h1 l tag _ Hl1).
    2:{ simpl. eapply Forall_impl; [exact Hkept|]. intros c (x & -> & Hx). cbn [deref].
        apply lookup_lt_is_Some_2. unfold h1. by rewrite length_insert. }
    f_equal. unfold h1. rewrite list_insert_insert_eq. f_equal. unfold set_Children. simpl.
    f_equal. unfold kept. 
    rewrite (list_filter_iff (fun c => tagAt (<[l := set_Children kept nd]> h) c <> tag)
               (fun c => tagAt h c <> tag)).
    2:{ intros c. by rewrite (tagAt_set_children h l nd kept c Hnd). }
    fold kept. apply filter_all. apply Forall_forall. by intros c [? _]%list_elem_of_filter.
  - intros rest.
    destruct (dfsCheckPath_spec (tag :: rest) (S (S (length rest))) h1 l Hok1)
      as (b & E & Hb); [unfold h1; by rewrite length_insert|simpl; lia|].
    cbn [CheckPath]. rewrite E. f_equal. destruct b; [|done]. exfalso.
    destruct (proj1 Hb eq_refl) as [r Hr].
    inversion Hr as [|? nd1 c cn ? ? ? Hl' Hin Hc Ht _]; subst.
    rewrite Hl1 in Hl'. injection Hl' as <-. simpl in Hin.
    apply list_elem_of_filter in Hin as [Hne _]. apply Hne.
    rewrite <- (tagAt_set_children h l nd kept (Some c) Hnd). unfold tagAt. cbn [deref].
    fold h1. by rewrite Hc.
  - intros Hall. unfold h1, kept. rewrite filter_all by done.
    apply list_insert_id. by destruct nd.
  - split; [unfold h1; by rewrite length_insert|]. split.
    + intros y Hy. by apply list_lookup_insert_ne.
    + eexists. split; [exact Hl1|done].
Qed.

Lemma RemoveChildrenWithTag_gone_witness :
  heap_ok branch_store /\
  exists h1,
    RemoveChildrenWithTag branch_store (Some 0) "x" = Some h1 /\
    CheckPath 3 branch_store (Some 0) ["x"; "y"] = Done true /\
    CheckPath 3 h1 (Some 0) ["x"; "y"] = Done false.
Proof.
  split; [reflexivity|].
  destruct (RemoveChildrenWithTag_gone branch_store 0 "x" eq_refl)
    as (nd & h1 & _ & E & _ & C & _); [simpl; lia|].
  exists h1. split; [exact E|]. split; [reflexivity|exact (C ["y"])].
Defined.

(** X14.  [CreateUniquePath] on a node of a store without nil children
    returns the last node of the chain it creates, reached from the
    receiver along the path, and [CheckPath] with the path is true
    afterwards; no child is nil afterwards.  With no tags it returns
    the receiver and changes nothing, not even the children that
    [RemoveChildrenWithTag] would remove. *)
Theorem CreateUniquePath_reaches h l path :
  heap_ok h -> l < length h ->
  exists h1 r,
    CreateUniquePath h (Some l) path = Some (h1, Some r) /\
    path_to h1 l path r /\
    CheckPath (S (length path)) h1 (Some l) path = Done true /\
    heap_ok h1 /\
    length h1 = length h + length path /\
    (path = [] -> h1 = h /\ r = l).
Proof.
  intros Hok Hl. destruct path as [|tag rest].
  { exists h, l. cbn [CreateUniquePath length]. rewrite Nat.add_0_r.
    repeat split; try done. constructor. }
  destruct (lookup_lt_is_Some_2 h l Hl) as [nd Hnd].
  pose proof (heap_ok_children h l nd Hok Hnd) as Hcs.
  destruct (heap_ok_lookup h l nd Hok Hnd) as [Hval _].
  rewrite (CreateUniquePath_store h l nd tag rest Hnd Hcs).
  set (nd' := set_Children _ nd).
  set (h1 := <[l := nd']> h ++ chain l (length h) (tag :: rest)).
  assert (Hp : path_to h1 l (tag :: rest) (length h + length rest)).
  { apply path_to_new_chain; [done|]. simpl. apply elem_of_app. right. by left. }
  assert (Hok1 : heap_ok h1).
  { apply (heap_ok_grow h l nd nd'); [done|done| |done].
    simpl. apply Forall_app. split.
    - apply Forall_forall. intros c [_ Hin]%list_elem_of_filter.
      rewrite Forall_forall in Hval. destruct (Hval c Hin) as (x & -> & ?).
      exists x. split; [done|lia].
    - apply Forall_singleton. eauto. }
  assert (Hlen : length h1 = length h + length (tag :: rest)).
  { unfold h1. by rewrite length_app, length_insert, chain_length. }
  exists h1, (length h + length rest). split; [done|]. split; [done|].
  split; [|done].
  apply (CheckPath_true h1 l (tag :: rest) (length h + length rest) Hok1); [lia|done].
Qed.

Lemma CreateUniquePath_reaches_witness :
  heap_ok branch_store /\
  exists h1 r,
    CreateUniquePath branch_store (Some 0) ["x"; "z"] = Some (h1, Some r) /\
    path_to h1 0 ["x"; "z"] r /\
    CheckPath 3 h1 (Some 0) ["x"; "z"] = Done true.
Proof.
  split; [reflexivity|].
  destruct (CreateUniquePath_reaches branch_store 0 ["x"; "z"] eq_refl)
    as (h1 & r & E & P & C & _); [simpl; lia|].
  exists h1, r. split; [exact E|]. split; [exact P|exact C].
Defined.

(** ** Links between the nodes UnmarshalXML builds *)

Lemma child_of_mono (h h' : list Node) lo hi lo' hi' p c :
  child_of h lo hi p c -> lo' <= lo -> hi <= hi' ->
  (forall z, lo <= z < hi -> h' !! z = h !! z) ->
  child_of h' lo' hi' p c.
Proof.
  intros (z & nz & -> & Hz & Hnz & Hp) Hlo Hhi Hsame.
  exists z, nz. split; [done|]. split; [lia|]. split; [|done]. by rewrite Hsame.
Qed.

Lemma linked_mono (h h' : list Node) lo hi lo' hi' root root' :
  linked h lo hi root -> lo' <= lo -> hi <= hi' ->
  (forall z, lo <= z < hi -> h' !! z = h !! z) ->
  (root = root' \/ lo' <= root < hi') ->
  forall y nd, lo <= y < hi -> h' !! y = Some nd ->
    Forall (child_of h' lo' hi' y) (Children nd) /\
    exists p, Parent nd = Some p /\ (p = root' \/ lo' <= p < hi').
Proof.
  intros Hl Hlo Hhi Hsame Hroot y nd Hy Hnd. rewrite Hsame in Hnd by done.
  destruct (Hl y nd Hy Hnd) as [Hc (p & Hp & Hin)]. split.
  - eapply Forall_impl; [exact Hc|]. intros c Hc'. by eapply child_of_mono.
  - exists p. split; [done|]. destruct Hin as [->|?]; [|right; lia].
    destruct Hroot as [->|?]; auto.
Qed.

(** What a call of [UnmarshalXML], and a run of its loop, leaves in the
    store, whether it ends with an error or not: old nodes other than
    the receiver are as before; the receiver keeps its parent and its
    old children, the new children have it as parent; and the new nodes
    are linked among themselves and to the receiver. *)
Lemma unmarshal_links fuel :
  (forall h d c name attr h' d' e nd,
     UnmarshalXML fuel h d (Some c) name attr = Done (h', d', e) -> h !! c = Some nd ->
     length h <= length h' /\
     (forall y, y < length h -> y <> c -> h' !! y = h !! y) /\
     exists nd' new,
       h' !! c = Some nd' /\ Tag nd' = name /\ Attributes nd' = Some (attrMap attr) /\
       Parent nd' = Parent nd /\ Children nd' = Children nd ++ new /\
       Forall (child_of h' (length h) (length h') c) new /\
       linked h' (length h) (length h') c) /\
  (forall h d l h' d' e nd,
     unmarshalLoop fuel h d l = Done (h', d', e) -> h !! l = Some nd ->
     length h <= length h' /\
     (forall y, y < length h -> y <> l -> h' !! y = h !! y) /\
     exists nd' new,
       h' !! l = Some nd' /\ Tag nd' = Tag nd /\ Attributes nd' = Attributes nd /\
       Parent nd' = Parent nd /\ Children nd' = Children nd ++ new /\
       Forall (child_of h' (length h) (length h') l) new /\
       linked h' (length h) (length h') l).
Proof.
  induction fuel as [|fuel [IHu IHl]]; [split; intros; simpl in *; congruence|].
  assert (Stop : forall (h : list Node) l nd, h !! l = Some nd ->
            length h <= length h /\
            (forall y, y < length h -> y <> l -> h !! y = h !! y) /\
            exists nd' new,
              h !! l = Some nd' /\ Tag nd' = Tag nd /\ Attributes nd' = Attributes nd /\
              Parent nd' = Parent nd /\ Children nd' = Children nd ++ new /\
              Forall (child_of h (length h) (length h) l) new /\
              linked h (length h) (length h) l).
  { intros h l nd Hl. split; [done|]. split; [done|]. exists nd, [].
    rewrite app_nil_r. do 5 (split; [done|]). split; [constructor|].
    intros y0 nd0 Hy0. lia. }
  split.
  - intros h d c name attr h' d' e nd. simpl. unfold store. intros E Hc.
    rewrite Hc in E.
    destruct (IHl _ _ _ _ _ _ (set_Attributes (Some (attrMap attr)) (set_Tag name nd)) E)
      as (Hlen & Hfr & nd' & new & Hc' & Ht & Ha & Hp & Hcs & Hnew & Hlk);
      [by apply list_lookup_insert_eq; eapply lookup_lt_Some|].
    rewrite length_insert in Hlen, Hfr, Hnew, Hlk.
    split; [done|]. split.
    { intros y Hy Hne. rewrite Hfr by done. by rewrite list_lookup_insert_ne. }
    exists nd', new. done.
  - intros h d l h' d' e nd. simpl.
    destruct (Decoder_Token d) as [[t|err] d1] eqn:Et.
    2:{ intros [= <- _ _] Hl. by apply Stop. }
    intros E Hl. pose proof (lookup_lt_Some _ _ _ Hl) as Hlt.
    destruct t.
    + (* a child element *)
      set (N0 := mkNode "" (Some l) [] "" None) in E.
      assert (Hc0 : (h ++ [N0]) !! length h = Some N0)
        by (by rewrite lookup_app_r, Nat.sub_diag by lia).
      destruct (UnmarshalXML fuel (h ++ [N0]) d1 (Some (length h)) name attr)
        as [[[h2 d2] e2]| |] eqn:Eu; try done.
      destruct (IHu _ _ _ _ _ _ _ _ _ Eu Hc0)
        as (Hlen2 & Hfr2 & ndc & newc & Hc2 & _ & _ & Hpc & Hcsc & Hnewc & Hlk2).
      rewrite length_app in Hlen2, Hfr2, Hnewc, Hlk2. simpl length in *.
      rewrite Nat.add_1_r in Hlen2, Hfr2, Hnewc, Hlk2. simpl in Hpc, Hcsc.
      assert (Hl2 : h2 !! l = Some nd).
      { rewrite Hfr2 by lia. by rewrite lookup_app_l. }
      (* the nodes of the child, seen from the receiver *)
      assert (Hsub : forall (h3 : list Node) hi, length h2 <= hi ->
                (forall z, length h <= z < length h2 -> h3 !! z = h2 !! z) ->
                forall y ndy, length h <= y < length h2 -> h3 !! y = Some ndy ->
                  Forall (child_of h3 (length h) hi y) (Children ndy) /\
                  exists p, Parent ndy = Some p /\ (p = l \/ length h <= p < hi)).
      { intros h3 hi Hhi Hsame y ndy Hy Hndy.
        destruct (decide (y = length h)) as [->|Hyc].
        - rewrite Hsame, Hc2 in Hndy by lia. injection Hndy as <-. split.
          + rewrite Hcsc. eapply Forall_impl; [exact Hnewc|]. intros c Hc'.
            eapply child_of_mono; [exact Hc'|lia|lia|].
            intros z Hz. apply Hsame. lia.
          + exists l. by auto.
        - apply (linked_mono h2 h3 (S (length h)) (length h2) (length h) hi
                   (length h) l Hlk2);
            [lia|lia|intros z Hz; apply Hsame; lia|right; lia|lia|done]. }
      destruct e2 as [err|].
      * (* the child fails *)
        injection E as <- _ _.
        split; [lia|]. split.
        { intros y Hy Hne. rewrite Hfr2 by lia. by rewrite lookup_app_l. }
        exists nd, []. rewrite app_nil_r. do 5 (split; [done|]). split; [constructor|].
        intros y ndy Hy Hndy. by apply (Hsub h2 (length h2)).
      * unfold store in E. rewrite Hl2 in E.
        set (nd3 := set_Children (Children nd ++ [Some (length h)]) nd) in E.
        destruct (IHl _ _ _ _ _ _ nd3 E)
          as (Hlen3 & Hfr3 & nd' & new & Hl' & Ht & Ha & Hp & Hcs & Hnew & Hlk3);
          [apply list_lookup_insert_eq; lia|].
        rewrite length_insert in Hlen3, Hfr3, Hnew, Hlk3.
        assert (Hsame : forall z, length h <= z < length h2 -> h' !! z = h2 !! z).
        { intros z Hz. rewrite Hfr3 by lia. apply list_lookup_insert_ne. lia. }
        split; [lia|]. split.
        { intros y Hy Hne. rewrite Hfr3, list_lookup_insert_ne, Hfr2 by (done || lia).
          by rewrite lookup_app_l. }
        exists nd', (Some (length h) :: new).
        split; [done|]. split; [done|]. split; [done|]. split; [done|].
        split; [by rewrite Hcs; simpl; rewrite <- app_assoc|]. split.
        -- constructor.
           ++ exists (length h), ndc. split; [done|]. split; [lia|].
              split; [by rewrite Hsame, Hc2 by lia|done].
           ++ eapply Forall_impl; [exact Hnew|]. intros c Hc'.
              eapply child_of_mono; [exact Hc'|lia|lia|done].
        -- intros y ndy Hy Hndy. destruct (decide (y < length h2)) as [Hy2|Hy2].
           ++ apply (Hsub h' (length h')); [lia|done|lia|done].
           ++ destruct (Hlk3 y ndy) as [HA (p & HB & HC)]; [lia|done|]. split.
              ** eapply Forall_impl; [exact HA|]. intros c Hc'.
                 eapply child_of_mono; [exact Hc'|lia|lia|done].
              ** exists p. split; [done|]. destruct HC; [auto|right; lia].
    + (* an end tag *)
      rewrite Hl in E. destruct (String.eqb name (Tag nd)).
      * injection E as <- _ _. by apply Stop.
      * by apply (IHl _ _ _ _ _ _ nd E).
    + (* text *)
      unfold store in E. rewrite Hl in E.
      destruct (IHl _ _ _ _ _ _ (set_InnerText (TrimSpace data) nd) E)
        as (Hlen & Hfr & nd' & new & Hl' & Ht & Ha & Hp & Hcs & Hnew & Hlk);
        [by apply list_lookup_insert_eq|].
      rewrite length_insert in Hlen, Hfr, Hnew, Hlk.
      split; [done|]. split.
      { intros y Hy Hne. rewrite Hfr by done. by rewrite list_lookup_insert_ne. }
      exists nd', new. done.
    + by apply (IHl _ _ _ _ _ _ nd E).
    + by apply (IHl _ _ _ _ _ _ nd E).
    + by apply (IHl _ _ _ _ _ _ nd E).
Qed.

Lemma Decode_links fuel : forall h d v h' d' e nd,
  Decode fuel h d v = Done (h', d', e) -> h !! v = Some nd ->
  length h <= length h' /\
  (forall y, y < length h -> y <> v -> h' !! y = h !! y) /\
  exists nd' new,
    h' !! v = Some nd' /\ Parent nd' = Parent nd /\ Children nd' = Children nd ++ new /\
    Forall (child_of h' (length h) (length h') v) new /\
    linked h' (length h) (length h') v.
Proof.
  induction fuel as [|fuel IH]; intros h d v h' d' e nd; [done|]. simpl.
  destruct (Decoder_Token d) as [[t|err] d1] eqn:Et.
  2:{ intros [= <- _ _] Hv. split; [done|]. split; [done|]. exists nd, [].
      rewrite app_nil_r. do 3 (split; [done|]). split; [constructor|].
      intros y0 nd0 Hy0. lia. }
  intros E Hv. destruct t; try (by apply (IH _ _ _ _ _ _ nd E)).
  destruct (proj1 (unmarshal_links fuel) _ _ _ _ _ _ _ _ nd E Hv)
    as (Hlen & Hfr & nd' & new & ? & ? & ? & ? & ? & ? & ?).
  split; [done|]. split; [done|]. exists nd', new. done.
Qed.

Lemma links_heap_ok (h h' : list Node) v nd nd' new :
  heap_ok h -> h !! v = Some nd -> length h <= length h' ->
  (forall y, y < length h -> y <> v -> h' !! y = h !! y) ->
  h' !! v = Some nd' -> Parent nd' = Parent nd -> Children nd' = Children nd ++ new ->
  Forall (child_of h' (length h) (length h') v) new ->
  linked h' (length h) (length h') v ->
  heap_ok h'.
Proof.
  intros Hok Hv Hlen Hfr Hv' Hp Hcs Hnew Hlk.
  pose proof (lookup_lt_Some _ _ _ Hv) as Hvlt.
  apply heap_ok_intro. intros y ndy Hy.
  destruct (decide (y = v)) as [->|Hne].
  - rewrite Hv' in Hy. injection Hy as <-.
    destruct (heap_ok_lookup h v nd Hok Hv) as [Hc Hpar]. split.
    + rewrite Hcs. apply Forall_app. split.
      * eapply Forall_impl; [exact Hc|]. intros c (x & -> & ?). exists x. split; [done|lia].
      * eapply Forall_impl; [exact Hnew|]. intros c (z & nz & -> & ? & _). exists z.
        split; [done|lia].
    + intros p Hpp. rewrite Hp in Hpp. specialize (Hpar p Hpp). lia.
  - destruct (decide (y < length h)) as [Hlt|Hge].
    + rewrite Hfr in Hy by done. destruct (heap_ok_lookup h y ndy Hok Hy) as [Hc Hpar].
      split.
      * eapply Forall_impl; [exact Hc|]. intros c (x & -> & ?). exists x. split; [done|lia].
      * intros p Hpp. specialize (Hpar p Hpp). lia.
    + pose proof (lookup_lt_Some _ _ _ Hy) as Hylt.
      destruct (Hlk y ndy) as [Hc (p & Hpp & Hin)]; [lia|done|]. split.
      * eapply Forall_impl; [exact Hc|]. intros c (z & nz & -> & ? & _). exists z.
        split; [done|lia].
      * intros q Hq. rewrite Hpp in Hq. injection Hq as <-. destruct Hin; lia.
Qed.

(** X15.  [xml.Unmarshal] into a node of a store without nil children,
    for any input, well-formed or not, and whether it fails or not:
    the nodes it adds are linked, each child of a node having that node
    as [Parent], and the children it appends to the receiver having the
    receiver as [Parent]; the store has no nil child afterwards; the
    receiver keeps its [Parent] and the children it had, and no other
    old node changes. *)
Theorem Unmarshal_links data h v nd :
  heap_ok h -> h !! v = Some nd ->
  exists h' e nd' new,
    Unmarshal data h v = Done (h', e) /\
    heap_ok h' /\ length h <= length h' /\
    (forall y, y < length h -> y <> v -> h' !! y = h !! y) /\
    h' !! v = Some nd' /\ Parent nd' = Parent nd /\ Children nd' = Children nd ++ new /\
    Forall (child_of h' (length h) (length h') v) new /\
    linked h' (length h) (length h') v.
Proof.
  intros Hok Hv. pose proof (lookup_lt_Some _ _ _ Hv) as Hlt.
  destruct (Decode_total (2 * length data + 3) h (mkDecoder data []) v Hlt)
    as (h' & d' & e & E); [simpl; lia|].
  destruct (Decode_links _ _ _ _ _ _ _ nd E Hv)
    as (Hlen & Hfr & nd' & new & Hv' & Hp & Hcs & Hnew & Hlk).
  exists h', e, nd', new. split; [by unfold Unmarshal; rewrite E|].
  split; [by eapply links_heap_ok|]. done.
Qed.

Lemma Unmarshal_links_witness :
  exists h' e nd' new,
    Unmarshal [inl (StartElement "a" []); inl (StartElement "b" []); inl (EndElement "b")]
              [zeroNode] 0 = Done (h', e) /\
    heap_ok h' /\
    h' !! 0 = Some nd' /\ Children nd' = new /\
    Forall (child_of h' 1 (length h') 0) new /\
    linked h' 1 (length h') 0.
Proof.
  destruct (Unmarshal_links
              [inl (StartElement "a" []); inl (StartElement "b" []); inl (EndElement "b")]
              [zeroNode] 0 zeroNode eq_refl eq_refl)
    as (h' & e & nd' & new & E & Hok & _ & _ & Hv & _ & Hcs & Hnew & Hlk).
  exists h', e, nd', new. split; [exact E|]. split; [exact Hok|]. split; [exact Hv|].
  split; [exact Hcs|]. split; [exact Hnew|exact Hlk].
Defined.

Lemma Decode_start pre : forall fuel h s rest v name attr h' d' e nd,
  forallb is_prolog pre = true ->
  Decode fuel h (mkDecoder (map inl pre ++ inl (StartElement name attr) :: rest) s) v
  = Done (h', d', e) ->
  h !! v = Some nd ->
  exists nd', h' !! v = Some nd' /\ Tag nd' = name /\ Attributes nd' = Some (attrMap attr).
Proof.
  induction pre as [|t pre IH]; intros [|fuel] h s rest v name attr h' d' e nd Hp;
    try done.
  - cbn. intros E Hv.
    destruct (proj1 (unmarshal_links fuel) _ _ _ _ _ _ _ _ nd E Hv)
      as (_ & _ & nd' & new & ? & ? & ? & _). eauto.
  - simpl in Hp. apply andb_prop in Hp as [Ht Hp].
    destruct t; try done; cbn; intros E Hv; by eapply IH.
Qed.

(** X16.  [xml.Unmarshal] does not undo what it did when it fails: once
    the start tag of the root element is read, the receiver has the tag
    and the attributes of that element, whatever follows and whether
    the call returns an error or not. *)
Theorem Unmarshal_keeps_partial pre name attr rest h v nd :
  forallb is_prolog pre = true -> h !! v = Some nd ->
  exists h' e nd',
    Unmarshal (map inl pre ++ inl (StartElement name attr) :: rest) h v = Done (h', e) /\
    h' !! v = Some nd' /\ Tag nd' = name /\ Attributes nd' = Some (attrMap attr) /\
    Parent nd' = Parent nd.
Proof.
  intros Hp Hv. pose proof (lookup_lt_Some _ _ _ Hv) as Hlt.
  set (data := map inl pre ++ inl (StartElement name attr) :: rest).
  destruct (Decode_total (2 * length data + 3) h (mkDecoder data []) v Hlt)
    as (h' & d' & e & E); [simpl; lia|].
  destruct (Decode_start pre _ _ _ _ _ _ _ _ _ _ nd Hp E Hv) as (nd' & Hv' & Ht & Ha).
  destruct (Decode_links _ _ _ _ _ _ _ nd E Hv) as (_ & _ & nd2 & new & Hv2 & Hpar & _).
  rewrite Hv' in Hv2. injection Hv2 as <-.
  exists h', e, nd'. split; [by unfold Unmarshal; rewrite E|]. done.
Qed.

Lemma Unmarshal_keeps_partial_witness :
  exists h' err nd',
    Unmarshal [inl (CharData " "); inl (StartElement "a" [("k", "v")]);
               inl (StartElement "b" [])] [zeroNode] 0 = Done (h', Some err) /\
    h' !! 0 = Some nd' /\ Tag nd' = "a" /\ Attributes nd' = Some (attrMap [("k", "v")]).
Proof.
  destruct (Unmarshal_keeps_partial [CharData " "] "a" [("k", "v")]
              [inl (StartElement "b" [])] [zeroNode] 0 zeroNode eq_refl eq_refl)
    as (h' & e & nd' & E & Hv & Ht & Ha & _).
  assert (He : exists err, e = Some err).
  { vm_compute in E. injection E as _ <-. eauto. }
  destruct He as [err ->]. exists h', err, nd'.
  split; [exact E|]. split; [exact Hv|]. split; [exact Ht|exact Ha].
Defined.

(** ** Unmarshal into a node in use, and FindChild on its result *)

(** X17.  [xml.Unmarshal] of an element into a node that is in use: the
    tag is replaced and the attributes are replaced as a whole by those
    of the element; the children of the element are appended after the
    children the node had; the text is replaced only if the element has
    character data directly inside it; the parent stays. *)
Theorem Unmarshal_into_used pre tag attr body rest h v nd0 :
  forallb is_prolog pre = true -> h !! v = Some nd0 ->
  exists h' nd' new,
    Unmarshal (map inl pre ++ map inl (xml_tokens (XElem tag attr body)) ++ rest) h v
      = Done (h', None) /\
    h' !! v = Some nd' /\
    Tag nd' = tag /\ Attributes nd' = Some (attrMap attr) /\ Parent nd' = Parent nd0 /\
    Children nd' = Children nd0 ++ new /\ length new = length (elems body) /\
    InnerText nd' = lastText (InnerText nd0) body /\
    (texts body = [] -> InnerText nd' = InnerText nd0).
Proof.
  intros Hp Hv.
  destruct (Unmarshal_document pre tag attr body rest h v nd0 Hp Hv)
    as (h' & kids & E & Hv' & Hpar & _).
  eexists h', _, (map (fun k => Some (t_loc k)) kids).
  split; [exact E|]. split; [exact Hv'|]. simpl. do 4 (split; [done|]).
  split; [|split; [done|]].
  - rewrite length_map. symmetry. by eapply Forall2_length.
  - intros Ht. unfold lastText. by rewrite Ht.
Qed.

Lemma Unmarshal_into_used_witness :
  exists h' nd',
    Unmarshal (map inl (xml_tokens (XElem "new" [("j", "w")] [XElem "d" [] []])))
              used_store 0 = Done (h', None) /\
    h' !! 0 = Some nd' /\
    Tag nd' = "new" /\ Attributes nd' = Some {[ "j" := "w" ]} /\
    Children nd' = [Some 1; Some 2] /\ InnerText nd' = "kept".
Proof.
  destruct (Unmarshal_into_used [] "new" [("j", "w")] [XElem "d" [] []] [] used_store 0 _
              eq_refl eq_refl)
    as (h' & nd' & new & E & Hv & Ht & Ha & _ & Hc & _ & Hx & _).
  assert (E2 : h' !! 0 = Some (mkNode "new" None [Some 1; Some 2] "kept" (Some {[ "j" := "w" ]}))).
  { vm_compute in E. by injection E as <-. }
  rewrite E2 in Hv. injection Hv as <-.
  exists h', (mkNode "new" None [Some 1; Some 2] "kept" (Some {[ "j" := "w" ]})).
  split; [exact E|]. split; [exact E2|]. done.
Defined.

Lemma attrMap_snoc attr k v : attrMap (attr ++ [(k, v)]) = <[k := v]> (attrMap attr).
Proof. unfold attrMap. by rewrite fold_left_app. Qed.

(** X18.  The attributes [UnmarshalXML] stores for a start tag: for
    every name, the value of the last attribute of the start tag with
    that name, and no entry when there is none.  Of several attributes
    with one name the last one stays. *)
Theorem attrMap_last_wins attr k :
  attrMap attr !! k = snd <$> last (filter (fun a => a.1 = k) attr).
Proof.
  induction attr as [|[k' v'] attr IH] using rev_ind; [done|].
  rewrite attrMap_snoc, filter_app. simpl.
  rewrite filter_cons, filter_nil. simpl.
  destruct (decide (k' = k)) as [->|Hne].
  - by rewrite lookup_insert_eq, last_snoc.
  - by rewrite lookup_insert_ne, app_nil_r.
Qed.

Lemma parsed_tags x : forall t, parsed x t -> (preorder t).*2 = element_tags x.
Proof.
  induction x as [| | | |tag attr body IH] using xml_rect'; intros t Hp;
    inversion Hp as [? ? ? l kids Hkids]; subst.
  cbn [preorder element_tags fmap list_fmap]. f_equal. clear Hp.
  revert kids Hkids. induction IH as [|x body Hx _ IHb]; intros kids Hkids.
  - inversion Hkids. done.
  - cbn [map concat]. destruct x; cbn [elems List.filter is_elem] in Hkids;
      try (cbn [element_tags app]; by apply IHb).
    inversion Hkids as [|? k ? ks Hk Hks]; subst.
    cbn [map concat]. rewrite fmap_app, (Hx k Hk). f_equal. by apply IHb.
Qed.

Lemma firstTagged_Some tag ns z : firstTagged tag ns = Some z -> (z, tag) ∈ ns.
Proof.
  induction ns as [|[l t] ns IH]; [done|]. simpl.
  destruct (String.eqb_spec t tag) as [->|_].
  - intros [= ->]. by left.
  - intros ?%IH. by right.
Qed.

Lemma elem_of_concat {A} (x : A) (ls : list (list A)) :
  x ∈ concat ls -> exists l, x ∈ l /\ l ∈ ls.
Proof.
  induction ls as [|l ls IH]; simpl; [by intros ?%elem_of_nil|].
  intros [Hin|Hin]%elem_of_app.
  - exists l. split; [done|by left].
  - destruct (IH Hin) as (l' & ? & ?). exists l'. split; [done|by right].
Qed.

Lemma repr_preorder h t z tg :
  repr h t -> (z, tg) ∈ preorder t -> Tag <$> h !! z = Some tg.
Proof.
  induction t as [l tag attrs text kids IH] using tree_rect'. intros Hr.
  inversion Hr as [? ? ? ? ? parent Hl Hkids]; subst. cbn [preorder].
  intros [[= -> ->]|Hin]%elem_of_cons; [by rewrite Hl|].
  apply elem_of_concat in Hin as (ns & Hin & Hns).
  apply list_elem_of_In, in_map_iff in Hns as (k & <- & Hk).
  apply list_elem_of_In in Hk.
  rewrite Forall_forall in IH, Hkids. apply (IH k Hk); [by apply Hkids|done].
Qed.

(** X19.  [FindChild] on the node [xml.Unmarshal] filled from an
    element: with enough nested calls allowed it returns a node for
    exactly the tags that some element of the document has, the root
    element included, and the node returned has the tag. *)
Theorem FindChild_after_Unmarshal pre tag attr body rest h v nd0 :
  forallb is_prolog pre = true -> h !! v = Some nd0 -> Children nd0 = [] ->
  exists h' fuel0,
    Unmarshal (map inl pre ++ map inl (xml_tokens (XElem tag attr body)) ++ rest) h v
      = Done (h', None) /\
    forall name fuel, fuel0 <= fuel ->
      exists r, FindChild fuel h' (Some v) name = Done r /\
        (r = None <-> name ∉ element_tags (XElem tag attr body)) /\
        (forall z, r = Some z -> Tag <$> h' !! z = Some name).
Proof.
  intros Hp Hv Hcs.
  destruct (Unmarshal_document pre tag attr body rest h v nd0 Hp Hv)
    as (h' & kids & E & Hv' & Hpar & Hrep & _).
  rewrite Hcs in Hv'. cbn [app] in Hv'.
  set (t' := TNode v tag (Some (attrMap attr)) (lastText (InnerText nd0) body) kids).
  assert (Hr : repr h' t') by (by econstructor).
  assert (Hparsed : parsed (XElem tag attr body)
                      (TNode v tag (Some (attrMap attr)) (lastText "" body) kids))
    by (by constructor).
  assert (Htags : (preorder t').*2 = element_tags (XElem tag attr body)).
  { rewrite <- (parsed_tags _ _ Hparsed). done. }
  exists h', (S (height t')). split; [exact E|]. intros name fuel Hf.
  exists (firstTagged name (preorder t')).
  split; [apply (FindChild_repr h' t' name Hr); lia|]. split.
  - rewrite firstTagged_None, <- Htags. rewrite Forall_forall. split.
    + intros H Hin. apply list_elem_of_fmap in Hin as ([z tg] & -> & Hin).
      by apply (H _ Hin).
    + intros H [z tg] Hin Heq. apply H. apply list_elem_of_fmap. by exists (z, tg).
  - intros z Hz. apply firstTagged_Some in Hz. by apply (repr_preorder h' t').
Qed.

Lemma FindChild_after_Unmarshal_witness :
  exists h' fuel0 r,
    Unmarshal (map inl (xml_tokens (XElem "a" [] mixed_body))) [zeroNode] 0
      = Done (h', None) /\
    FindChild fuel0 h' (Some 0) "c" = Done r /\
    (forall z, r = Some z -> Tag <$> h' !! z = Some "c").
Proof.
  destruct (FindChild_after_Unmarshal [] "a" [] mixed_body [] [zeroNode] 0 _
              eq_refl eq_refl eq_refl) as (h' & fuel0 & E & F).
  destruct (F "c" fuel0 (le_n _)) as (r & Er & _ & Hr).
  exists h', fuel0, r.
  split; [exact E|]. split; [exact Er|exact Hr].
Defined.

(** ** Serializing what was deserialized, and cycles *)

Lemma tags_ok_preorder t : tags_ok t = true <-> Forall (fun tg => tg <> "") (preorder t).*2.
Proof.
  induction t as [l tag attrs text kids IH] using tree_rect'.
  cbn [tags_ok preorder fmap list_fmap]. rewrite andb_true_iff, Forall_cons.
  assert (K : forallb tags_ok kids = true
              <-> Forall (fun tg => tg <> "") (concat (map preorder kids)).*2).
  { induction IH as [|k kids Hk _ IHk]; [done|].
    cbn [forallb map concat]. rewrite fmap_app, Forall_app, andb_true_iff, Hk, IHk. done. }
  rewrite K. destruct (String.eqb_spec tag ""); simpl; split; intros []; split; done.
Qed.

Lemma start_names_app a b : start_names (a ++ b) = start_names a ++ start_names b.
Proof. induction a as [|[] a IH]; simpl; by rewrite ?IH. Qed.

Lemma doc_of_start_names rangeOrder t :
  start_names (xml_tokens (doc_of rangeOrder t)) = (preorder t).*2.
Proof.
  induction t as [l tag attrs text kids IH] using tree_rect'.
  cbn [doc_of xml_tokens start_names preorder fmap list_fmap]. f_equal.
  rewrite start_names_app, map_app, concat_app, start_names_app. simpl.
  rewrite app_nil_r.
  replace (start_names (concat (map xml_tokens (if String.eqb text "" then [] else [XText text]))))
    with (@nil string) by (by destruct (String.eqb text "")).
  cbn [app]. induction IH as [|k kids Hk _ IHk]; [done|].
  cbn [map concat]. by rewrite start_names_app, fmap_app, Hk, IHk.
Qed.

Lemma doc_of_no_misc rangeOrder t :
  Forall (fun tok => is_misc tok = false) (xml_tokens (doc_of rangeOrder t)).
Proof.
  induction t as [l tag attrs text kids IH] using tree_rect'.
  cbn [doc_of xml_tokens]. constructor; [done|].
  rewrite map_app, concat_app. apply Forall_app. split; [apply Forall_app; split|].
  - destruct (String.eqb text ""); simpl; by repeat constructor.
  - induction IH as [|k kids Hk _ IHk]; [constructor|].
    cbn [map concat]. apply Forall_app. by split.
  - by repeat constructor.
Qed.

(** X20.  [xml.Marshal] of the node [xml.Unmarshal] filled from an
    element whose elements all have a name: it succeeds, and the markup
    has the start tags of the elements of the input, in their order,
    and none of its comments, processing instructions and directives.
    It is the markup of the tree the element is parsed to: for every
    element its attributes, then its last text, if any, then its child
    elements. *)
Theorem Marshal_after_Unmarshal rangeOrder pre tag attr body rest h v nd0 :
  forallb is_prolog pre = true -> h !! v = Some nd0 -> Children nd0 = [] ->
  Forall (fun tg => tg <> "") (element_tags (XElem tag attr body)) ->
  exists h' t' fuel0,
    Unmarshal (map inl pre ++ map inl (xml_tokens (XElem tag attr body)) ++ rest) h v
      = Done (h', None) /\
    repr h' t' /\ t_loc t' = v /\
    forall fuel, fuel0 <= fuel ->
      Marshal rangeOrder fuel h' (Some v) = Done (inl (xml_tokens (doc_of rangeOrder t'))) /\
      start_names (xml_tokens (doc_of rangeOrder t')) = element_tags (XElem tag attr body) /\
      Forall (fun tok => is_misc tok = false) (xml_tokens (doc_of rangeOrder t')).
Proof.
  intros Hp Hv Hcs Hne.
  destruct (Unmarshal_document pre tag attr body rest h v nd0 Hp Hv)
    as (h' & kids & E & Hv' & Hpar & Hrep & _).
  rewrite Hcs in Hv'. cbn [app] in Hv'.
  set (t' := TNode v tag (Some (attrMap attr)) (lastText (InnerText nd0) body) kids).
  assert (Hr : repr h' t') by (by econstructor).
  assert (Hparsed : parsed (XElem tag attr body)
                      (TNode v tag (Some (attrMap attr)) (lastText "" body) kids))
    by (by constructor).
  assert (Htags : (preorder t').*2 = element_tags (XElem tag attr body)).
  { rewrite <- (parsed_tags _ _ Hparsed). done. }
  assert (Hok : tags_ok t' = true) by (apply tags_ok_preorder; by rewrite Htags).
  exists h', t', (S (height t')). split; [exact E|]. split; [done|]. split; [done|].
  intros fuel Hf. split; [|split].
  - pose proof (Marshal_repr rangeOrder h' t' fuel Hr) as M. rewrite Hok in M.
    apply M. lia.
  - by rewrite doc_of_start_names.
  - apply doc_of_no_misc.
Qed.

Lemma Marshal_after_Unmarshal_witness :
  exists h' t' fuel0,
    Unmarshal (map inl (xml_tokens (XElem "a" [] (XComment "note" :: mixed_body))))
              [zeroNode] 0 = Done (h', None) /\
    forall fuel, fuel0 <= fuel ->
      Marshal orderA fuel h' (Some 0) = Done (inl (xml_tokens (doc_of orderA t'))) /\
      start_names (xml_tokens (doc_of orderA t')) = ["a"; "b"; "c"] /\
      Forall (fun tok => is_misc tok = false) (xml_tokens (doc_of orderA t')).
Proof.
  destruct (Marshal_after_Unmarshal orderA [] "a" [] (XComment "note" :: mixed_body) []
              [zeroNode] 0 _ eq_refl eq_refl eq_refl)
    as (h' & t' & fuel0 & E & _ & _ & M).
  { by repeat constructor. }
  exists h', t', fuel0. split; [exact E|exact M].
Defined.

Lemma MarshalXML_own_child rangeOrder h l nd :
  h !! l = Some nd -> Tag nd <> "" -> head (Children nd) = Some (Some l) ->
  forall fuel e name attr,
    MarshalXML rangeOrder fuel h e (Some l) name attr = OutOfFuel.
Proof.
  intros Hl Hne Hhd. induction fuel as [|fuel IH]; intros e name attr; [done|].
  cbn [MarshalXML]. rewrite Hl.
  destruct (Children nd) as [|c cs] eqn:Hcs; [done|]. injection Hhd as ->.
  cbn [length Nat.eqb andb].
  destruct (EncodeToken e _) as [e1 r1] eqn:E1.
  assert (Hst : istate (prefix e) (indent e) e (putNewline e) (depth e)) by done.
  apply (EncodeToken_start _ _ _ _ _ _ _ _ _ Hst) in E1 as [_ S2].
  pose proof (S2 Hne) as ->.
  destruct (if String.eqb (InnerText nd) "" then (e1, None)
            else EncodeToken e1 (CharData (InnerText nd))) as [e2 r2] eqn:E2.
  assert (X : r2 = None).
  { destruct (String.eqb (InnerText nd) "").
    - by injection E2 as <- <-.
    - by apply EncodeToken_text in E2 as (X & _). }
  rewrite X.
  cbn [encodeChildren Encode]. by rewrite IH.
Qed.

(** X21.  A node that is its own first child and has a tag: [xml.Marshal],
    [Bytes] and [String] never return for it, whatever the number of
    nested calls allowed: [MarshalXML] writes the start tag and calls
    itself on the same node without end. *)
Theorem Marshal_own_child rangeOrder h l nd :
  h !! l = Some nd -> Tag nd <> "" -> head (Children nd) = Some (Some l) ->
  forall fuel,
    Marshal rangeOrder fuel h (Some l) = OutOfFuel /\
    Bytes rangeOrder fuel h (Some l) = OutOfFuel /\
    Node_String rangeOrder fuel h (Some l) = OutOfFuel.
Proof.
  intros Hl Hne Hhd fuel.
  assert (M : forall e, encodeAndClose rangeOrder e fuel h (Some l) = OutOfFuel).
  { intros e. unfold encodeAndClose, Encode.
    by rewrite (MarshalXML_own_child rangeOrder h l nd Hl Hne Hhd). }
  unfold Node_String, Bytes, MarshalIndent, Marshal. by rewrite !M.
Qed.

Lemma Marshal_own_child_witness :
  Marshal orderA 100 own_child_store (Some 0) = OutOfFuel /\
  Bytes orderA 100 own_child_store (Some 0) = OutOfFuel /\
  Node_String orderA 100 own_child_store (Some 0) = OutOfFuel.
Proof. apply (Marshal_own_child orderA own_child_store 0 _ eq_refl); done. Defined.
